(** * PyFighter: the player ship entity

    A shallow embedding of [models/player.py]: the [Player] class with its
    weapon cooldowns, projectile spawning, hit resolution and the idle
    animation with its glow effect.

    Python integers are [Z].  Objects that the code shares and mutates in
    place live in two stores inside [World]: the sprites (targets, lasers,
    missiles) and the pygame surfaces (images).  A reference is an index
    into its store.  Sound playback and [kill()] calls are recorded in an
    event log, oldest first.  The clock [pygame.time.get_ticks()] is an
    argument [now] of the two methods that read it. *)

From Stdlib Require Import ZArith List Lia Bool.
From stdpp Require Import base option list.

(** ** Python values *)

Inductive Exn := ZeroDivisionError | IndexError | AttributeError.

Inductive result (A : Type) : Type :=
| Ok (a : A)
| Raise (e : Exn).
Arguments Ok {A} a.
Arguments Raise {A} e.

Global Instance result_ret : MRet result := fun A a => Ok a.

Global Instance result_bind : MBind result := fun A B k m =>
  match m with
  | Ok a => k a
  | Raise e => Raise e
  end.

Global Instance result_fmap : FMap result := fun A B f m =>
  match m with
  | Ok a => Ok (f a)
  | Raise e => Raise e
  end.

Lemma bind_Ok {A B} (m : result A) (k : A -> result B) (b : B) :
  m ≫= k = Ok b -> exists a, m = Ok a /\ k a = Ok b.
Proof. destruct m as [a|e]; cbn; [eauto | discriminate]. Qed.

(** From [H : (x ← m; k x) = Ok b], the value [a] of [m] and [H : k a = Ok b]. *)
Tactic Notation "inv_bind" hyp(H) "as" simple_intropattern(a) ident(Ha) :=
  apply bind_Ok in H; destruct H as (a & Ha & H).

(** Comparisons that were decided by a test, as facts for [lia]. *)
Ltac zbool :=
  repeat match goal with
  | H : (_ >=? _)%Z = _ |- _ => rewrite Z.geb_leb in H
  | H : (_ >? _)%Z = _ |- _ => rewrite Z.gtb_ltb in H
  | H : (_ <? _)%Z = true |- _ => apply Z.ltb_lt in H
  | H : (_ <? _)%Z = false |- _ => apply Z.ltb_ge in H
  | H : (_ <=? _)%Z = true |- _ => apply Z.leb_le in H
  | H : (_ <=? _)%Z = false |- _ => apply Z.leb_gt in H
  | H : (_ =? _)%Z = true |- _ => apply Z.eqb_eq in H
  | H : (_ =? _)%Z = false |- _ => apply Z.eqb_neq in H
  end.

(** [a % b] on Python integers: the sign follows the divisor, as [Z.modulo]
    does; a zero divisor raises. *)
Definition py_mod (a b : Z) : result Z :=
  if (b =? 0)%Z then Raise ZeroDivisionError else Ok (a mod b)%Z.

(** The position a Python list index designates: negative indices count
    from the end, anything outside [-len, len) raises. *)
Definition py_index {A} (l : list A) (i : Z) : result nat :=
  let n := Z.of_nat (length l) in
  if ((0 <=? i) && (i <? n))%Z then Ok (Z.to_nat i)
  else if ((- n <=? i) && (i <? 0))%Z then Ok (Z.to_nat (n + i))
  else Raise IndexError.

(** [l[i]] *)
Definition py_getitem {A} (l : list A) (i : Z) : result A :=
  k ← py_index l i;
  match l !! k with
  | Some x => Ok x
  | None => Raise IndexError
  end.

(** [l[i] = x] *)
Definition py_setitem {A} (l : list A) (i : Z) (x : A) : result (list A) :=
  k ← py_index l i; Ok (<[k := x]> l).

(** A dict with integer keys, in insertion order. *)
Fixpoint dict_get {V} (d : list (Z * V)) (k : Z) : option V :=
  match d with
  | [] => None
  | (k', v) :: d' => if (k' =? k)%Z then Some v else dict_get d' k
  end.

(** [d[k] = v]: an existing key keeps its place, a new one goes last. *)
Fixpoint dict_set {V} (d : list (Z * V)) (k : Z) (v : V) : list (Z * V) :=
  match d with
  | [] => [(k, v)]
  | (k', v') :: d' =>
      if (k' =? k)%Z then (k, v) :: d' else (k', v') :: dict_set d' k v
  end.

(** ** Handles and references *)

(** Identity of a sprite (an [Actor] or a [Missile]) in the sprite store. *)
Abbreviation ref := nat (only parsing).
(** Identity of a pygame [Surface] in the surface store. *)
Abbreviation surf_ref := nat (only parsing).
(** Collision masks and mixer sounds are only passed around. *)
Definition Mask := nat.
Definition Sound := nat.

(** A pygame sprite group: an insertion-ordered set of sprites. *)
Definition SpriteGroup := list ref.

(** [Group.add]: a sprite already in the group is not added again. *)
Definition group_add (r : ref) (g : SpriteGroup) : SpriteGroup :=
  if bool_decide (r ∈ g) then g else g ++ [r].

(** [Group.remove]: a sprite that is not in the group is ignored. *)
Definition group_remove (r : ref) (g : SpriteGroup) : SpriteGroup :=
  filter (λ x, x ≠ r) g.

Inductive Event :=
| Play (s : Sound)
| Killed (r : ref).

Global Instance Event_eq_dec : EqDecision Event.
Proof. solve_decision. Defined.

Section PlayerModel.

(** Components of a [Vector2] and of a draw offset (Python floats), with
    their subtraction. *)
Context {Coord : Type}.
Variable coord_sub : Coord -> Coord -> Coord.

(** Pixel content of a surface, and what
    [fill(Color("yellow"), special_flags=BLEND_ADD)] turns it into. *)
Context {Surface : Type}.
Variable fill_yellow_add : Surface -> Surface.

(** What [Missile.lock] returns. *)
Context {Lock : Type}.

Record Vector2 := { vx : Coord; vy : Coord }.

(** A draw offset: the dict with the keys ["x"] and ["y"]. *)
Record Offset := { off_x : Coord; off_y : Coord }.

(** Modelled from the spec: the [Actor] base class of [models/actor.py],
    which is not part of the sources: "position (2D vector), hit points
    (integer), speed, visual image, collision mask, draw offset", in the
    order of the constructor call [Actor(pos, hp, speed, img, mask, offset)]. *)
Record Actor := {
  pos : Vector2;
  hp : Z;
  speed : Z;
  img : surf_ref;
  mask : Mask;
  offset : Offset
}.

Definition set_hp (a : Actor) (v : Z) : Actor :=
  {| pos := pos a; hp := v; speed := speed a; img := img a; mask := mask a;
     offset := offset a |}.

Definition set_img (a : Actor) (v : surf_ref) : Actor :=
  {| pos := pos a; hp := hp a; speed := speed a; img := v; mask := mask a;
     offset := offset a |}.

(** What is stored at a sprite reference.  A [Missile] is an [Actor] with
    a lock and an angle (the literal [90.0] on launch, kept in degrees). *)
Inductive Sprite :=
| ActorObj (a : Actor)
| MissileObj (a : Actor) (lock : Lock) (angle : Z).

Definition sprite_actor (s : Sprite) : Actor :=
  match s with
  | ActorObj a => a
  | MissileObj a _ _ => a
  end.

Definition sprite_set_hp (s : Sprite) (v : Z) : Sprite :=
  match s with
  | ActorObj a => ActorObj (set_hp a v)
  | MissileObj a l g => MissileObj (set_hp a v) l g
  end.

(** What the mask test looks at: "two (image, mask, position) actors",
    placed with their draw offsets. *)
Definition Shape : Type := Vector2 * surf_ref * Mask * Offset.

Definition shape (a : Actor) : Shape := (pos a, img a, mask a, offset a).

(** The external primitives and the constants of [constants.py]. *)
Variable mask_overlap : Shape -> Shape -> bool.
Variable Missile_lock : Vector2 -> list (option ref) -> list Sprite -> Lock.
Variable BASE_LASER_SPEED : Z.
Variable BASE_CANNON_COOLDOWN : Z.
Variable BASE_LASER_DMG : Z.
Variable IMG_OFFSETS_blueLaser : Offset.
Variable IMG_OFFSETS_blueMissile : Offset.

(** Modelled from the spec: [Actor.resolve_collision] of [models/actor.py],
    which is not part of the sources: a "pixel-mask collision-test primitive
    taking two (image, mask, position) actors and returning boolean
    overlap".  It does not look at hit points. *)
Definition resolve_collision (a b : Actor) : bool :=
  mask_overlap (shape a) (shape b).

Record Player := {
  base : Actor;
  cooldown_threshold : Z;
  cooldown_counter : Z;
  laser_dmg : Z;
  missile_count : Z;
  score : Z;
  laser_img : surf_ref;
  lasers_fired : SpriteGroup;
  laser_mask : Mask;
  missile_img : surf_ref;
  missile_mask : Mask;
  missiles_fired : SpriteGroup;
  missile_cooldown_threshold : Z;
  missile_cooldown_counter : Z;
  missile_sfx : Sound;
  laser_sfx : Sound;
  laser_hit_sfx : Sound;
  explosion_sfx : Sound;
  idle_animation_frames : list surf_ref;
  current_frame : Z;
  animation_counter : Z;
  glow_effect_duration : Z;
  glow_effect_end_time : Z;
  original_images : list (Z * surf_ref)
}.

Definition set_base (p : Player) (v : Actor) : Player :=
  {| base := v; cooldown_threshold := cooldown_threshold p;
     cooldown_counter := cooldown_counter p; laser_dmg := laser_dmg p;
     missile_count := missile_count p; score := score p;
     laser_img := laser_img p; lasers_fired := lasers_fired p;
     laser_mask := laser_mask p; missile_img := missile_img p;
     missile_mask := missile_mask p; missiles_fired := missiles_fired p;
     missile_cooldown_threshold := missile_cooldown_threshold p;
     missile_cooldown_counter := missile_cooldown_counter p;
     missile_sfx := missile_sfx p; laser_sfx := laser_sfx p;
     laser_hit_sfx := laser_hit_sfx p; explosion_sfx := explosion_sfx p;
     idle_animation_frames := idle_animation_frames p;
     current_frame := current_frame p;
     animation_counter := animation_counter p;
     glow_effect_duration := glow_effect_duration p;
     glow_effect_end_time := glow_effect_end_time p;
     original_images := original_images p |}.

Definition set_cooldown_counter (p : Player) (v : Z) : Player :=
  {| base := base p; cooldown_threshold := cooldown_threshold p;
     cooldown_counter := v; laser_dmg := laser_dmg p;
     missile_count := missile_count p; score := score p;
     laser_img := laser_img p; lasers_fired := lasers_fired p;
     laser_mask := laser_mask p; missile_img := missile_img p;
     missile_mask := missile_mask p; missiles_fired := missiles_fired p;
     missile_cooldown_threshold := missile_cooldown_threshold p;
     missile_cooldown_counter := missile_cooldown_counter p;
     missile_sfx := missile_sfx p; laser_sfx := laser_sfx p;
     laser_hit_sfx := laser_hit_sfx p; explosion_sfx := explosion_sfx p;
     idle_animation_frames := idle_animation_frames p;
     current_frame := current_frame p;
     animation_counter := animation_counter p;
     glow_effect_duration := glow_effect_duration p;
     glow_effect_end_time := glow_effect_end_time p;
     original_images := original_images p |}.

Definition set_lasers_fired (p : Player) (v : SpriteGroup) : Player :=
  {| base := base p; cooldown_threshold := cooldown_threshold p;
     cooldown_counter := cooldown_counter p; laser_dmg := laser_dmg p;
     missile_count := missile_count p; score := score p;
     laser_img := laser_img p; lasers_fired := v; laser_mask := laser_mask p;
     missile_img := missile_img p; missile_mask := missile_mask p;
     missiles_fired := missiles_fired p;
     missile_cooldown_threshold := missile_cooldown_threshold p;
     missile_cooldown_counter := missile_cooldown_counter p;
     missile_sfx := missile_sfx p; laser_sfx := laser_sfx p;
     laser_hit_sfx := laser_hit_sfx p; explosion_sfx := explosion_sfx p;
     idle_animation_frames := idle_animation_frames p;
     current_frame := current_frame p;
     animation_counter := animation_counter p;
     glow_effect_duration := glow_effect_duration p;
     glow_effect_end_time := glow_effect_end_time p;
     original_images := original_images p |}.

Definition set_missile_count (p : Player) (v : Z) : Player :=
  {| base := base p; cooldown_threshold := cooldown_threshold p;
     cooldown_counter := cooldown_counter p; laser_dmg := laser_dmg p;
     missile_count := v; score := score p; laser_img := laser_img p;
     lasers_fired := lasers_fired p; laser_mask := laser_mask p;
     missile_img := missile_img p; missile_mask := missile_mask p;
     missiles_fired := missiles_fired p;
     missile_cooldown_threshold := missile_cooldown_threshold p;
     missile_cooldown_counter := missile_cooldown_counter p;
     missile_sfx := missile_sfx p; laser_sfx := laser_sfx p;
     laser_hit_sfx := laser_hit_sfx p; explosion_sfx := explosion_sfx p;
     idle_animation_frames := idle_animation_frames p;
     current_frame := current_frame p;
     animation_counter := animation_counter p;
     glow_effect_duration := glow_effect_duration p;
     glow_effect_end_time := glow_effect_end_time p;
     original_images := original_images p |}.

Definition set_missiles_fired (p : Player) (v : SpriteGroup) : Player :=
  {| base := base p; cooldown_threshold := cooldown_threshold p;
     cooldown_counter := cooldown_counter p; laser_dmg := laser_dmg p;
     missile_count := missile_count p; score := score p;
     laser_img := laser_img p; lasers_fired := lasers_fired p;
     laser_mask := laser_mask p; missile_img := missile_img p;
     missile_mask := missile_mask p; missiles_fired := v;
     missile_cooldown_threshold := missile_cooldown_threshold p;
     missile_cooldown_counter := missile_cooldown_counter p;
     missile_sfx := missile_sfx p; laser_sfx := laser_sfx p;
     laser_hit_sfx := laser_hit_sfx p; explosion_sfx := explosion_sfx p;
     idle_animation_frames := idle_animation_frames p;
     current_frame := current_frame p;
     animation_counter := animation_counter p;
     glow_effect_duration := glow_effect_duration p;
     glow_effect_end_time := glow_effect_end_time p;
     original_images := original_images p |}.

Definition set_missile_cooldown_counter (p : Player) (v : Z) : Player :=
  {| base := base p; cooldown_threshold := cooldown_threshold p;
     cooldown_counter := cooldown_counter p; laser_dmg := laser_dmg p;
     missile_count := missile_count p; score := score p;
     laser_img := laser_img p; lasers_fired := lasers_fired p;
     laser_mask := laser_mask p; missile_img := missile_img p;
     missile_mask := missile_mask p; missiles_fired := missiles_fired p;
     missile_cooldown_threshold := missile_cooldown_threshold p;
     missile_cooldown_counter := v; missile_sfx := missile_sfx p;
     laser_sfx := laser_sfx p; laser_hit_sfx := laser_hit_sfx p;
     explosion_sfx := explosion_sfx p;
     idle_animation_frames := idle_animation_frames p;
     current_frame := current_frame p;
     animation_counter := animation_counter p;
     glow_effect_duration := glow_effect_duration p;
     glow_effect_end_time := glow_effect_end_time p;
     original_images := original_images p |}.

Definition set_idle_animation_frames (p : Player) (v : list surf_ref) : Player :=
  {| base := base p; cooldown_threshold := cooldown_threshold p;
     cooldown_counter := cooldown_counter p; laser_dmg := laser_dmg p;
     missile_count := missile_count p; score := score p;
     laser_img := laser_img p; lasers_fired := lasers_fired p;
     laser_mask := laser_mask p; missile_img := missile_img p;
     missile_mask := missile_mask p; missiles_fired := missiles_fired p;
     missile_cooldown_threshold := missile_cooldown_threshold p;
     missile_cooldown_counter := missile_cooldown_counter p;
     missile_sfx := missile_sfx p; laser_sfx := laser_sfx p;
     laser_hit_sfx := laser_hit_sfx p; explosion_sfx := explosion_sfx p;
     idle_animation_frames := v; current_frame := current_frame p;
     animation_counter := animation_counter p;
     glow_effect_duration := glow_effect_duration p;
     glow_effect_end_time := glow_effect_end_time p;
     original_images := original_images p |}.

Definition set_current_frame (p : Player) (v : Z) : Player :=
  {| base := base p; cooldown_threshold := cooldown_threshold p;
     cooldown_counter := cooldown_counter p; laser_dmg := laser_dmg p;
     missile_count := missile_count p; score := score p;
     laser_img := laser_img p; lasers_fired := lasers_fired p;
     laser_mask := laser_mask p; missile_img := missile_img p;
     missile_mask := missile_mask p; missiles_fired := missiles_fired p;
     missile_cooldown_threshold := missile_cooldown_threshold p;
     missile_cooldown_counter := missile_cooldown_counter p;
     missile_sfx := missile_sfx p; laser_sfx := laser_sfx p;
     laser_hit_sfx := laser_hit_sfx p; explosion_sfx := explosion_sfx p;
     idle_animation_frames := idle_animation_frames p; current_frame := v;
     animation_counter := animation_counter p;
     glow_effect_duration := glow_effect_duration p;
     glow_effect_end_time := glow_effect_end_time p;
     original_images := original_images p |}.

Definition set_animation_counter (p : Player) (v : Z) : Player :=
  {| base := base p; cooldown_threshold := cooldown_threshold p;
     cooldown_counter := cooldown_counter p; laser_dmg := laser_dmg p;
     missile_count := missile_count p; score := score p;
     laser_img := laser_img p; lasers_fired := lasers_fired p;
     laser_mask := laser_mask p; missile_img := missile_img p;
     missile_mask := missile_mask p; missiles_fired := missiles_fired p;
     missile_cooldown_threshold := missile_cooldown_threshold p;
     missile_cooldown_counter := missile_cooldown_counter p;
     missile_sfx := missile_sfx p; laser_sfx := laser_sfx p;
     laser_hit_sfx := laser_hit_sfx p; explosion_sfx := explosion_sfx p;
     idle_animation_frames := idle_animation_frames p;
     current_frame := current_frame p; animation_counter := v;
     glow_effect_duration := glow_effect_duration p;
     glow_effect_end_time := glow_effect_end_time p;
     original_images := original_images p |}.

Definition set_glow_effect_end_time (p : Player) (v : Z) : Player :=
  {| base := base p; cooldown_threshold := cooldown_threshold p;
     cooldown_counter := cooldown_counter p; laser_dmg := laser_dmg p;
     missile_count := missile_count p; score := score p;
     laser_img := laser_img p; lasers_fired := lasers_fired p;
     laser_mask := laser_mask p; missile_img := missile_img p;
     missile_mask := missile_mask p; missiles_fired := missiles_fired p;
     missile_cooldown_threshold := missile_cooldown_threshold p;
     missile_cooldown_counter := missile_cooldown_counter p;
     missile_sfx := missile_sfx p; laser_sfx := laser_sfx p;
     laser_hit_sfx := laser_hit_sfx p; explosion_sfx := explosion_sfx p;
     idle_animation_frames := idle_animation_frames p;
     current_frame := current_frame p;
     animation_counter := animation_counter p;
     glow_effect_duration := glow_effect_duration p;
     glow_effect_end_time := v; original_images := original_images p |}.

Definition set_original_images (p : Player) (v : list (Z * surf_ref)) : Player :=
  {| base := base p; cooldown_threshold := cooldown_threshold p;
     cooldown_counter := cooldown_counter p; laser_dmg := laser_dmg p;
     missile_count := missile_count p; score := score p;
     laser_img := laser_img p; lasers_fired := lasers_fired p;
     laser_mask := laser_mask p; missile_img := missile_img p;
     missile_mask := missile_mask p; missiles_fired := missiles_fired p;
     missile_cooldown_threshold := missile_cooldown_threshold p;
     missile_cooldown_counter := missile_cooldown_counter p;
     missile_sfx := missile_sfx p; laser_sfx := laser_sfx p;
     laser_hit_sfx := laser_hit_sfx p; explosion_sfx := explosion_sfx p;
     idle_animation_frames := idle_animation_frames p;
     current_frame := current_frame p;
     animation_counter := animation_counter p;
     glow_effect_duration := glow_effect_duration p;
     glow_effect_end_time := glow_effect_end_time p; original_images := v |}.

(** The player, the two object stores and the log of sounds and kills. *)
Record World := {
  player : Player;
  sprites : list Sprite;
  surfaces : list Surface;
  events : list Event
}.

Definition set_player (w : World) (p : Player) : World :=
  {| player := p; sprites := sprites w; surfaces := surfaces w;
     events := events w |}.

Definition set_sprites (w : World) (s : list Sprite) : World :=
  {| player := player w; sprites := s; surfaces := surfaces w;
     events := events w |}.

Definition set_surfaces (w : World) (s : list Surface) : World :=
  {| player := player w; sprites := sprites w; surfaces := s;
     events := events w |}.

Definition set_events (w : World) (e : list Event) : World :=
  {| player := player w; sprites := sprites w; surfaces := surfaces w;
     events := e |}.

(** [sound.play()] *)
Definition play (s : Sound) (w : World) : World :=
  set_events w (events w ++ [Play s]).

(** [group.add(Actor(...))] and [group.add(Missile(...))] build a new
    object: it gets the next free reference. *)
Definition alloc_sprite (s : Sprite) (w : World) : ref * World :=
  (length (sprites w), set_sprites w (sprites w ++ [s])).

(** A reference that designates no object stands for a value without the
    attribute asked for, such as [None]. *)
Definition deref_sprite (w : World) (r : ref) : result Sprite :=
  match sprites w !! r with
  | Some s => Ok s
  | None => Raise AttributeError
  end.

Definition deref_surface (w : World) (r : surf_ref) : result Surface :=
  match surfaces w !! r with
  | Some s => Ok s
  | None => Raise AttributeError
  end.

(** Modelled from the spec: [kill()] of the candidate, from
    [models/actor.py], which is not part of the sources: "mark candidate
    dead (invoke its removal hook)".  The candidate is a pygame sprite, so
    the hook takes it out of the groups that hold it; the call is logged. *)
Definition kill (r : ref) (w : World) : World :=
  let p := player w in
  let p := set_lasers_fired p (group_remove r (lasers_fired p)) in
  let p := set_missiles_fired p (group_remove r (missiles_fired p)) in
  set_events (set_player w p) (events w ++ [Killed r]).

(** ** The constructor *)

Definition Player_init (pos0 : Vector2) (hp0 speed0 : Z) (ship_img : surf_ref)
    (ship_mask : Mask) (offset0 : Offset) (laser_img0 : surf_ref)
    (laser_mask0 : Mask) (laser_sfx0 : Sound) (missle_img : surf_ref)
    (missle_mask : Mask) (laser_hit_sfx0 explosion_sfx0 missile_sfx0 : Sound)
    (idle_animation_frames0 : list surf_ref) : result Player :=
  Ok {| base := {| pos := pos0; hp := hp0; speed := speed0; img := ship_img;
                   mask := ship_mask; offset := offset0 |};
        cooldown_threshold := BASE_CANNON_COOLDOWN;
        cooldown_counter := 0;
        laser_dmg := BASE_LASER_DMG;
        missile_count := 2;
        score := 0;
        laser_img := laser_img0;
        lasers_fired := [];
        laser_mask := laser_mask0;
        missile_img := missle_img;
        missile_mask := missle_mask;
        missiles_fired := [];
        missile_cooldown_threshold := BASE_CANNON_COOLDOWN;
        missile_cooldown_counter := 0;
        missile_sfx := missile_sfx0;
        laser_sfx := laser_sfx0;
        laser_hit_sfx := laser_hit_sfx0;
        explosion_sfx := explosion_sfx0;
        idle_animation_frames := idle_animation_frames0;
        current_frame := 0;
        animation_counter := 0;
        glow_effect_duration := 200;
        glow_effect_end_time := 0;
        original_images := [] |}.

(** ** The cannon *)

Definition shoot (w : World) : World :=
  let p := player w in
  if (cooldown_counter p =? 0)%Z then
    let laser_pos :=
      {| vx := vx (pos (base p));
         vy := coord_sub (vy (pos (base p))) (off_y (offset (base p))) |} in
    let laser :=
      ActorObj {| pos := laser_pos; hp := laser_dmg p;
                  speed := BASE_LASER_SPEED; img := laser_img p;
                  mask := laser_mask p; offset := IMG_OFFSETS_blueLaser |} in
    let '(r, w) := alloc_sprite laser w in
    let w := set_player w (set_lasers_fired p (group_add r (lasers_fired p))) in
    let w := play (laser_sfx p) w in
    set_player w (set_cooldown_counter (player w) 1)
  else w.

Definition cooldown_cannon (w : World) : World :=
  let p := player w in
  if (cooldown_counter p >=? cooldown_threshold p)%Z then
    set_player w (set_cooldown_counter p 0)
  else if (cooldown_counter p >? 0)%Z then
    set_player w (set_cooldown_counter p (cooldown_counter p + 1))
  else w.

(** ** Missiles *)

Definition fire_missle (targets : list (option ref)) (w : World) : World :=
  let p := player w in
  if ((missile_count p >? 0) && (missile_cooldown_counter p =? 0))%Z then
    let missile_pos :=
      {| vx := vx (pos (base p));
         vy := coord_sub (vy (pos (base p))) (off_y (offset (base p))) |} in
    let lock := Missile_lock (pos (base p)) targets (sprites w) in
    let missile :=
      MissileObj {| pos := missile_pos; hp := 1; speed := speed (base p);
                    img := missile_img p; mask := missile_mask p;
                    offset := IMG_OFFSETS_blueMissile |} lock 90 in
    let '(r, w) := alloc_sprite missile w in
    let w := play (missile_sfx p) w in
    let w :=
      set_player w (set_missiles_fired p (group_add r (missiles_fired p))) in
    let w :=
      set_player w (set_missile_count (player w) (missile_count (player w) - 1)) in
    set_player w (set_missile_cooldown_counter (player w) 1)
  else w.

Definition cooldown_missiles (w : World) : World :=
  let p := player w in
  if (missile_cooldown_counter p >=? missile_cooldown_threshold p)%Z then
    set_player w (set_missile_cooldown_counter p 0)
  else if (missile_cooldown_counter p >? 0)%Z then
    set_player w
      (set_missile_cooldown_counter p (missile_cooldown_counter p + 1))
  else w.

(** ** The glow effect *)

Definition start_glow_effect (now : Z) (w : World) : World :=
  let p := player w in
  set_player w (set_glow_effect_end_time p (now + glow_effect_duration p)).

(** ** The idle animation *)

(** The loop over [original_images.items()] that puts the cached images
    back into the frame list. *)
Fixpoint restore_images (frames : list surf_ref) (cache : list (Z * surf_ref))
    : result (list surf_ref) :=
  match cache with
  | [] => Ok frames
  | (frame_idx, frame_img) :: rest =>
      frames ← py_setitem frames frame_idx frame_img;
      restore_images frames rest
  end.

(** [self.img.copy()]: a new surface with the same pixels. *)
Definition copy_surface (r : surf_ref) (w : World) : result (surf_ref * World) :=
  s ← deref_surface w r;
  Ok (length (surfaces w), set_surfaces w (surfaces w ++ [s])).

(** [self.img.fill(glow_color, special_flags=pygame.BLEND_ADD)]: the
    surface is changed in place, for everyone who holds it. *)
Definition fill_glow (r : surf_ref) (w : World) : result World :=
  s ← deref_surface w r;
  Ok (set_surfaces w (<[r := fill_yellow_add s]> (surfaces w))).

Definition update_idle_animation (now : Z) (w : World) : result World :=
  let p := player w in
  w ← (if (animation_counter p mod 5 =? 0)%Z then
         cf ← py_mod (current_frame p + 1)
                (Z.of_nat (length (idle_animation_frames p)));
         im ← py_getitem (idle_animation_frames p) cf;
         Ok (set_player w
               (set_base (set_current_frame p cf) (set_img (base p) im)))
       else Ok w);
  w ← (let p := player w in
       if (now <? glow_effect_end_time p)%Z then
         w ← (match dict_get (original_images p) (current_frame p) with
              | None =>
                  '(c, w) ← copy_surface (img (base p)) w;
                  Ok (set_player w
                        (set_original_images p
                           (dict_set (original_images p) (current_frame p) c)))
              | Some _ => Ok w
              end);
         fill_glow (img (base (player w))) w
       else
         frames ← restore_images (idle_animation_frames p) (original_images p);
         Ok (set_player w
               (set_original_images (set_idle_animation_frames p frames) [])));
  Ok (set_player w
        (set_animation_counter (player w) (animation_counter (player w) + 1))).

(** ** Hit resolution *)

(** One turn of the loop of [resolve_hits], on the candidate [obj], with
    the kill list built so far. *)
Definition resolve_hits_body (laser : ref) (obj : option ref)
    (st : World * list ref) : result (World * list ref) :=
  let '(w, objs_to_kill) := st in
  match obj with
  | None => Ok st
  | Some o =>
      l ← deref_sprite w laser;
      t ← deref_sprite w o;
      if resolve_collision (sprite_actor l) (sprite_actor t) then
        let hp' := (hp (sprite_actor t) - 1)%Z in
        let w := set_sprites w (<[o := sprite_set_hp t hp']> (sprites w)) in
        let w := play (laser_hit_sfx (player w)) w in
        let '(w, objs_to_kill) :=
          if (hp' <=? 0)%Z then
            (play (explosion_sfx (player w)) (kill o w), objs_to_kill ++ [o])
          else (w, objs_to_kill) in
        let p := player w in
        Ok (set_player w
              (set_lasers_fired p (group_remove laser (lasers_fired p))),
            objs_to_kill)
      else Ok st
  end.

Fixpoint resolve_hits_loop (laser : ref) (objs : list (option ref))
    (st : World * list ref) : result (World * list ref) :=
  match objs with
  | [] => Ok st
  | obj :: rest =>
      st ← resolve_hits_body laser obj st;
      resolve_hits_loop laser rest st
  end.

Definition resolve_hits (laser : ref) (objs : list (option ref)) (w : World)
    : result (World * list ref) :=
  resolve_hits_loop laser objs (w, []).

(** One turn of the loop of [resolve_missiles]. *)
Definition resolve_missiles_body (missile : ref) (obj : option ref)
    (st : World * list ref) : result (World * list ref) :=
  let '(w, objs_to_kill) := st in
  match obj with
  | None => Ok st
  | Some o =>
      m ← deref_sprite w missile;
      t ← deref_sprite w o;
      if resolve_collision (sprite_actor m) (sprite_actor t) then
        let w := play (explosion_sfx (player w)) w in
        let hp' := (hp (sprite_actor t) - 3)%Z in
        let w := set_sprites w (<[o := sprite_set_hp t hp']> (sprites w)) in
        let '(w, objs_to_kill) :=
          if (hp' <=? 0)%Z then (kill o w, objs_to_kill ++ [o])
          else (w, objs_to_kill) in
        let p := player w in
        Ok (set_player w
              (set_missiles_fired p (group_remove missile (missiles_fired p))),
            objs_to_kill)
      else Ok st
  end.

Fixpoint resolve_missiles_loop (missile : ref) (objs : list (option ref))
    (st : World * list ref) : result (World * list ref) :=
  match objs with
  | [] => Ok st
  | obj :: rest =>
      st ← resolve_missiles_body missile obj st;
      resolve_missiles_loop missile rest st
  end.

Definition resolve_missiles (missile : ref) (objs : list (option ref))
    (w : World) : result (World * list ref) :=
  resolve_missiles_loop missile objs (w, []).

(** ** Sequences of calls made by the game loop *)

Inductive Op :=
| OpShoot
| OpCooldownCannon
| OpFireMissle (targets : list (option ref))
| OpCooldownMissiles
| OpResolveHits (laser : ref) (objs : list (option ref))
| OpResolveMissiles (missile : ref) (objs : list (option ref))
| OpUpdateIdleAnimation (now : Z)
| OpStartGlowEffect (now : Z).

Definition step (o : Op) (w : World) : result World :=
  match o with
  | OpShoot => Ok (shoot w)
  | OpCooldownCannon => Ok (cooldown_cannon w)
  | OpFireMissle targets => Ok (fire_missle targets w)
  | OpCooldownMissiles => Ok (cooldown_missiles w)
  | OpResolveHits laser objs => fst <$> resolve_hits laser objs w
  | OpResolveMissiles missile objs => fst <$> resolve_missiles missile objs w
  | OpUpdateIdleAnimation now => update_idle_animation now w
  | OpStartGlowEffect now => Ok (start_glow_effect now w)
  end.

(** The calls are made in order; an exception ends the run. *)
Fixpoint run (ops : list Op) (w : World) : result World :=
  match ops with
  | [] => Ok w
  | o :: rest => w ← step o w; run rest w
  end.

(** The same call made [k] times in a row. *)
Fixpoint calls (k : nat) (f : World -> World) (w : World) : World :=
  match k with
  | O => w
  | S k => f (calls k f w)
  end.

(** A new player in a world that already holds the sprites [sprites0] and
    the surfaces [surfaces0]. *)
Definition new_world (p : Player) (sprites0 : list Sprite)
    (surfaces0 : list Surface) : World :=
  {| player := p; sprites := sprites0; surfaces := surfaces0; events := [] |}.

(** The pixels of the idle frame at position [i] of the frame list. *)
Definition frame_image (w : World) (i : nat) : option Surface :=
  r ← idle_animation_frames (player w) !! i; surfaces w !! r.

(** * Properties *)

Local Open Scope Z_scope.

(** ** What the calls leave alone *)

(** The fields no method assigns after construction. *)
Definition settings (p : Player) : Z * Z * Z * Z * (Sound * Sound * Sound * Sound) :=
  (cooldown_threshold p, missile_cooldown_threshold p, laser_dmg p,
   glow_effect_duration p,
   (missile_sfx p, laser_sfx p, laser_hit_sfx p, explosion_sfx p)).

(** The weapon state: what the animation does not touch. *)
Definition weapons (p : Player) : Z * Z * Z * SpriteGroup * SpriteGroup :=
  (cooldown_counter p, missile_cooldown_counter p, missile_count p,
   lasers_fired p, missiles_fired p).

Lemma group_remove_subseteq r g x : x ∈ group_remove r g -> x ∈ g.
Proof. unfold group_remove. rewrite list_elem_of_filter. tauto. Qed.

Lemma group_remove_not_in r g : r ∉ group_remove r g.
Proof. unfold group_remove. rewrite list_elem_of_filter. tauto. Qed.

Lemma group_add_fresh r g : r ∉ g -> group_add r g = g ++ [r].
Proof. intros H. unfold group_add. rewrite bool_decide_eq_false_2; auto. Qed.

Lemma group_add_elem r g x : x ∈ group_add r g -> x ∈ g \/ x = r.
Proof.
  unfold group_add. case_bool_decide; [tauto|].
  rewrite elem_of_app, list_elem_of_singleton. tauto.
Qed.

(** ** Hit resolution, described candidate by candidate *)

(** The projectile [proj] overlaps the sprite [r]. *)
Definition collides (w : World) (proj r : ref) : bool :=
  match sprites w !! proj, sprites w !! r with
  | Some a, Some b => resolve_collision (sprite_actor a) (sprite_actor b)
  | _, _ => false
  end.

(** How often the sprite [r] stands in the candidate list. *)
Definition occurrences (r : ref) (objs : list (option ref)) : nat :=
  length (filter (λ o, o = Some r) objs).

(** How often [r] is hit while the candidates [objs] are examined. *)
Definition hits (w : World) (proj : ref) (objs : list (option ref)) (r : ref)
    : Z :=
  if collides w proj r then Z.of_nat (occurrences r objs) else 0.

(** Hit points of [r] once the candidates [objs] have been examined, each
    hit taking [dmg]. *)
Definition hp_left (dmg : Z) (w : World) (proj : ref)
    (objs : list (option ref)) (r : ref) (s : Sprite) : Z :=
  hp (sprite_actor s) - dmg * hits w proj objs r.

(** The sprite store once the candidates [objs] have been examined. *)
Definition damaged (dmg : Z) (w : World) (proj : ref)
    (objs : list (option ref)) : list Sprite :=
  imap (λ r s, sprite_set_hp s (hp_left dmg w proj objs r s)) (sprites w).

(** The candidate [o], examined after the candidates [pre], is hit. *)
Definition struck (w : World) (proj : ref) (o : option ref) : bool :=
  match o with
  | Some r => collides w proj r
  | None => false
  end.

(** The candidate [o], examined after the candidates [pre], is hit and is
    left with no hit points. *)
Definition dies (dmg : Z) (w : World) (proj : ref) (pre : list (option ref))
    (o : option ref) : bool :=
  match o with
  | Some r =>
      match sprites w !! r with
      | Some s =>
          collides w proj r && (hp_left dmg w proj (pre ++ [o]) r s <=? 0)
      | None => false
      end
  | None => false
  end.

(** The candidates of [objs] that die, in order, when [objs] is examined
    after [pre]. *)
Fixpoint kills_from (dmg : Z) (w : World) (proj : ref)
    (pre objs : list (option ref)) : list ref :=
  match objs with
  | [] => []
  | o :: rest =>
      (if dies dmg w proj pre o then option_list o else [])
        ++ kills_from dmg w proj (pre ++ [o]) rest
  end.

Lemma occurrences_snoc r pre o :
  occurrences r (pre ++ [o])
  = (occurrences r pre + (if decide (o = Some r) then 1 else 0))%nat.
Proof.
  unfold occurrences. rewrite filter_app, length_app. f_equal.
  rewrite filter_cons, filter_nil. destruct (decide (o = Some r)); reflexivity.
Qed.

Lemma shape_set_hp a v : shape (set_hp a v) = shape a.
Proof. reflexivity. Qed.

Lemma sprite_actor_set_hp s v :
  sprite_actor (sprite_set_hp s v) = set_hp (sprite_actor s) v.
Proof. destruct s; reflexivity. Qed.

Lemma sprite_set_hp_twice s u v :
  sprite_set_hp (sprite_set_hp s u) v = sprite_set_hp s v.
Proof. destruct s; reflexivity. Qed.

Lemma sprite_set_hp_same s : sprite_set_hp s (hp (sprite_actor s)) = s.
Proof. destruct s as [[]|[] ? ?]; reflexivity. Qed.

Lemma damaged_lookup dmg w proj objs r :
  damaged dmg w proj objs !! r
  = (λ s, sprite_set_hp s (hp_left dmg w proj objs r s)) <$> sprites w !! r.
Proof. unfold damaged. apply list_lookup_imap. Qed.

Lemma damaged_length dmg w proj objs :
  length (damaged dmg w proj objs) = length (sprites w).
Proof. unfold damaged. apply length_imap. Qed.

Lemma damaged_nil dmg w proj : damaged dmg w proj [] = sprites w.
Proof.
  apply list_eq. intros r. rewrite damaged_lookup.
  destruct (sprites w !! r) as [s|]; cbn; [|reflexivity].
  unfold hp_left, hits, occurrences. cbn.
  destruct (collides w proj r); rewrite Z.mul_0_r, Z.sub_0_r;
    f_equal; apply sprite_set_hp_same.
Qed.

(** A candidate that is not hit leaves the store as it is. *)
Lemma damaged_snoc_miss dmg w proj pre o :
  struck w proj o = false ->
  damaged dmg w proj (pre ++ [o]) = damaged dmg w proj pre.
Proof.
  intros Hmiss. apply list_eq. intros r. rewrite !damaged_lookup.
  destruct (sprites w !! r) as [s|]; cbn; [|reflexivity].
  do 2 f_equal. unfold hp_left, hits.
  destruct (collides w proj r) eqn:Hc; [|reflexivity].
  rewrite occurrences_snoc. destruct (decide (o = Some r)) as [->|]; [|do 3 f_equal; lia].
  cbn in Hmiss. congruence.
Qed.

(** A candidate that is hit loses [dmg] hit points, whatever it has. *)
Lemma damaged_snoc_hit dmg w proj pre o t :
  collides w proj o = true ->
  damaged dmg w proj pre !! o = Some t ->
  <[o := sprite_set_hp t (hp (sprite_actor t) - dmg)]> (damaged dmg w proj pre)
  = damaged dmg w proj (pre ++ [Some o]).
Proof.
  intros Hc Ht. apply list_eq. intros r.
  destruct (decide (r = o)) as [->|Hne].
  - rewrite list_lookup_insert_eq by (apply lookup_lt_is_Some; eauto).
    rewrite damaged_lookup in *.
    destruct (sprites w !! o) as [s|]; cbn in *; [|discriminate].
    injection Ht as <-. rewrite sprite_set_hp_twice, sprite_actor_set_hp. cbn.
    do 2 f_equal. unfold hp_left, hits. rewrite Hc, occurrences_snoc.
    rewrite decide_True by reflexivity. lia.
  - rewrite list_lookup_insert_ne by congruence. rewrite !damaged_lookup.
    destruct (sprites w !! r) as [s|]; cbn; [|reflexivity].
    do 2 f_equal. unfold hp_left, hits. rewrite occurrences_snoc.
    rewrite decide_False by congruence. destruct (collides w proj r); [do 3 f_equal; lia | reflexivity].
Qed.

(** Hit points play no part in the collision test, so the test gives the
    same answer all along the loop. *)
Lemma collision_damaged dmg w proj objs l t r :
  damaged dmg w proj objs !! proj = Some l ->
  damaged dmg w proj objs !! r = Some t ->
  resolve_collision (sprite_actor l) (sprite_actor t) = collides w proj r.
Proof.
  rewrite !damaged_lookup. unfold collides.
  destruct (sprites w !! proj) as [a|]; [|discriminate].
  destruct (sprites w !! r) as [b|]; [|discriminate].
  cbn. intros [= <-] [= <-]. rewrite !sprite_actor_set_hp. reflexivity.
Qed.

(** The candidates of [objs] that are neither [None] nor dangling. *)
Definition candidates_alive (w : World) (objs : list (option ref)) : Prop :=
  ∀ r, Some r ∈ objs -> is_Some (sprites w !! r).

(** The projectile is a sprite, unless no candidate is there to test. *)
Definition projectile_alive (w : World) (proj : ref)
    (objs : list (option ref)) : Prop :=
  (∃ r, Some r ∈ objs) -> is_Some (sprites w !! proj).

(** The player of [w'] is the player of [w] but for the two groups. *)
Definition groups_only (w w' : World) : Prop :=
  player w'
  = set_missiles_fired
      (set_lasers_fired (player w) (lasers_fired (player w')))
      (missiles_fired (player w'))
  /\ (∀ x, x ∈ lasers_fired (player w') -> x ∈ lasers_fired (player w))
  /\ (∀ x, x ∈ missiles_fired (player w') -> x ∈ missiles_fired (player w))
  /\ surfaces w' = surfaces w.

Lemma groups_only_refl w : groups_only w w.
Proof. unfold groups_only. destruct w as [[] ? ? ?]; cbn. auto. Qed.

Lemma groups_only_trans w1 w2 w3 :
  groups_only w1 w2 -> groups_only w2 w3 -> groups_only w1 w3.
Proof.
  unfold groups_only. intros (E1 & L1 & M1 & S1) (E2 & L2 & M2 & S2).
  repeat split; [|auto|auto|congruence].
  rewrite E2, E1. reflexivity.
Qed.

(** What a laser hit on [r] adds to the log. *)
Definition laser_events (p : Player) (r : ref) (dead : bool) : list Event :=
  Play (laser_hit_sfx p) ::
  (if dead then [Killed r; Play (explosion_sfx p)] else []).

(** What a missile hit on [r] adds to the log. *)
Definition missile_events (p : Player) (r : ref) (dead : bool) : list Event :=
  Play (explosion_sfx p) :: (if dead then [Killed r] else []).

(** The log entries made while [objs] is examined after [pre]. *)
Fixpoint events_from (ev : ref -> bool -> list Event) (dmg : Z) (w : World)
    (proj : ref) (pre objs : list (option ref)) : list Event :=
  match objs with
  | [] => []
  | o :: rest =>
      match o with
      | Some r =>
          if collides w proj r then ev r (dies dmg w proj pre o) else []
      | None => []
      end ++ events_from ev dmg w proj (pre ++ [o]) rest
  end.

Lemma hp_left_snoc_hit dmg w proj pre r s :
  collides w proj r = true ->
  hp_left dmg w proj (pre ++ [Some r]) r s = hp_left dmg w proj pre r s - dmg.
Proof.
  intros Hc. unfold hp_left, hits. rewrite Hc, occurrences_snoc.
  rewrite decide_True by reflexivity. lia.
Qed.

Lemma deref_damaged dmg w0 proj pre w r :
  sprites w = damaged dmg w0 proj pre ->
  is_Some (sprites w0 !! r) ->
  ∃ s, sprites w0 !! r = Some s
       /\ deref_sprite w r
          = Ok (sprite_set_hp s (hp_left dmg w0 proj pre r s)).
Proof.
  intros Hw [s Hs]. exists s. split; [assumption|].
  unfold deref_sprite. rewrite Hw, damaged_lookup, Hs. reflexivity.
Qed.

Lemma resolve_hits_body_spec w0 laser pre o w kills :
  sprites w = damaged 1 w0 laser pre ->
  candidates_alive w0 [o] ->
  projectile_alive w0 laser [o] ->
  ∃ w',
    resolve_hits_body laser o (w, kills)
    = Ok (w', kills ++ (if dies 1 w0 laser pre o then option_list o else []))
    /\ sprites w' = damaged 1 w0 laser (pre ++ [o])
    /\ groups_only w w'
    /\ (struck w0 laser o = true -> laser ∉ lasers_fired (player w'))
    /\ (struck w0 laser o = false -> w' = w)
    /\ events w'
       = events w
         ++ events_from (laser_events (player w)) 1 w0 laser pre [o].
Proof.
  intros Hw Hobj Hlaser. destruct o as [r|].
  2:{ exists w. cbn. rewrite !app_nil_r.
      rewrite damaged_snoc_miss by reflexivity.
      split_and!; auto using groups_only_refl; done. }
  destruct (deref_damaged 1 w0 laser pre w laser Hw) as (l & Hl & Dl).
  { apply Hlaser. exists r. apply list_elem_of_singleton. reflexivity. }
  destruct (deref_damaged 1 w0 laser pre w r Hw) as (t & Ht & Dt).
  { apply Hobj. apply list_elem_of_singleton. reflexivity. }
  assert (Hcol : resolve_collision
            (sprite_actor (sprite_set_hp l (hp_left 1 w0 laser pre laser l)))
            (sprite_actor (sprite_set_hp t (hp_left 1 w0 laser pre r t)))
          = collides w0 laser r).
  { apply (collision_damaged 1 w0 laser pre); rewrite damaged_lookup.
    - rewrite Hl. reflexivity.
    - rewrite Ht. reflexivity. }
  unfold resolve_hits_body. rewrite Dl. cbn [mbind result_bind].
  rewrite Dt. cbn [mbind result_bind]. rewrite Hcol.
  cbn [events_from]. rewrite app_nil_r.
  unfold dies, struck. rewrite Ht.
  destruct (collides w0 laser r) eqn:Hc; cbn [andb].
  2:{ exists w. rewrite !app_nil_r.
      rewrite damaged_snoc_miss by (cbn; assumption).
      split_and!; auto using groups_only_refl; done. }
  rewrite hp_left_snoc_hit by assumption.
  rewrite sprite_actor_set_hp. cbn [hp set_hp].
  assert (Hins :
    <[r := sprite_set_hp (sprite_set_hp t (hp_left 1 w0 laser pre r t))
             (hp_left 1 w0 laser pre r t - 1)]> (sprites w)
    = damaged 1 w0 laser (pre ++ [Some r])).
  { rewrite Hw. rewrite <- (damaged_snoc_hit 1 w0 laser pre r
      (sprite_set_hp t (hp_left 1 w0 laser pre r t))); auto.
    - rewrite sprite_actor_set_hp. reflexivity.
    - rewrite damaged_lookup, Ht. reflexivity. }
  rewrite Hins.
  destruct (hp_left 1 w0 laser pre r t - 1 <=? 0) eqn:Hdead;
    rewrite ?app_nil_r;
    eexists; (split; [reflexivity|]); cbn;
    (split; [reflexivity|]);
    (split; [unfold groups_only; cbn; repeat split;
             try (intros x Hx; repeat apply group_remove_subseteq in Hx; exact Hx);
             destruct w as [[] ? ? ?]; reflexivity|]);
    (split; [intros _; apply group_remove_not_in|]);
    (split; [discriminate|]);
    rewrite <- ?app_assoc; reflexivity.
Qed.

Lemma resolve_missiles_body_spec w0 missile pre o w kills :
  sprites w = damaged 3 w0 missile pre ->
  candidates_alive w0 [o] ->
  projectile_alive w0 missile [o] ->
  ∃ w',
    resolve_missiles_body missile o (w, kills)
    = Ok (w', kills ++ (if dies 3 w0 missile pre o then option_list o else []))
    /\ sprites w' = damaged 3 w0 missile (pre ++ [o])
    /\ groups_only w w'
    /\ (struck w0 missile o = true -> missile ∉ missiles_fired (player w'))
    /\ (struck w0 missile o = false -> w' = w)
    /\ events w'
       = events w
         ++ events_from (missile_events (player w)) 3 w0 missile pre [o].
Proof.
  intros Hw Hobj Hmissile. destruct o as [r|].
  2:{ exists w. cbn. rewrite !app_nil_r.
      rewrite damaged_snoc_miss by reflexivity.
      split_and!; auto using groups_only_refl; done. }
  destruct (deref_damaged 3 w0 missile pre w missile Hw) as (l & Hl & Dl).
  { apply Hmissile. exists r. apply list_elem_of_singleton. reflexivity. }
  destruct (deref_damaged 3 w0 missile pre w r Hw) as (t & Ht & Dt).
  { apply Hobj. apply list_elem_of_singleton. reflexivity. }
  assert (Hcol : resolve_collision
            (sprite_actor (sprite_set_hp l (hp_left 3 w0 missile pre missile l)))
            (sprite_actor (sprite_set_hp t (hp_left 3 w0 missile pre r t)))
          = collides w0 missile r).
  { apply (collision_damaged 3 w0 missile pre); rewrite damaged_lookup.
    - rewrite Hl. reflexivity.
    - rewrite Ht. reflexivity. }
  unfold resolve_missiles_body. rewrite Dl. cbn [mbind result_bind].
  rewrite Dt. cbn [mbind result_bind]. rewrite Hcol.
  cbn [events_from]. rewrite app_nil_r.
  unfold dies, struck. rewrite Ht.
  destruct (collides w0 missile r) eqn:Hc; cbn [andb].
  2:{ exists w. rewrite !app_nil_r.
      rewrite damaged_snoc_miss by (cbn; assumption).
      split_and!; auto using groups_only_refl; done. }
  rewrite hp_left_snoc_hit by assumption.
  rewrite sprite_actor_set_hp. cbn [hp set_hp].
  assert (Hins :
    <[r := sprite_set_hp (sprite_set_hp t (hp_left 3 w0 missile pre r t))
             (hp_left 3 w0 missile pre r t - 3)]> (sprites w)
    = damaged 3 w0 missile (pre ++ [Some r])).
  { rewrite Hw. rewrite <- (damaged_snoc_hit 3 w0 missile pre r
      (sprite_set_hp t (hp_left 3 w0 missile pre r t))); auto.
    - rewrite sprite_actor_set_hp. reflexivity.
    - rewrite damaged_lookup, Ht. reflexivity. }
  cbn [sprites play set_events]. rewrite Hins.
  destruct (hp_left 3 w0 missile pre r t - 3 <=? 0) eqn:Hdead;
    rewrite ?app_nil_r;
    eexists; (split; [reflexivity|]); cbn;
    (split; [reflexivity|]);
    (split; [unfold groups_only; cbn; repeat split;
             try (intros x Hx; repeat apply group_remove_subseteq in Hx; exact Hx);
             destruct w as [[] ? ? ?]; reflexivity|]);
    (split; [intros _; apply group_remove_not_in|]);
    (split; [discriminate|]);
    rewrite <- ?app_assoc; reflexivity.
Qed.


Lemma groups_only_laser_events w w' :
  groups_only w w' -> laser_events (player w') = laser_events (player w).
Proof. intros (E & _). rewrite E. reflexivity. Qed.

Lemma groups_only_missile_events w w' :
  groups_only w w' -> missile_events (player w') = missile_events (player w).
Proof. intros (E & _). rewrite E. reflexivity. Qed.

Lemma candidates_alive_cons w o objs :
  candidates_alive w (o :: objs) ->
  candidates_alive w [o] /\ candidates_alive w objs.
Proof.
  intros H. split; intros r Hr; apply H.
  - apply list_elem_of_singleton in Hr as ->. left.
  - right. assumption.
Qed.

Lemma projectile_alive_cons w proj o objs :
  projectile_alive w proj (o :: objs) ->
  projectile_alive w proj [o] /\ projectile_alive w proj objs.
Proof.
  intros H. split; intros [r Hr]; apply H; exists r.
  - apply list_elem_of_singleton in Hr as ->. left.
  - right. assumption.
Qed.

Lemma resolve_hits_loop_spec w0 laser objs : ∀ pre w kills,
  sprites w = damaged 1 w0 laser pre ->
  candidates_alive w0 objs ->
  projectile_alive w0 laser objs ->
  ∃ w',
    resolve_hits_loop laser objs (w, kills)
    = Ok (w', kills ++ kills_from 1 w0 laser pre objs)
    /\ sprites w' = damaged 1 w0 laser (pre ++ objs)
    /\ groups_only w w'
    /\ ((∃ o, o ∈ objs /\ struck w0 laser o = true) ->
        laser ∉ lasers_fired (player w'))
    /\ ((∀ o, o ∈ objs -> struck w0 laser o = false) -> w' = w)
    /\ events w'
       = events w
         ++ events_from (laser_events (player w)) 1 w0 laser pre objs.
Proof.
  induction objs as [|o objs IH]; intros pre w kills Hw Hobjs Hlaser.
  - exists w. cbn. rewrite !app_nil_r.
    split_and!; auto using groups_only_refl.
    intros (o & Ho & _). inversion Ho.
  - apply candidates_alive_cons in Hobjs as [Ho Hobjs].
    apply projectile_alive_cons in Hlaser as [Hl Hlaser].
    destruct (resolve_hits_body_spec w0 laser pre o w kills Hw Ho Hl)
      as (w1 & R1 & S1 & G1 & L1 & N1 & E1).
    destruct (IH (pre ++ [o]) w1
                (kills ++ (if dies 1 w0 laser pre o then option_list o else []))
                S1 Hobjs Hlaser)
      as (w2 & R2 & S2 & G2 & L2 & N2 & E2).
    exists w2. cbn [resolve_hits_loop kills_from events_from].
    rewrite R1. cbn [mbind result_bind]. rewrite R2.
    rewrite <- !app_assoc in *. cbn [app] in *.
    split_and!; [reflexivity | assumption | eauto using groups_only_trans | | | ].
    + intros (o' & Ho' & Hs). apply elem_of_cons in Ho' as [->|Ho'].
      * intros Hin. apply (L1 Hs). destruct G2 as (_ & Hsub & _). auto.
      * apply L2. eauto.
    + intros Hnone. rewrite N2, N1; auto.
      * apply Hnone. left.
      * intros o' Ho'. apply Hnone. right. assumption.
    + rewrite E2, E1. rewrite (groups_only_laser_events _ _ G1).
      cbn [events_from]. rewrite app_nil_r, <- !app_assoc. reflexivity.
Qed.

Lemma resolve_missiles_loop_spec w0 missile objs : ∀ pre w kills,
  sprites w = damaged 3 w0 missile pre ->
  candidates_alive w0 objs ->
  projectile_alive w0 missile objs ->
  ∃ w',
    resolve_missiles_loop missile objs (w, kills)
    = Ok (w', kills ++ kills_from 3 w0 missile pre objs)
    /\ sprites w' = damaged 3 w0 missile (pre ++ objs)
    /\ groups_only w w'
    /\ ((∃ o, o ∈ objs /\ struck w0 missile o = true) ->
        missile ∉ missiles_fired (player w'))
    /\ ((∀ o, o ∈ objs -> struck w0 missile o = false) -> w' = w)
    /\ events w'
       = events w
         ++ events_from (missile_events (player w)) 3 w0 missile pre objs.
Proof.
  induction objs as [|o objs IH]; intros pre w kills Hw Hobjs Hmissile.
  - exists w. cbn. rewrite !app_nil_r.
    split_and!; auto using groups_only_refl.
    intros (o & Ho & _). inversion Ho.
  - apply candidates_alive_cons in Hobjs as [Ho Hobjs].
    apply projectile_alive_cons in Hmissile as [Hl Hmissile].
    destruct (resolve_missiles_body_spec w0 missile pre o w kills Hw Ho Hl)
      as (w1 & R1 & S1 & G1 & L1 & N1 & E1).
    destruct (IH (pre ++ [o]) w1
                (kills ++ (if dies 3 w0 missile pre o then option_list o else []))
                S1 Hobjs Hmissile)
      as (w2 & R2 & S2 & G2 & L2 & N2 & E2).
    exists w2. cbn [resolve_missiles_loop kills_from events_from].
    rewrite R1. cbn [mbind result_bind]. rewrite R2.
    rewrite <- !app_assoc in *. cbn [app] in *.
    split_and!; [reflexivity | assumption | eauto using groups_only_trans | | | ].
    + intros (o' & Ho' & Hs). apply elem_of_cons in Ho' as [->|Ho'].
      * intros Hin. apply (L1 Hs). destruct G2 as (_ & _ & Hsub & _). auto.
      * apply L2. eauto.
    + intros Hnone. rewrite N2, N1; auto.
      * apply Hnone. left.
      * intros o' Ho'. apply Hnone. right. assumption.
    + rewrite E2, E1. rewrite (groups_only_missile_events _ _ G1).
      cbn [events_from]. rewrite app_nil_r, <- !app_assoc. reflexivity.
Qed.

(** The sprites whose [kill()] the log records, and the sounds it records,
    both oldest first. *)
Definition killed_of (es : list Event) : list ref :=
  omap (λ e, match e with Killed r => Some r | Play _ => None end) es.

Definition played_of (es : list Event) : list Sound :=
  omap (λ e, match e with Play s => Some s | Killed _ => None end) es.

(** The candidates of [objs] that are hit, in order. *)
Definition struck_candidates (w : World) (proj : ref)
    (objs : list (option ref)) : list (option ref) :=
  filter (λ o, struck w proj o = true) objs.

(** Every candidate designates a sprite or is [None]. *)
Definition candidates_ok (w : World) (objs : list (option ref)) : bool :=
  forallb (λ o, match o with
                | Some r => bool_decide (r < length (sprites w))%nat
                | None => true
                end) objs.

(** The projectile designates a sprite, unless all candidates are [None]
    and it is never looked at. *)
Definition projectile_ok (w : World) (proj : ref) (objs : list (option ref))
    : bool :=
  bool_decide (proj < length (sprites w))%nat
  || forallb (λ o, match o with Some _ => false | None => true end) objs.

Lemma candidates_ok_alive w objs :
  candidates_ok w objs = true -> candidates_alive w objs.
Proof.
  unfold candidates_ok, candidates_alive. rewrite forallb_forall.
  intros H r Hr. apply list_elem_of_In, H in Hr.
  apply bool_decide_eq_true in Hr. apply lookup_lt_is_Some. assumption.
Qed.

Lemma projectile_ok_alive w proj objs :
  projectile_ok w proj objs = true -> projectile_alive w proj objs.
Proof.
  unfold projectile_ok, projectile_alive. rewrite orb_true_iff, forallb_forall.
  intros [H|H] [r Hr].
  - apply bool_decide_eq_true in H. apply lookup_lt_is_Some. assumption.
  - apply list_elem_of_In, H in Hr. discriminate.
Qed.

Lemma kills_from_elem dmg w proj objs r : ∀ pre,
  r ∈ kills_from dmg w proj pre objs
  <-> ∃ i s, objs !! i = Some (Some r)
             /\ sprites w !! r = Some s
             /\ collides w proj r = true
             /\ hp (sprite_actor s)
                - dmg * Z.of_nat (occurrences r (pre ++ take (S i) objs)) <= 0.
Proof.
  induction objs as [|o objs IH]; intros pre; cbn [kills_from].
  - split; [intros H; inversion H | intros (i & s & H & _); discriminate].
  - rewrite elem_of_app, IH. split.
    + intros [H|(i & s & Hi & Hs & Hc & Hhp)].
      * unfold dies in H. destruct o as [r'|]; [|inversion H].
        destruct (sprites w !! r') as [s|] eqn:Hs; [|inversion H].
        destruct (collides w proj r' && _) eqn:Hd; [|inversion H].
        apply list_elem_of_singleton in H as ->.
        apply andb_true_iff in Hd as [Hc Hhp]. apply Z.leb_le in Hhp.
        exists 0%nat, s. unfold hp_left, hits in Hhp. rewrite Hc in Hhp.
        split_and!; auto.
      * exists (S i), s. rewrite <- app_assoc in Hhp. auto.
    + intros (i & s & Hi & Hs & Hc & Hhp). destruct i as [|i].
      * left. cbn in Hi. injection Hi as ->.
        change (take 1 (Some r :: objs)) with [Some r] in Hhp.
        unfold dies. rewrite Hs, Hc. unfold hp_left, hits. rewrite Hc.
        cbn [andb]. apply Z.leb_le in Hhp. rewrite Hhp. left.
      * right. exists i, s. rewrite <- app_assoc. auto.
Qed.

Lemma killed_of_app es1 es2 : killed_of (es1 ++ es2) = killed_of es1 ++ killed_of es2.
Proof. apply omap_app. Qed.

Lemma played_of_app es1 es2 : played_of (es1 ++ es2) = played_of es1 ++ played_of es2.
Proof. apply omap_app. Qed.

Lemma dies_struck dmg w proj pre o : dies dmg w proj pre o = true -> struck w proj o = true.
Proof.
  unfold dies, struck. destruct o as [r|]; [|auto].
  destruct (sprites w !! r); [|discriminate].
  intros H. apply andb_true_iff in H. tauto.
Qed.

(** [kill()] is called once for each entry of the kill list, in order. *)
Lemma killed_of_laser_events p dmg w proj objs : ∀ pre,
  killed_of (events_from (laser_events p) dmg w proj pre objs)
  = kills_from dmg w proj pre objs.
Proof.
  induction objs as [|o objs IH]; intros pre; [reflexivity|].
  cbn [events_from kills_from]. rewrite killed_of_app, IH. f_equal.
  destruct (dies dmg w proj pre o) eqn:Hd.
  - apply dies_struck in Hd. destruct o as [r|]; [|discriminate].
    cbn in Hd. rewrite Hd. reflexivity.
  - destruct o as [r|]; [|reflexivity].
    destruct (collides w proj r); reflexivity.
Qed.

Lemma killed_of_missile_events p dmg w proj objs : ∀ pre,
  killed_of (events_from (missile_events p) dmg w proj pre objs)
  = kills_from dmg w proj pre objs.
Proof.
  induction objs as [|o objs IH]; intros pre; [reflexivity|].
  cbn [events_from kills_from]. rewrite killed_of_app, IH. f_equal.
  destruct (dies dmg w proj pre o) eqn:Hd.
  - apply dies_struck in Hd. destruct o as [r|]; [|discriminate].
    cbn in Hd. rewrite Hd. reflexivity.
  - destruct o as [r|]; [|reflexivity].
    destruct (collides w proj r); reflexivity.
Qed.

(** A missile makes one sound for each candidate it hits, the explosion. *)
Lemma played_of_missile_events p dmg w proj objs : ∀ pre,
  played_of (events_from (missile_events p) dmg w proj pre objs)
  = replicate (length (struck_candidates w proj objs)) (explosion_sfx p).
Proof.
  induction objs as [|o objs IH]; intros pre; [reflexivity|].
  cbn [events_from]. rewrite played_of_app, IH.
  unfold struck_candidates. rewrite filter_cons.
  destruct o as [r|]; cbn [struck].
  - destruct (collides w proj r); [|reflexivity].
    rewrite decide_True by reflexivity.
    destruct (dies dmg w proj pre (Some r)); reflexivity.
  - reflexivity.
Qed.

Lemma struck_candidates_elem w proj (objs : list (option ref)) :
  (∃ r, Some r ∈ objs /\ collides w proj r = true)
  -> ∃ o, o ∈ objs /\ struck w proj o = true.
Proof. intros (r & Hr & Hc). exists (Some r). auto. Qed.

(** ** Lasers *)

(** C1. For every laser and every candidate list, [resolve_hits] takes 1 hit
    point from a candidate each time it meets it in the list, not [None] and
    overlapping the laser, also after the laser has left the live
    collection; the laser is out of the live lasers as soon as one candidate
    was hit; the returned list holds, in order, the candidates whose hit
    points were at zero or below right after their hit, and [kill()] was
    called on each of them.  A single target with 1 hit point dies and is
    returned once; with 2 hit points it is left with 1, is not returned, and
    the laser is removed all the same. *)
Theorem resolve_hits_correct (w : World) (laser : ref)
    (objs : list (option ref)) :
  candidates_ok w objs = true ->
  projectile_ok w laser objs = true ->
  ∃ w' kills,
    resolve_hits laser objs w = Ok (w', kills)
    /\ (∀ r s, sprites w !! r = Some s ->
          sprites w' !! r
          = Some (sprite_set_hp s (hp (sprite_actor s) - hits w laser objs r)))
    /\ ((∃ r, Some r ∈ objs /\ collides w laser r = true) ->
        laser ∉ lasers_fired (player w'))
    /\ kills = kills_from 1 w laser [] objs
    /\ (∀ r, r ∈ kills
            <-> ∃ i s, objs !! i = Some (Some r)
                       /\ sprites w !! r = Some s
                       /\ collides w laser r = true
                       /\ hp (sprite_actor s)
                          - Z.of_nat (occurrences r (take (S i) objs)) <= 0)
    /\ (∃ added, events w' = events w ++ added /\ killed_of added = kills)
    /\ (∀ r s, objs = [Some r] -> sprites w !! r = Some s ->
          collides w laser r = true ->
          (hp (sprite_actor s) = 1 ->
             kills = [r]
             /\ sprites w' !! r = Some (sprite_set_hp s 0)
             /\ laser ∉ lasers_fired (player w'))
          /\ (hp (sprite_actor s) = 2 ->
               kills = []
               /\ sprites w' !! r = Some (sprite_set_hp s 1)
               /\ laser ∉ lasers_fired (player w'))).
Proof.
  intros Hobjs Hlaser.
  apply candidates_ok_alive in Hobjs. apply projectile_ok_alive in Hlaser.
  destruct (resolve_hits_loop_spec w laser objs [] w []
              (eq_sym (damaged_nil 1 w laser)) Hobjs Hlaser)
    as (w' & R & S & _ & L & _ & E).
  cbn [app] in R, S.
  assert (Hhp : ∀ r s, sprites w !! r = Some s ->
            sprites w' !! r
            = Some (sprite_set_hp s (hp (sprite_actor s) - hits w laser objs r))).
  { intros r s Hs. rewrite S, damaged_lookup, Hs. cbn. unfold hp_left.
    rewrite Z.mul_1_l. reflexivity. }
  assert (Hrem : (∃ r, Some r ∈ objs /\ collides w laser r = true) ->
                 laser ∉ lasers_fired (player w')).
  { intros H. apply L, struck_candidates_elem, H. }
  exists w', (kills_from 1 w laser [] objs).
  split_and!; try assumption; try reflexivity.
  - intros r. rewrite kills_from_elem. cbn [app].
    split; intros (i & s & Hi & Hs & Hc & Hle); exists i, s;
      rewrite ?Z.mul_1_l in *; auto.
  - eexists. split; [exact E|]. apply killed_of_laser_events.
  - intros r s -> Hs Hc.
    assert (Hh : hits w laser [Some r] r = 1).
    { unfold hits, occurrences. rewrite Hc, filter_cons, filter_nil.
      rewrite decide_True by reflexivity. reflexivity. }
    assert (Hin : ∃ r0, Some r0 ∈ [Some r] /\ collides w laser r0 = true).
    { exists r. split; [left | assumption]. }
    specialize (Hhp r s Hs). rewrite Hh in Hhp.
    cbn [kills_from dies app]. rewrite Hs, Hc. unfold hp_left. rewrite Hh.
    cbn [andb]. split; intros Hone; rewrite Hone in *; cbn; auto.
Qed.

(** ** Missiles hitting *)

(** C3. For every missile and every candidate list, [resolve_missiles]
    takes 3 hit points from a candidate each time it meets it in the list,
    not [None] and overlapping the missile; it plays the explosion sound
    once for each of these hits and no other sound; the missile is out of
    the live missiles as soon as one candidate was hit; the returned list
    holds, in order, the candidates whose hit points were at zero or below
    right after their hit, and [kill()] was called on each of them.  A
    single target with 3 hit points is left with exactly 0, is killed, and
    the explosion sound is played once. *)
Theorem resolve_missiles_correct (w : World) (missile : ref)
    (objs : list (option ref)) :
  candidates_ok w objs = true ->
  projectile_ok w missile objs = true ->
  ∃ w' kills,
    resolve_missiles missile objs w = Ok (w', kills)
    /\ (∀ r s, sprites w !! r = Some s ->
          sprites w' !! r
          = Some (sprite_set_hp s
                    (hp (sprite_actor s) - 3 * hits w missile objs r)))
    /\ ((∃ r, Some r ∈ objs /\ collides w missile r = true) ->
        missile ∉ missiles_fired (player w'))
    /\ kills = kills_from 3 w missile [] objs
    /\ (∀ r, r ∈ kills
            <-> ∃ i s, objs !! i = Some (Some r)
                       /\ sprites w !! r = Some s
                       /\ collides w missile r = true
                       /\ hp (sprite_actor s)
                          - 3 * Z.of_nat (occurrences r (take (S i) objs))
                          <= 0)
    /\ (∃ added,
          events w' = events w ++ added
          /\ killed_of added = kills
          /\ played_of added
             = replicate (length (struck_candidates w missile objs))
                 (explosion_sfx (player w)))
    /\ (∀ r s, objs = [Some r] -> sprites w !! r = Some s ->
          collides w missile r = true ->
          hp (sprite_actor s) = 3 ->
          kills = [r]
          /\ sprites w' !! r = Some (sprite_set_hp s 0)
          /\ events w'
             = events w ++ [Play (explosion_sfx (player w)); Killed r]).
Proof.
  intros Hobjs Hmissile.
  apply candidates_ok_alive in Hobjs. apply projectile_ok_alive in Hmissile.
  destruct (resolve_missiles_loop_spec w missile objs [] w []
              (eq_sym (damaged_nil 3 w missile)) Hobjs Hmissile)
    as (w' & R & S & _ & L & _ & E).
  cbn [app] in R, S.
  assert (Hhp : ∀ r s, sprites w !! r = Some s ->
            sprites w' !! r
            = Some (sprite_set_hp s
                      (hp (sprite_actor s) - 3 * hits w missile objs r))).
  { intros r s Hs. rewrite S, damaged_lookup, Hs. reflexivity. }
  exists w', (kills_from 3 w missile [] objs).
  split_and!; try assumption; try reflexivity.
  - intros H. apply L, struck_candidates_elem, H.
  - intros r. rewrite kills_from_elem. reflexivity.
  - eexists. split; [exact E|]. split.
    + apply killed_of_missile_events.
    + apply played_of_missile_events.
  - intros r s -> Hs Hc Hthree.
    assert (Hh : hits w missile [Some r] r = 1).
    { unfold hits, occurrences. rewrite Hc, filter_cons, filter_nil.
      rewrite decide_True by reflexivity. reflexivity. }
    specialize (Hhp r s Hs). rewrite Hh, Hthree in Hhp.
    rewrite E. cbn [kills_from events_from dies app]. rewrite Hs, Hc.
    unfold hp_left. rewrite Hh, Hthree. cbn. auto.
Qed.

(** ** What holds along every run *)

Lemma resolve_hits_body_frame laser o w k w' k' :
  resolve_hits_body laser o (w, k) = Ok (w', k') ->
  groups_only w w' /\ length (sprites w') = length (sprites w).
Proof.
  unfold resolve_hits_body. destruct o as [r|].
  2:{ intros [= <- <-]. auto using groups_only_refl. }
  intros H. inv_bind H as l Hl. inv_bind H as t Ht.
  destruct (resolve_collision _ _).
  2:{ injection H as <- <-. auto using groups_only_refl. }
  destruct (_ <=? 0); injection H as <- <-; cbn; rewrite length_insert;
    (split; [|reflexivity]); unfold groups_only; cbn; split_and!;
    try (intros x Hx; repeat apply group_remove_subseteq in Hx; exact Hx);
    destruct w as [[] ? ? ?]; reflexivity.
Qed.

Lemma resolve_missiles_body_frame missile o w k w' k' :
  resolve_missiles_body missile o (w, k) = Ok (w', k') ->
  groups_only w w' /\ length (sprites w') = length (sprites w).
Proof.
  unfold resolve_missiles_body. destruct o as [r|].
  2:{ intros [= <- <-]. auto using groups_only_refl. }
  intros H. inv_bind H as l Hl. inv_bind H as t Ht.
  destruct (resolve_collision _ _).
  2:{ injection H as <- <-. auto using groups_only_refl. }
  destruct (_ <=? 0); injection H as <- <-; cbn; rewrite length_insert;
    (split; [|reflexivity]); unfold groups_only; cbn; split_and!;
    try (intros x Hx; repeat apply group_remove_subseteq in Hx; exact Hx);
    destruct w as [[] ? ? ?]; reflexivity.
Qed.

Lemma resolve_hits_loop_frame laser objs : ∀ w k w' k',
  resolve_hits_loop laser objs (w, k) = Ok (w', k') ->
  groups_only w w' /\ length (sprites w') = length (sprites w).
Proof.
  induction objs as [|o objs IH]; intros w k w' k' H; cbn in H.
  - injection H as <- <-. auto using groups_only_refl.
  - inv_bind H as [w1 k1] Ha.
    apply resolve_hits_body_frame in Ha as [G1 L1].
    apply IH in H as [G2 L2]. split; [eauto using groups_only_trans|].
    congruence.
Qed.

Lemma resolve_missiles_loop_frame missile objs : ∀ w k w' k',
  resolve_missiles_loop missile objs (w, k) = Ok (w', k') ->
  groups_only w w' /\ length (sprites w') = length (sprites w).
Proof.
  induction objs as [|o objs IH]; intros w k w' k' H; cbn in H.
  - injection H as <- <-. auto using groups_only_refl.
  - inv_bind H as [w1 k1] Ha.
    apply resolve_missiles_body_frame in Ha as [G1 L1].
    apply IH in H as [G2 L2]. split; [eauto using groups_only_trans|].
    congruence.
Qed.

(** The animation leaves the weapons, the sprites and the log alone. *)
Lemma update_idle_animation_frame now w w' :
  update_idle_animation now w = Ok w' ->
  settings (player w') = settings (player w)
  /\ weapons (player w') = weapons (player w)
  /\ sprites w' = sprites w
  /\ events w' = events w.
Proof.
  unfold update_idle_animation. intros H. inv_bind H as w1 H1.
  inv_bind H as w2 H2. injection H as <-.
  assert (E1 : settings (player w1) = settings (player w)
               /\ weapons (player w1) = weapons (player w)
               /\ sprites w1 = sprites w /\ events w1 = events w).
  { destruct (_ =? 0) in H1.
    - inv_bind H1 as cf Hcf. inv_bind H1 as im Him. injection H1 as <-. auto.
    - injection H1 as <-. auto. }
  assert (E2 : settings (player w2) = settings (player w1)
               /\ weapons (player w2) = weapons (player w1)
               /\ sprites w2 = sprites w1 /\ events w2 = events w1).
  { destruct (now <? _) in H2.
    - inv_bind H2 as w3 H3. unfold fill_glow in H2. inv_bind H2 as s Hs.
      injection H2 as <-. cbn.
      destruct (dict_get _ _) in H3.
      + injection H3 as <-. auto.
      + inv_bind H3 as [c w4] H4. injection H3 as <-.
        unfold copy_surface in H4. inv_bind H4 as s' Hs'.
        injection H4 as <- <-. auto.
    - inv_bind H2 as frames Hf. injection H2 as <-. auto. }
  destruct E1 as (<- & <- & <- & <-). destruct E2 as (<- & <- & <- & <-).
  auto.
Qed.

(** What is true of the player and the stores after any sequence of calls:
    the settings are those of the constructor, no missile is owed, and the
    live projectiles are sprites of the store. *)
Record player_inv (w : World) : Prop := {
  inv_settings :
    cooldown_threshold (player w) = BASE_CANNON_COOLDOWN
    /\ missile_cooldown_threshold (player w) = BASE_CANNON_COOLDOWN
    /\ laser_dmg (player w) = BASE_LASER_DMG
    /\ glow_effect_duration (player w) = 200;
  inv_missile_count : 0 <= missile_count (player w) <= 2;
  inv_lasers_fired :
    ∀ r, r ∈ lasers_fired (player w) -> (r < length (sprites w))%nat;
  inv_missiles_fired :
    ∀ r, r ∈ missiles_fired (player w) -> (r < length (sprites w))%nat
}.

(** Both cooldown counters are between 0 and the threshold. *)
Definition cooldown_inv (w : World) : Prop :=
  0 <= cooldown_counter (player w) <= cooldown_threshold (player w)
  /\ 0 <= missile_cooldown_counter (player w)
     <= missile_cooldown_threshold (player w).

Lemma player_inv_groups_only w w' :
  groups_only w w' -> length (sprites w') = length (sprites w) ->
  player_inv w -> player_inv w'.
Proof.
  intros (E & L & M & _) Hlen [I1 I4 I5 I6].
  constructor; rewrite ?Hlen; auto; rewrite E; cbn; assumption.
Qed.

Lemma cooldown_inv_groups_only w w' :
  groups_only w w' -> cooldown_inv w -> cooldown_inv w'.
Proof. intros (E & _). unfold cooldown_inv. rewrite E. cbn. auto. Qed.

Lemma player_inv_step o w w' :
  step o w = Ok w' -> player_inv w -> player_inv w'.
Proof.
  intros Hstep [(T1 & T2 & T3 & T4) I4 I5 I6].
  destruct o; cbn [step] in Hstep.
  - injection Hstep as <-. unfold shoot.
    destruct (_ =? 0) eqn:E; [|constructor; auto].
    constructor; cbn; rewrite ?length_app; cbn; auto; try lia.
    + intros r Hr. apply group_add_elem in Hr as [Hr| ->]; [apply I5 in Hr|]; lia.
    + intros r Hr. apply I6 in Hr. lia.
  - injection Hstep as <-. unfold cooldown_cannon.
    destruct (_ >=? _) eqn:E1; [constructor; cbn; auto; lia|].
    destruct (_ >? 0) eqn:E2; constructor; cbn; auto; lia.
  - injection Hstep as <-. unfold fire_missle.
    destruct (_ && _) eqn:E; [|constructor; auto].
    apply andb_true_iff in E as [E1 E2].
    constructor; cbn; rewrite ?length_app; cbn; auto; try lia.
    + intros r Hr. apply I5 in Hr. lia.
    + intros r Hr. apply group_add_elem in Hr as [Hr| ->]; [apply I6 in Hr|]; lia.
  - injection Hstep as <-. unfold cooldown_missiles.
    destruct (_ >=? _) eqn:E1; [constructor; cbn; auto; lia|].
    destruct (_ >? 0) eqn:E2; constructor; cbn; auto; lia.
  - unfold resolve_hits in Hstep.
    destruct (resolve_hits_loop laser objs (w, [])) as [[w1 k1]|] eqn:R;
      [|discriminate].
    injection Hstep as <-. apply resolve_hits_loop_frame in R as [G Hlen].
    apply (player_inv_groups_only w); auto. constructor; auto.
  - unfold resolve_missiles in Hstep.
    destruct (resolve_missiles_loop missile objs (w, [])) as [[w1 k1]|] eqn:R;
      [|discriminate].
    injection Hstep as <-. apply resolve_missiles_loop_frame in R as [G Hlen].
    apply (player_inv_groups_only w); auto. constructor; auto.
  - apply update_idle_animation_frame in Hstep as (Hs & Hw & Hsp & _).
    unfold settings in Hs. unfold weapons in Hw.
    injection Hs as S1 S2 S3 S4 _ _ _ _. injection Hw as W1 W2 W3 W4 W5.
    constructor; rewrite ?S1, ?S2, ?S3, ?S4, ?W1, ?W2, ?W3, ?W4, ?W5, ?Hsp;
      auto.
  - injection Hstep as <-. constructor; cbn; auto.
Qed.

Lemma cooldown_inv_step o w w' :
  1 <= BASE_CANNON_COOLDOWN ->
  step o w = Ok w' -> player_inv w -> cooldown_inv w -> cooldown_inv w'.
Proof.
  intros Hpos Hstep [(T1 & T2 & _) _ _ _] (C1 & C2).
  unfold cooldown_inv in *.
  destruct o; cbn [step] in Hstep.
  - injection Hstep as <-. unfold shoot.
    destruct (_ =? 0) eqn:E; cbn; lia.
  - injection Hstep as <-. unfold cooldown_cannon.
    destruct (_ >=? _) eqn:E1; [cbn; lia|].
    destruct (_ >? 0) eqn:E2; cbn; lia.
  - injection Hstep as <-. unfold fire_missle.
    destruct (_ && _) eqn:E; cbn; lia.
  - injection Hstep as <-. unfold cooldown_missiles.
    destruct (_ >=? _) eqn:E1; [cbn; lia|].
    destruct (_ >? 0) eqn:E2; cbn; lia.
  - unfold resolve_hits in Hstep.
    destruct (resolve_hits_loop laser objs (w, [])) as [[w1 k1]|] eqn:R;
      [|discriminate].
    injection Hstep as <-. apply resolve_hits_loop_frame in R as [G _].
    apply (cooldown_inv_groups_only w); unfold cooldown_inv; auto.
  - unfold resolve_missiles in Hstep.
    destruct (resolve_missiles_loop missile objs (w, [])) as [[w1 k1]|] eqn:R;
      [|discriminate].
    injection Hstep as <-. apply resolve_missiles_loop_frame in R as [G _].
    apply (cooldown_inv_groups_only w); unfold cooldown_inv; auto.
  - apply update_idle_animation_frame in Hstep as (Hs & Hw & _).
    unfold settings in Hs. unfold weapons in Hw.
    injection Hs as S1 S2 _ _ _ _ _ _. injection Hw as W1 W2 _ _ _.
    rewrite S1, S2, W1, W2. auto.
  - injection Hstep as <-. cbn. auto.
Qed.

Lemma player_inv_run ops : ∀ w w',
  run ops w = Ok w' -> player_inv w -> player_inv w'.
Proof.
  induction ops as [|o ops IH]; intros w w' H Hinv; cbn in H.
  - injection H as <-. assumption.
  - inv_bind H as w1 H1. eauto using player_inv_step.
Qed.

Lemma cooldown_inv_run ops : ∀ w w',
  1 <= BASE_CANNON_COOLDOWN ->
  run ops w = Ok w' -> player_inv w -> cooldown_inv w -> cooldown_inv w'.
Proof.
  induction ops as [|o ops IH]; intros w w' Hpos H Hinv Hcd; cbn in H.
  - injection H as <-. assumption.
  - inv_bind H as w1 H1. eauto using player_inv_step, cooldown_inv_step.
Qed.

(** The four weapon calls and the glow trigger never raise. *)
Definition total_op (o : Op) : bool :=
  match o with
  | OpShoot | OpCooldownCannon | OpFireMissle _ | OpCooldownMissiles
  | OpStartGlowEffect _ => true
  | _ => false
  end.

Lemma run_total ops : ∀ w,
  forallb total_op ops = true -> ∃ w', run ops w = Ok w'.
Proof.
  induction ops as [|o ops IH]; intros w H; cbn in *; [eauto|].
  apply andb_true_iff in H as [Ho H].
  destruct o; try discriminate; cbn; apply IH; assumption.
Qed.

(** [k] ticks of each cooldown. *)
Lemma cooldown_cannon_ticks w (k : nat) :
  cooldown_counter (player w) = 1 ->
  1 <= cooldown_threshold (player w) ->
  Z.of_nat k <= cooldown_threshold (player w) ->
  cooldown_threshold (player (calls k cooldown_cannon w))
  = cooldown_threshold (player w)
  /\ cooldown_counter (player (calls k cooldown_cannon w))
     = if Z.of_nat k <? cooldown_threshold (player w) then 1 + Z.of_nat k
       else 0.
Proof.
  intros Hone Hthr. induction k as [|k IH]; intros Hk.
  - cbn [calls]. destruct (Z.of_nat 0 <? _) eqn:E; [auto|]. zbool. lia.
  - destruct IH as [IHt IHc]; [lia|]. cbn [calls].
    destruct (Z.of_nat k <? _) eqn:E1; [|zbool; lia].
    unfold cooldown_cannon at 1 3. rewrite IHt, IHc.
    destruct (1 + Z.of_nat k >=? _) eqn:E2.
    + destruct (Z.of_nat (S k) <? _) eqn:E3; cbn; auto. zbool. lia.
    + destruct (1 + Z.of_nat k >? 0) eqn:E4; [|zbool; lia].
      destruct (Z.of_nat (S k) <? _) eqn:E3; cbn; split; auto; zbool; lia.
Qed.

Lemma cooldown_missiles_ticks w (k : nat) :
  missile_cooldown_counter (player w) = 1 ->
  1 <= missile_cooldown_threshold (player w) ->
  Z.of_nat k <= missile_cooldown_threshold (player w) ->
  missile_cooldown_threshold (player (calls k cooldown_missiles w))
  = missile_cooldown_threshold (player w)
  /\ missile_cooldown_counter (player (calls k cooldown_missiles w))
     = if Z.of_nat k <? missile_cooldown_threshold (player w)
       then 1 + Z.of_nat k else 0.
Proof.
  intros Hone Hthr. induction k as [|k IH]; intros Hk.
  - cbn [calls]. destruct (Z.of_nat 0 <? _) eqn:E; [auto|]. zbool. lia.
  - destruct IH as [IHt IHc]; [lia|]. cbn [calls].
    destruct (Z.of_nat k <? _) eqn:E1; [|zbool; lia].
    unfold cooldown_missiles at 1 3. rewrite IHt, IHc.
    destruct (1 + Z.of_nat k >=? _) eqn:E2.
    + destruct (Z.of_nat (S k) <? _) eqn:E3; cbn; auto. zbool. lia.
    + destruct (1 + Z.of_nat k >? 0) eqn:E4; [|zbool; lia].
      destruct (Z.of_nat (S k) <? _) eqn:E3; cbn; split; auto; zbool; lia.
Qed.

(** ** The idle animation without glow *)

(** The calls [update_idle_animation] made at the clock readings [times]. *)
Definition run_updates (times : list Z) (w : World) : result World :=
  run (map OpUpdateIdleAnimation times) w.

(** Every key of the restore cache is an index of the frame list. *)
Definition cache_ok (p : Player) : bool :=
  let n := Z.of_nat (length (idle_animation_frames p)) in
  forallb (λ kv, (- n <=? fst kv) && (fst kv <? n)) (original_images p).

(** No glow is on at any of the clock readings. *)
Definition glow_over (p : Player) (times : list Z) : bool :=
  forallb (λ t, glow_effect_end_time p <=? t) times.

Lemma py_index_in_range {A} (l : list A) (i : Z) :
  - Z.of_nat (length l) <= i < Z.of_nat (length l) ->
  ∃ k, py_index l i = Ok k.
Proof.
  intros H. unfold py_index. destruct (_ && _) eqn:E1; [eauto|].
  destruct ((- _ <=? i) && _) eqn:E2; [eauto|].
  apply andb_false_iff in E1 as [E1|E1], E2 as [E2|E2]; zbool; lia.
Qed.

Lemma py_getitem_nonneg {A} (l : list A) (i : Z) :
  0 <= i < Z.of_nat (length l) ->
  ∃ x, py_getitem l i = Ok x /\ l !! Z.to_nat i = Some x.
Proof.
  intros H. unfold py_getitem, py_index.
  destruct (_ && _) eqn:E1.
  2:{ apply andb_false_iff in E1 as [E1|E1]; zbool; lia. }
  cbn. destruct (l !! Z.to_nat i) as [x|] eqn:E; [eauto|].
  apply lookup_ge_None in E. lia.
Qed.

Lemma restore_images_ok cache : ∀ frames,
  forallb (λ kv : Z * nat,
             (- Z.of_nat (length frames) <=? fst kv)
             && (fst kv <? Z.of_nat (length frames))) cache = true ->
  ∃ frames', restore_images frames cache = Ok frames'
             /\ length frames' = length frames.
Proof.
  induction cache as [|[k v] cache IH]; intros frames H; cbn in *; [eauto|].
  apply andb_true_iff in H as [Hk H]. apply andb_true_iff in Hk as [K1 K2].
  zbool. destruct (py_index_in_range frames k) as [i Hi]; [lia|].
  unfold py_setitem. rewrite Hi. cbn.
  destruct (IH (<[i:=v]> frames)) as (frames' & R & L).
  - rewrite length_insert. assumption.
  - exists frames'. rewrite length_insert in L. auto.
Qed.

(** One call when no glow is on: it succeeds, counts the call, and on a
    count that is a multiple of 5 goes to the next frame and shows it. *)
Lemma update_idle_animation_plain now w :
  let p := player w in
  let n := Z.of_nat (length (idle_animation_frames p)) in
  0 < n ->
  cache_ok p = true ->
  glow_effect_end_time p <= now ->
  ∃ w',
    update_idle_animation now w = Ok w'
    /\ animation_counter (player w') = animation_counter p + 1
    /\ current_frame (player w')
       = (if animation_counter p mod 5 =? 0 then (current_frame p + 1) mod n
          else current_frame p)
    /\ (if animation_counter p mod 5 =? 0
        then idle_animation_frames p !! Z.to_nat (current_frame (player w'))
             = Some (img (base (player w')))
        else img (base (player w')) = img (base p))
    /\ length (idle_animation_frames (player w'))
       = length (idle_animation_frames p)
    /\ original_images (player w') = []
    /\ glow_effect_end_time (player w') = glow_effect_end_time p
    /\ (original_images p = [] ->
        idle_animation_frames (player w') = idle_animation_frames p).
Proof.
  intros p n Hn Hcache Hglow. subst p n. unfold update_idle_animation.
  destruct (restore_images_ok (original_images (player w))
              (idle_animation_frames (player w)) Hcache)
    as (frames' & Hrest & Hlen).
  assert (Hnil : original_images (player w) = [] ->
                 frames' = idle_animation_frames (player w)).
  { intros E. rewrite E in Hrest. cbn in Hrest. congruence. }
  destruct (animation_counter (player w) mod 5 =? 0) eqn:Hc.
  - unfold py_mod.
    destruct (Z.of_nat (length (idle_animation_frames (player w))) =? 0)
      eqn:Hz; [zbool; lia|].
    cbn [mbind result_bind].
    destruct (py_getitem_nonneg (idle_animation_frames (player w))
                ((current_frame (player w) + 1)
                 mod Z.of_nat (length (idle_animation_frames (player w)))))
      as (im & Him & Hlook).
    { apply Z.mod_pos_bound. assumption. }
    rewrite Him. cbn.
    destruct (now <? glow_effect_end_time (player w)) eqn:Hg; [zbool; lia|].
    rewrite Hrest. cbn. eexists. split; [reflexivity|]. cbn. auto 10.
  - cbn [mbind result_bind].
    destruct (now <? glow_effect_end_time (player w)) eqn:Hg; [zbool; lia|].
    rewrite Hrest. cbn. eexists. split; [reflexivity|]. cbn. auto 10.
Qed.

(** Every call that returns has counted itself, glow or not. *)
Lemma update_idle_animation_counts now w w' :
  update_idle_animation now w = Ok w' ->
  animation_counter (player w') = animation_counter (player w) + 1.
Proof.
  unfold update_idle_animation. intros H. inv_bind H as w1 H1.
  inv_bind H as w2 H2. injection H as <-. cbn. f_equal.
  assert (E1 : animation_counter (player w1) = animation_counter (player w)).
  { destruct (_ =? 0) in H1.
    - inv_bind H1 as cf Hcf. inv_bind H1 as im Him. injection H1 as <-. auto.
    - injection H1 as <-. auto. }
  rewrite <- E1.
  destruct (now <? _) in H2.
  - inv_bind H2 as w3 H3. unfold fill_glow in H2. inv_bind H2 as s Hs.
    injection H2 as <-. cbn.
    destruct (dict_get _ _) in H3.
    + injection H3 as <-. auto.
    + inv_bind H3 as [c w4] H4. injection H3 as <-.
      unfold copy_surface in H4. inv_bind H4 as s' Hs'.
      injection H4 as <- <-. auto.
  - inv_bind H2 as frames Hf. injection H2 as <-. auto.
Qed.

(** A state with [n] frames, a restorable cache and the glow ending at [g]. *)
Definition plain_ok (n g : Z) (w : World) : Prop :=
  Z.of_nat (length (idle_animation_frames (player w))) = n
  /\ 0 < n
  /\ cache_ok (player w) = true
  /\ glow_effect_end_time (player w) = g.

Lemma plain_ok_intro w :
  idle_animation_frames (player w) ≠ [] ->
  cache_ok (player w) = true ->
  plain_ok (Z.of_nat (length (idle_animation_frames (player w))))
    (glow_effect_end_time (player w)) w.
Proof.
  intros Hframes Hcache. unfold plain_ok. split_and!; auto.
  destruct (idle_animation_frames (player w)); [done|]. cbn [length]. lia.
Qed.

Lemma plain_step n g w now :
  plain_ok n g w -> g <= now ->
  ∃ w',
    update_idle_animation now w = Ok w'
    /\ plain_ok n g w'
    /\ animation_counter (player w') = animation_counter (player w) + 1
    /\ current_frame (player w')
       = (if animation_counter (player w) mod 5 =? 0
          then (current_frame (player w) + 1) mod n
          else current_frame (player w))
    /\ (if animation_counter (player w) mod 5 =? 0
        then idle_animation_frames (player w)
               !! Z.to_nat (current_frame (player w'))
             = Some (img (base (player w')))
        else img (base (player w')) = img (base (player w))).
Proof.
  intros (Hn & Hpos & Hcache & Hg) Hnow. subst n g.
  destruct (update_idle_animation_plain now w Hpos Hcache Hnow)
    as (w' & R & C & F & I & L & O & G & _).
  exists w'. split_and!; auto.
  unfold plain_ok, cache_ok. rewrite L, O, G. auto.
Qed.

(** Of five counts in a row, one is a multiple of 5. *)
Lemma one_in_five (c : Z) :
  (c mod 5 = 0 /\ (c + 1) mod 5 ≠ 0 /\ (c + 2) mod 5 ≠ 0
   /\ (c + 3) mod 5 ≠ 0 /\ (c + 4) mod 5 ≠ 0)
  \/ (c mod 5 ≠ 0 /\ (c + 1) mod 5 = 0 /\ (c + 2) mod 5 ≠ 0
      /\ (c + 3) mod 5 ≠ 0 /\ (c + 4) mod 5 ≠ 0)
  \/ (c mod 5 ≠ 0 /\ (c + 1) mod 5 ≠ 0 /\ (c + 2) mod 5 = 0
      /\ (c + 3) mod 5 ≠ 0 /\ (c + 4) mod 5 ≠ 0)
  \/ (c mod 5 ≠ 0 /\ (c + 1) mod 5 ≠ 0 /\ (c + 2) mod 5 ≠ 0
      /\ (c + 3) mod 5 = 0 /\ (c + 4) mod 5 ≠ 0)
  \/ (c mod 5 ≠ 0 /\ (c + 1) mod 5 ≠ 0 /\ (c + 2) mod 5 ≠ 0
      /\ (c + 3) mod 5 ≠ 0 /\ (c + 4) mod 5 = 0).
Proof. Z.to_euclidean_division_equations. lia. Qed.

(** C6. From every state with at least one idle frame, a cache that can be
    restored and no glow on, five calls of [update_idle_animation] in a row
    all return; together they move [current_frame] forward by exactly 1
    modulo the number of frames and the counter by 5.  The move is made by
    the one call that finds the counter at a multiple of 5, which also
    makes the frame at the new index the displayed image; the other calls
    leave frame and image alone.  Every call that returns, with or without
    glow, adds exactly 1 to the counter. *)
Theorem idle_animation_five_calls (w : World) (times : list Z) :
  let p := player w in
  let n := Z.of_nat (length (idle_animation_frames p)) in
  idle_animation_frames p ≠ [] ->
  cache_ok p = true ->
  length times = 5%nat ->
  glow_over p times = true ->
  (∃ w5, run_updates times w = Ok w5
         /\ current_frame (player w5) = (current_frame p + 1) mod n
         /\ animation_counter (player w5) = animation_counter p + 5)
  /\ (∀ (k : nat) (t : Z), times !! k = Some t ->
        ∃ wk wk',
          run_updates (take k times) w = Ok wk
          /\ update_idle_animation t wk = Ok wk'
          /\ animation_counter (player wk) = animation_counter p + Z.of_nat k
          /\ animation_counter (player wk')
             = animation_counter (player wk) + 1
          /\ (if animation_counter (player wk) mod 5 =? 0
              then current_frame (player wk') = (current_frame p + 1) mod n
                   /\ idle_animation_frames (player wk)
                        !! Z.to_nat (current_frame (player wk'))
                      = Some (img (base (player wk')))
              else current_frame (player wk') = current_frame (player wk)
                   /\ img (base (player wk')) = img (base (player wk))))
  /\ (∀ now w1 w2, update_idle_animation now w1 = Ok w2 ->
        animation_counter (player w2) = animation_counter (player w1) + 1).
Proof.
  intros p n Hframes Hcache Hlen Hglow. subst p.
  split_and!; [| |apply update_idle_animation_counts].
  all: destruct times as [|t1 [|t2 [|t3 [|t4 [|t5 [|]]]]]]; try discriminate.
  all: clear Hlen; cbn in Hglow.
  all: repeat (apply andb_true_iff in Hglow as [? Hglow]); zbool.
  all: pose proof (plain_ok_intro w Hframes Hcache) as Hok; fold n in Hok.
  all: destruct (plain_step _ _ w t1 Hok) as (w1 & R1 & K1 & C1 & F1 & I1);
         [assumption|].
  all: destruct (plain_step _ _ w1 t2 K1) as (w2 & R2 & K2 & C2 & F2 & I2);
         [assumption|].
  all: destruct (plain_step _ _ w2 t3 K2) as (w3 & R3 & K3 & C3 & F3 & I3);
         [assumption|].
  all: destruct (plain_step _ _ w3 t4 K3) as (w4 & R4 & K4 & C4 & F4 & I4);
         [assumption|].
  all: destruct (plain_step _ _ w4 t5 K4) as (w5 & R5 & K5 & C5 & F5 & I5);
         [assumption|].
  all: clear Hok K1 K2 K3 K4 K5.
  all: set (c := animation_counter (player w)) in *.
  all: assert (E1 : animation_counter (player w1) = c + 1) by lia.
  all: assert (E2 : animation_counter (player w2) = c + 2) by lia.
  all: assert (E3 : animation_counter (player w3) = c + 3) by lia.
  all: assert (E4 : animation_counter (player w4) = c + 4) by lia.
  all: clear C1 C2 C3 C4.
  all: rewrite ?E1, ?E2, ?E3, ?E4 in *.
  all: destruct (one_in_five c)
         as [(M0 & M1 & M2 & M3 & M4)|[(M0 & M1 & M2 & M3 & M4)
            |[(M0 & M1 & M2 & M3 & M4)|[(M0 & M1 & M2 & M3 & M4)
            |(M0 & M1 & M2 & M3 & M4)]]]].
  all: repeat match goal with
              | H : _ mod 5 ≠ 0 |- _ => apply Z.eqb_neq in H
              | H : _ mod 5 = 0 |- _ => apply Z.eqb_eq in H
              end.
  all: rewrite ?M0, ?M1, ?M2, ?M3, ?M4 in *.
  all: rewrite F1 in *; rewrite F2 in *; rewrite F3 in *; rewrite F4 in *;
       try rewrite F5 in *.
  1-5: exists w5; unfold run_updates; cbn [map run step];
       rewrite R1; cbn [mbind result_bind]; rewrite R2; cbn [mbind result_bind];
       rewrite R3; cbn [mbind result_bind]; rewrite R4; cbn [mbind result_bind];
       rewrite R5; cbn [mbind result_bind]; split_and!; auto; lia.
  all: intros k t Hk.
  all: destruct k as [|[|[|[|[|k]]]]]; cbn in Hk; try discriminate.
  all: injection Hk as <-.
  all: unfold run_updates; cbn [take map run step].
  all: rewrite ?R1; cbn [mbind result_bind]; rewrite ?R2; cbn [mbind result_bind];
       rewrite ?R3; cbn [mbind result_bind]; rewrite ?R4; cbn [mbind result_bind].
  all: eexists; eexists; (split; [reflexivity|]); (split; [eassumption|]).
  all: subst c; rewrite ?E1, ?E2, ?E3, ?E4, ?M0, ?M1, ?M2, ?M3, ?M4.
  all: rewrite ?F1, ?F2, ?F3, ?F4, ?F5.
  all: split_and!; auto; try lia.
Qed.

(** ** The glow cache *)

Lemma dict_set_absent {V} (d : list (Z * V)) (k : Z) (v : V) :
  dict_get d k = None -> dict_set d k v = d ++ [(k, v)].
Proof.
  induction d as [|[k' v'] d IH]; cbn; [reflexivity|].
  destruct (k' =? k); [discriminate|]. intros H. rewrite IH; auto.
Qed.

(** A call after the glow has ended leaves the cache empty. *)
Lemma update_idle_animation_clears_cache now w w' :
  update_idle_animation now w = Ok w' ->
  glow_effect_end_time (player w) <= now ->
  original_images (player w') = [].
Proof.
  unfold update_idle_animation. intros H Hover. inv_bind H as w1 H1.
  inv_bind H as w2 H2. injection H as <-. cbn.
  assert (E1 : glow_effect_end_time (player w1) = glow_effect_end_time (player w)).
  { destruct (_ =? 0) in H1.
    - inv_bind H1 as cf Hcf. inv_bind H1 as im Him. injection H1 as <-. auto.
    - injection H1 as <-. auto. }
  rewrite E1 in H2.
  destruct (now <? _) eqn:E in H2; [zbool; lia|].
  inv_bind H2 as frames Hf. injection H2 as <-. reflexivity.
Qed.

(** A call while the glow is on keeps every cached image; it adds one
    entry, a copy of the displayed image for the current frame index, only
    when that index has none, and never touches the frame list. *)
Lemma update_idle_animation_caches_once now w w' :
  update_idle_animation now w = Ok w' ->
  now < glow_effect_end_time (player w) ->
  idle_animation_frames (player w') = idle_animation_frames (player w)
  /\ match dict_get (original_images (player w))
             (current_frame (player w')) with
     | Some _ => original_images (player w') = original_images (player w)
     | None =>
         original_images (player w')
         = original_images (player w)
           ++ [(current_frame (player w'), length (surfaces w))]
     end.
Proof.
  unfold update_idle_animation. intros H Hon. inv_bind H as w1 H1.
  inv_bind H as w2 H2. injection H as <-. cbn.
  assert (E1 : glow_effect_end_time (player w1) = glow_effect_end_time (player w)
               /\ idle_animation_frames (player w1)
                  = idle_animation_frames (player w)
               /\ original_images (player w1) = original_images (player w)
               /\ surfaces w1 = surfaces w).
  { destruct (_ =? 0) in H1.
    - inv_bind H1 as cf Hcf. inv_bind H1 as im Him. injection H1 as <-. auto.
    - injection H1 as <-. auto. }
  destruct E1 as (Eg & Ef & Eo & Es). rewrite Eg in H2.
  destruct (now <? _) eqn:E in H2; [|zbool; lia].
  inv_bind H2 as w3 H3. unfold fill_glow in H2. inv_bind H2 as s Hs.
  injection H2 as <-. cbn. rewrite <- Ef, <- Eo, <- Es.
  destruct (dict_get _ _) eqn:Hget in H3.
  - injection H3 as <-. rewrite Hget. auto.
  - inv_bind H3 as [c w4] H4. injection H3 as <-.
    unfold copy_surface in H4. inv_bind H4 as s' Hs'.
    injection H4 as <- <-. cbn. rewrite Hget.
    rewrite dict_set_absent by assumption. auto.
Qed.

(** ** The cache can always be restored *)

(** The frame list has [n] entries, the frame index is one of them, and so
    is every key of the cache. *)
Definition animation_inv (n : Z) (w : World) : Prop :=
  Z.of_nat (length (idle_animation_frames (player w))) = n
  /\ 0 <= current_frame (player w) < n
  /\ cache_ok (player w) = true.

Lemma restore_images_length cache : ∀ frames frames',
  restore_images frames cache = Ok frames' -> length frames' = length frames.
Proof.
  induction cache as [|[k v] cache IH]; intros frames frames' H; cbn in H.
  - congruence.
  - inv_bind H as f1 H1. unfold py_setitem in H1. inv_bind H1 as i Hi.
    injection H1 as <-. apply IH in H. rewrite length_insert in H. assumption.
Qed.

(** Where a call that returns leaves the frame index. *)
Lemma update_idle_animation_index now w w' :
  update_idle_animation now w = Ok w' ->
  current_frame (player w')
  = if animation_counter (player w) mod 5 =? 0
    then (current_frame (player w) + 1)
         mod Z.of_nat (length (idle_animation_frames (player w)))
    else current_frame (player w).
Proof.
  unfold update_idle_animation. intros H. inv_bind H as w1 H1.
  inv_bind H as w2 H2. injection H as <-. cbn.
  assert (E2 : current_frame (player w2) = current_frame (player w1)).
  { destruct (now <? _) in H2.
    - inv_bind H2 as w3 H3. unfold fill_glow in H2. inv_bind H2 as s Hs.
      injection H2 as <-. cbn.
      destruct (dict_get _ _) in H3.
      + injection H3 as <-. auto.
      + inv_bind H3 as [c w4] H4. injection H3 as <-.
        unfold copy_surface in H4. inv_bind H4 as s' Hs'.
        injection H4 as <- <-. auto.
    - inv_bind H2 as frames Hf. injection H2 as <-. auto. }
  rewrite E2. destruct (_ =? 0) in *.
  - inv_bind H1 as cf Hcf. inv_bind H1 as im Him. injection H1 as <-. cbn.
    unfold py_mod in Hcf. destruct (_ =? 0) in Hcf; congruence.
  - injection H1 as <-. reflexivity.
Qed.

Lemma update_idle_animation_frames_length now w w' :
  update_idle_animation now w = Ok w' ->
  length (idle_animation_frames (player w'))
  = length (idle_animation_frames (player w)).
Proof.
  intros H. destruct (Z.ltb_spec now (glow_effect_end_time (player w))) as [Hon|Hoff].
  - apply update_idle_animation_caches_once in H as [-> _]; auto.
  - revert H. unfold update_idle_animation. intros H. inv_bind H as w1 H1.
    inv_bind H as w2 H2. injection H as <-. cbn.
    assert (E1 : glow_effect_end_time (player w1)
                 = glow_effect_end_time (player w)
                 /\ idle_animation_frames (player w1)
                    = idle_animation_frames (player w)).
    { destruct (_ =? 0) in H1.
      - inv_bind H1 as cf Hcf. inv_bind H1 as im Him. injection H1 as <-. auto.
      - injection H1 as <-. auto. }
    destruct E1 as [Eg Ef]. rewrite Eg in H2.
    destruct (now <? _) eqn:E in H2; [zbool; lia|].
    inv_bind H2 as frames Hf. injection H2 as <-. cbn.
    apply restore_images_length in Hf. congruence.
Qed.

Lemma animation_inv_update n now w w' :
  0 < n ->
  update_idle_animation now w = Ok w' -> animation_inv n w -> animation_inv n w'.
Proof.
  intros Hn H (Hlen & Hcf & Hcache).
  pose proof (update_idle_animation_index now w w' H) as Hidx.
  pose proof (update_idle_animation_frames_length now w w' H) as Hl.
  rewrite Hlen in Hidx.
  assert (Hcf' : 0 <= current_frame (player w') < n).
  { rewrite Hidx. destruct (_ =? 0); [apply Z.mod_pos_bound|]; assumption. }
  unfold animation_inv. rewrite Hl. split_and!; try tauto.
  destruct (Z.ltb_spec now (glow_effect_end_time (player w))) as [Hon|Hoff].
  - apply update_idle_animation_caches_once in H as [Hf Hc]; [|assumption].
    unfold cache_ok in *. rewrite Hf, Hlen in *.
    destruct (dict_get _ _); rewrite Hc; [assumption|].
    rewrite forallb_app, Hcache. cbn.
    destruct (- n <=? _) eqn:E1, (_ <? n) eqn:E2; zbool; auto; lia.
  - apply update_idle_animation_clears_cache in H; [|assumption].
    unfold cache_ok. rewrite H. reflexivity.
Qed.

Lemma animation_inv_groups_only n w w' :
  groups_only w w' -> animation_inv n w -> animation_inv n w'.
Proof.
  intros (E & _). unfold animation_inv, cache_ok. rewrite E. cbn. auto.
Qed.

Lemma animation_inv_step n o w w' :
  0 < n -> step o w = Ok w' -> animation_inv n w -> animation_inv n w'.
Proof.
  intros Hn Hstep Hinv. destruct o; cbn [step] in Hstep.
  - injection Hstep as <-. unfold shoot. destruct (_ =? 0); auto.
  - injection Hstep as <-. unfold cooldown_cannon.
    destruct (_ >=? _); [|destruct (_ >? 0)]; auto.
  - injection Hstep as <-. unfold fire_missle. destruct (_ && _); auto.
  - injection Hstep as <-. unfold cooldown_missiles.
    destruct (_ >=? _); [|destruct (_ >? 0)]; auto.
  - unfold resolve_hits in Hstep.
    destruct (resolve_hits_loop laser objs (w, [])) as [[w1 k1]|] eqn:R;
      [|discriminate].
    injection Hstep as <-. apply resolve_hits_loop_frame in R as [G _].
    eauto using animation_inv_groups_only.
  - unfold resolve_missiles in Hstep.
    destruct (resolve_missiles_loop missile objs (w, [])) as [[w1 k1]|] eqn:R;
      [|discriminate].
    injection Hstep as <-. apply resolve_missiles_loop_frame in R as [G _].
    eauto using animation_inv_groups_only.
  - eauto using animation_inv_update.
  - injection Hstep as <-. auto.
Qed.

Lemma animation_inv_run n ops : ∀ w w',
  0 < n -> run ops w = Ok w' -> animation_inv n w -> animation_inv n w'.
Proof.
  induction ops as [|o ops IH]; intros w w' Hn H Hinv; cbn in H.
  - injection H as <-. assumption.
  - inv_bind H as w1 H1. eauto using animation_inv_step.
Qed.

(** The state of the animation [c] calls after construction, when no glow
    was ever started: the frame list [frames] is untouched and the frame
    index is the number of fives begun, modulo the number of frames. *)
Definition cycling (frames : list surf_ref) (c : Z) (w : World) : Prop :=
  let p := player w in
  let n := Z.of_nat (length frames) in
  idle_animation_frames p = frames
  /\ original_images p = []
  /\ glow_effect_end_time p = 0
  /\ animation_counter p = c
  /\ current_frame p = ((c + 4) / 5) mod n
  /\ (1 <= c -> frames !! Z.to_nat (current_frame p) = Some (img (base p))).

Lemma fives_begun (c n : Z) :
  0 <= c -> 0 < n ->
  ((c + 1 + 4) / 5) mod n
  = if c mod 5 =? 0 then (((c + 4) / 5) mod n + 1) mod n
    else ((c + 4) / 5) mod n.
Proof.
  intros Hc Hn. destruct (c mod 5 =? 0) eqn:E; zbool.
  - rewrite Zplus_mod_idemp_l. f_equal.
    Z.to_euclidean_division_equations. lia.
  - f_equal. Z.to_euclidean_division_equations. lia.
Qed.

Lemma cycling_step frames c w now :
  frames ≠ [] -> 0 <= c -> 0 <= now ->
  cycling frames c w ->
  ∃ w', update_idle_animation now w = Ok w'
        /\ cycling frames (c + 1) w'
        /\ current_frame (player w')
           = if c mod 5 =? 0
             then (current_frame (player w) + 1)
                  mod Z.of_nat (length frames)
             else current_frame (player w).
Proof.
  intros Hne Hc Hnow (Hf & Ho & Hg & Hcnt & Hcf & Himg).
  assert (Hn : 0 < Z.of_nat (length (idle_animation_frames (player w)))).
  { rewrite Hf. destruct frames; [done|]. cbn [length]. lia. }
  destruct (update_idle_animation_plain now w Hn) as
    (w' & R & C' & F' & I' & L' & O' & G' & N').
  { unfold cache_ok. rewrite Ho. reflexivity. }
  { lia. }
  specialize (N' Ho). rewrite Hf in *. rewrite Hcnt in *.
  exists w'. split; [assumption|]. split; [|assumption].
  unfold cycling. rewrite N', O', G', Hg, C'.
  split_and!; auto.
  - rewrite fives_begun by lia. rewrite F', Hcf. reflexivity.
  - intros _. destruct (c mod 5 =? 0) eqn:E; [assumption|].
    rewrite F', I'. apply Himg. zbool.
    destruct (decide (c = 0)) as [->|]; [done|lia].
Qed.

Lemma cycling_run frames times : ∀ c w,
  frames ≠ [] -> 0 <= c ->
  forallb (λ t, 0 <=? t) times = true ->
  cycling frames c w ->
  ∃ w', run_updates times w = Ok w'
        /\ cycling frames (c + Z.of_nat (length times)) w'.
Proof.
  induction times as [|t times IH]; intros c w Hne Hc Ht Hcy.
  - exists w. split; [reflexivity|]. cbn [length]. rewrite Z.add_0_r. assumption.
  - cbn in Ht. apply andb_true_iff in Ht as [Ht0 Ht]. zbool.
    destruct (cycling_step frames c w t Hne Hc Ht0 Hcy) as (w1 & R1 & Hcy1 & _).
    destruct (IH (c + 1) w1 Hne ltac:(lia) Ht Hcy1) as (w' & R & Hcy').
    exists w'. unfold run_updates in *. cbn [map run step]. rewrite R1.
    cbn [mbind result_bind]. split; [assumption|].
    replace (c + Z.of_nat (length (t :: times)))
      with (c + 1 + Z.of_nat (length times)) by (cbn [length]; lia).
    assumption.
Qed.

(** ** Rate of fire *)

Definition cannon_op (o : Op) : bool :=
  match o with
  | OpShoot | OpCooldownCannon => true
  | _ => false
  end.

(** How many of the calls are [cooldown_cannon]. *)
Fixpoint cannon_ticks (ops : list Op) : nat :=
  match ops with
  | [] => O
  | OpCooldownCannon :: rest => S (cannon_ticks rest)
  | _ :: rest => cannon_ticks rest
  end.

Lemma calls_shift k f w : calls k f (f w) = f (calls k f w).
Proof. induction k as [|k IH]; cbn; [reflexivity|]. rewrite IH. reflexivity. Qed.

Lemma cannon_cooling ops : ∀ w,
  forallb cannon_op ops = true ->
  1 <= cooldown_counter (player w) ->
  cooldown_counter (player w) + Z.of_nat (cannon_ticks ops)
  <= cooldown_threshold (player w) ->
  run ops w = Ok (calls (cannon_ticks ops) cooldown_cannon w).
Proof.
  induction ops as [|o ops IH]; intros w Hops Hc Ht; [reflexivity|].
  cbn in Hops. apply andb_true_iff in Hops as [Ho Hops].
  destruct o; try discriminate; cbn [run step cannon_ticks mbind result_bind].
  - assert (E : shoot w = w).
    { unfold shoot. destruct (_ =? 0) eqn:E; [zbool; lia | reflexivity]. }
    rewrite E. apply IH; assumption.
  - cbn [cannon_ticks] in Ht. cbn [calls]. rewrite <- calls_shift.
    apply IH; [assumption| |]; unfold cooldown_cannon;
      (destruct (_ >=? _) eqn:E1; [zbool; lia|]);
      (destruct (_ >? 0) eqn:E2; [|zbool; lia]); cbn; lia.
Qed.

(** X1. Right after a shot (counter at 1), in any mix of [shoot] and
    [cooldown_cannon] calls with fewer ticks than the threshold every
    [shoot] does nothing: the run ends in the state the ticks alone give,
    with the cannon still cooling. *)
Theorem shots_wait_for_cooldown (w : World) (ops : list Op) :
  cooldown_counter (player w) = 1 ->
  forallb cannon_op ops = true ->
  Z.of_nat (cannon_ticks ops) < cooldown_threshold (player w) ->
  run ops w = Ok (calls (cannon_ticks ops) cooldown_cannon w)
  /\ cooldown_counter (player (calls (cannon_ticks ops) cooldown_cannon w))
     = 1 + Z.of_nat (cannon_ticks ops).
Proof.
  intros Hone Hops Ht. split; [apply cannon_cooling; auto; lia|].
  destruct (cooldown_cannon_ticks w (cannon_ticks ops) Hone) as [_ Hc];
    [lia | lia |].
  rewrite Hc. destruct (_ <? _) eqn:E; [reflexivity | zbool; lia].
Qed.

Lemma cooldown_cannon_settles w : ∀ k : nat,
  0 <= cooldown_counter (player w) <= cooldown_threshold (player w) ->
  cooldown_threshold (player (calls k cooldown_cannon w))
  = cooldown_threshold (player w)
  /\ cooldown_counter (player (calls k cooldown_cannon w))
     = if (cooldown_counter (player w) =? 0)
          || (cooldown_threshold (player w) - cooldown_counter (player w)
              <? Z.of_nat k)
       then 0 else cooldown_counter (player w) + Z.of_nat k.
Proof.
  intros k Hc. induction k as [|k [IHt IHc]]; cbn [calls].
  - split; [reflexivity|]. destruct (_ =? 0) eqn:E1; cbn [orb]; [zbool; lia|].
    destruct (_ <? _) eqn:E2; zbool; lia.
  - unfold cooldown_cannon at 1 3. rewrite IHt, IHc.
    destruct (cooldown_counter (player w) =? 0) eqn:E1; cbn [orb] in *.
    + destruct (0 >=? _) eqn:E2; [cbn; auto|].
      destruct (0 >? 0) eqn:E3; [zbool; lia|]. auto.
    + destruct (_ <? Z.of_nat k) eqn:E2.
      * destruct (0 >=? _) eqn:E3; [|destruct (0 >? 0) eqn:E4; [zbool; lia|]];
          cbn; (split; [auto|]);
          destruct (_ <? Z.of_nat (S k)) eqn:E5; zbool; lia.
      * destruct (_ >=? _) eqn:E3; [|destruct (_ >? 0) eqn:E4]; cbn;
          (split; [auto|]);
          destruct (_ <? Z.of_nat (S k)) eqn:E5; zbool; lia.
Qed.

Lemma cooldown_missiles_settles w : ∀ k : nat,
  0 <= missile_cooldown_counter (player w)
  <= missile_cooldown_threshold (player w) ->
  missile_cooldown_threshold (player (calls k cooldown_missiles w))
  = missile_cooldown_threshold (player w)
  /\ missile_cooldown_counter (player (calls k cooldown_missiles w))
     = if (missile_cooldown_counter (player w) =? 0)
          || (missile_cooldown_threshold (player w)
              - missile_cooldown_counter (player w) <? Z.of_nat k)
       then 0 else missile_cooldown_counter (player w) + Z.of_nat k.
Proof.
  intros k Hc. induction k as [|k [IHt IHc]]; cbn [calls].
  - split; [reflexivity|]. destruct (_ =? 0) eqn:E1; cbn [orb]; [zbool; lia|].
    destruct (_ <? _) eqn:E2; zbool; lia.
  - unfold cooldown_missiles at 1 3. rewrite IHt, IHc.
    destruct (missile_cooldown_counter (player w) =? 0) eqn:E1;
      cbn [orb] in *.
    + destruct (0 >=? _) eqn:E2; [cbn; auto|].
      destruct (0 >? 0) eqn:E3; [zbool; lia|]. auto.
    + destruct (_ <? Z.of_nat k) eqn:E2.
      * destruct (0 >=? _) eqn:E3; [|destruct (0 >? 0) eqn:E4; [zbool; lia|]];
          cbn; (split; [auto|]);
          destruct (_ <? Z.of_nat (S k)) eqn:E5; zbool; lia.
      * destruct (_ >=? _) eqn:E3; [|destruct (_ >? 0) eqn:E4]; cbn;
          (split; [auto|]);
          destruct (_ <? Z.of_nat (S k)) eqn:E5; zbool; lia.
Qed.

(** X2. From any counter between 0 and the threshold, threshold ticks (or
    more) with no shot in between leave the counter at 0: the weapon is
    ready again, and stays ready while it is only ticked.  The same holds
    for the missile counter. *)
Theorem weapons_get_ready (w : World) (k : nat) :
  0 <= cooldown_counter (player w) <= cooldown_threshold (player w) ->
  0 <= missile_cooldown_counter (player w)
  <= missile_cooldown_threshold (player w) ->
  (cooldown_threshold (player w) <= Z.of_nat k ->
   cooldown_counter (player (calls k cooldown_cannon w)) = 0)
  /\ (missile_cooldown_threshold (player w) <= Z.of_nat k ->
      missile_cooldown_counter (player (calls k cooldown_missiles w)) = 0).
Proof.
  intros Hc Hm. split; intros Hk.
  - destruct (cooldown_cannon_settles w k Hc) as [_ ->].
    destruct (_ =? 0) eqn:E1; cbn [orb]; [reflexivity|].
    destruct (_ <? _) eqn:E2; zbool; lia.
  - destruct (cooldown_missiles_settles w k Hm) as [_ ->].
    destruct (_ =? 0) eqn:E1; cbn [orb]; [reflexivity|].
    destruct (_ <? _) eqn:E2; zbool; lia.
Qed.

(** ** Hit resolution: misses and lists in pieces *)

Lemma kills_from_miss dmg w proj objs : ∀ pre,
  (∀ o, o ∈ objs -> struck w proj o = false) ->
  kills_from dmg w proj pre objs = [].
Proof.
  induction objs as [|o objs IH]; intros pre H; [reflexivity|].
  cbn [kills_from]. rewrite IH by (intros o' Ho'; apply H; right; assumption).
  destruct (dies dmg w proj pre o) eqn:Hd; [|reflexivity].
  apply dies_struck in Hd. rewrite H in Hd by left. discriminate.
Qed.

Lemma none_struck w proj (objs : list (option ref)) :
  forallb (λ o, negb (struck w proj o)) objs = true ->
  ∀ o, o ∈ objs -> struck w proj o = false.
Proof.
  rewrite forallb_forall. intros H o Ho. apply list_elem_of_In, H in Ho.
  apply negb_true_iff in Ho. assumption.
Qed.

(** X5. When no candidate is hit (the list is empty, holds only [None], or
    nothing overlaps the projectile), [resolve_hits] and [resolve_missiles]
    return the empty kill list and leave the world exactly as it was: no
    sound, no hit point lost, the projectile still live. *)
Theorem misses_change_nothing (w : World) (proj : ref)
    (objs : list (option ref)) :
  candidates_ok w objs = true ->
  projectile_ok w proj objs = true ->
  forallb (λ o, negb (struck w proj o)) objs = true ->
  resolve_hits proj objs w = Ok (w, [])
  /\ resolve_missiles proj objs w = Ok (w, []).
Proof.
  intros Hobjs Hproj Hmiss.
  apply candidates_ok_alive in Hobjs. apply projectile_ok_alive in Hproj.
  pose proof (none_struck w proj objs Hmiss) as Hnone. split.
  - destruct (resolve_hits_loop_spec w proj objs [] w []
                (eq_sym (damaged_nil 1 w proj)) Hobjs Hproj)
      as (w' & R & _ & _ & _ & N & _).
    unfold resolve_hits. rewrite R, (N Hnone), kills_from_miss by assumption.
    reflexivity.
  - destruct (resolve_missiles_loop_spec w proj objs [] w []
                (eq_sym (damaged_nil 3 w proj)) Hobjs Hproj)
      as (w' & R & _ & _ & _ & N & _).
    unfold resolve_missiles. rewrite R, (N Hnone), kills_from_miss by assumption.
    reflexivity.
Qed.

(** The kill list built so far is only ever extended. *)
Definition extend_kills (k : list ref) (st : World * list ref)
    : World * list ref :=
  (fst st, k ++ snd st).

Lemma resolve_hits_body_extend laser o w k :
  resolve_hits_body laser o (w, k)
  = extend_kills k <$> resolve_hits_body laser o (w, []).
Proof.
  unfold resolve_hits_body, extend_kills. destruct o as [r|]; cbn.
  2:{ rewrite app_nil_r. reflexivity. }
  destruct (deref_sprite w laser) as [l|]; cbn; [|reflexivity].
  destruct (deref_sprite w r) as [t|]; cbn; [|reflexivity].
  destruct (resolve_collision _ _); cbn; [|rewrite app_nil_r; reflexivity].
  destruct (_ <=? 0); cbn; rewrite ?app_nil_r; reflexivity.
Qed.

Lemma resolve_missiles_body_extend missile o w k :
  resolve_missiles_body missile o (w, k)
  = extend_kills k <$> resolve_missiles_body missile o (w, []).
Proof.
  unfold resolve_missiles_body, extend_kills. destruct o as [r|]; cbn.
  2:{ rewrite app_nil_r. reflexivity. }
  destruct (deref_sprite w missile) as [l|]; cbn; [|reflexivity].
  destruct (deref_sprite w r) as [t|]; cbn; [|reflexivity].
  destruct (resolve_collision _ _); cbn; [|rewrite app_nil_r; reflexivity].
  destruct (_ <=? 0); cbn; rewrite ?app_nil_r; reflexivity.
Qed.

Lemma resolve_hits_loop_extend laser objs : ∀ w k,
  resolve_hits_loop laser objs (w, k)
  = extend_kills k <$> resolve_hits_loop laser objs (w, []).
Proof.
  induction objs as [|o objs IH]; intros w k; cbn [resolve_hits_loop].
  - unfold extend_kills. cbn. rewrite app_nil_r. reflexivity.
  - rewrite resolve_hits_body_extend.
    destruct (resolve_hits_body laser o (w, [])) as [[w1 k1]|]; cbn;
      [|reflexivity].
    change (extend_kills k (w1, k1)) with (w1, k ++ k1).
    rewrite (IH w1 (k ++ k1)), (IH w1 k1).
    destruct (resolve_hits_loop laser objs (w1, [])) as [[w2 k2]|]; cbn;
      [|reflexivity].
    unfold extend_kills. cbn. rewrite app_assoc. reflexivity.
Qed.

Lemma resolve_missiles_loop_extend missile objs : ∀ w k,
  resolve_missiles_loop missile objs (w, k)
  = extend_kills k <$> resolve_missiles_loop missile objs (w, []).
Proof.
  induction objs as [|o objs IH]; intros w k; cbn [resolve_missiles_loop].
  - unfold extend_kills. cbn. rewrite app_nil_r. reflexivity.
  - rewrite resolve_missiles_body_extend.
    destruct (resolve_missiles_body missile o (w, [])) as [[w1 k1]|]; cbn;
      [|reflexivity].
    change (extend_kills k (w1, k1)) with (w1, k ++ k1).
    rewrite (IH w1 (k ++ k1)), (IH w1 k1).
    destruct (resolve_missiles_loop missile objs (w1, [])) as [[w2 k2]|]; cbn;
      [|reflexivity].
    unfold extend_kills. cbn. rewrite app_assoc. reflexivity.
Qed.

Lemma resolve_hits_loop_app laser a b : ∀ st,
  resolve_hits_loop laser (a ++ b) st
  = resolve_hits_loop laser a st ≫= resolve_hits_loop laser b.
Proof.
  induction a as [|o a IH]; intros st; cbn; [reflexivity|].
  destruct (resolve_hits_body laser o st); cbn; [apply IH | reflexivity].
Qed.

Lemma resolve_missiles_loop_app missile a b : ∀ st,
  resolve_missiles_loop missile (a ++ b) st
  = resolve_missiles_loop missile a st ≫= resolve_missiles_loop missile b.
Proof.
  induction a as [|o a IH]; intros st; cbn; [reflexivity|].
  destruct (resolve_missiles_body missile o st); cbn; [apply IH | reflexivity].
Qed.

(** X6. Resolving a projectile against a list in two pieces, one call
    after the other, is the same as one call on the whole list: the same
    world, the kill lists joined, and the same exception if one is raised.
    So a second call with a laser that the first call retired hits again. *)
Theorem resolving_in_pieces (proj : ref) (a b : list (option ref))
    (w : World) :
  resolve_hits proj (a ++ b) w
  = match resolve_hits proj a w with
    | Ok (w1, k1) =>
        match resolve_hits proj b w1 with
        | Ok (w2, k2) => Ok (w2, k1 ++ k2)
        | Raise e => Raise e
        end
    | Raise e => Raise e
    end
  /\ resolve_missiles proj (a ++ b) w
     = match resolve_missiles proj a w with
       | Ok (w1, k1) =>
           match resolve_missiles proj b w1 with
           | Ok (w2, k2) => Ok (w2, k1 ++ k2)
           | Raise e => Raise e
           end
       | Raise e => Raise e
       end.
Proof.
  unfold resolve_hits, resolve_missiles. split.
  - rewrite resolve_hits_loop_app.
    destruct (resolve_hits_loop proj a (w, [])) as [[w1 k1]|]; cbn;
      [|reflexivity].
    rewrite resolve_hits_loop_extend.
    destruct (resolve_hits_loop proj b (w1, [])) as [[w2 k2]|]; reflexivity.
  - rewrite resolve_missiles_loop_app.
    destruct (resolve_missiles_loop proj a (w, [])) as [[w1 k1]|]; cbn;
      [|reflexivity].
    rewrite resolve_missiles_loop_extend.
    destruct (resolve_missiles_loop proj b (w1, [])) as [[w2 k2]|];
      reflexivity.
Qed.

(** ** The pace of the animation *)

Lemma fives_between (c k : Z) :
  (c + (k + 1) + 4) / 5 - (c + 4) / 5
  = (if c mod 5 =? 0 then 1 else 0) + ((c + 1 + k + 4) / 5 - (c + 1 + 4) / 5).
Proof.
  destruct (c mod 5 =? 0) eqn:E; zbool;
    Z.to_euclidean_division_equations; lia.
Qed.

Lemma plain_run n g times : ∀ w,
  plain_ok n g w ->
  forallb (λ t, g <=? t) times = true ->
  0 <= current_frame (player w) < n ->
  ∃ w',
    run_updates times w = Ok w'
    /\ animation_counter (player w')
       = animation_counter (player w) + Z.of_nat (length times)
    /\ current_frame (player w')
       = (current_frame (player w)
          + ((animation_counter (player w) + Z.of_nat (length times) + 4) / 5
             - (animation_counter (player w) + 4) / 5)) mod n.
Proof.
  induction times as [|t times IH]; intros w Hok Ht Hcf.
  - exists w. split; [reflexivity|]. cbn [length]. split; [lia|].
    replace (animation_counter (player w) + Z.of_nat 0 + 4)
      with (animation_counter (player w) + 4) by lia.
    rewrite Z.sub_diag, Z.add_0_r, Z.mod_small; auto.
  - cbn in Ht. apply andb_true_iff in Ht as [Ht0 Ht]. zbool.
    pose proof Hok as (_ & Hn & _).
    destruct (plain_step n g w t Hok Ht0) as (w1 & R1 & K1 & C1 & F1 & _).
    assert (Hcf1 : 0 <= current_frame (player w1) < n).
    { rewrite F1. destruct (_ =? 0); [apply Z.mod_pos_bound|]; assumption. }
    destruct (IH w1 K1 Ht Hcf1) as (w' & R & C & F).
    exists w'. unfold run_updates in *. cbn [map run step]. rewrite R1.
    cbn [mbind result_bind]. split; [assumption|].
    split; [rewrite C, C1; cbn [length]; lia|].
    rewrite F, C1, F1.
    replace (Z.of_nat (length (t :: times)))
      with (Z.of_nat (length times) + 1) by (cbn [length]; lia).
    rewrite fives_between.
    destruct (animation_counter (player w) mod 5 =? 0).
    + rewrite Zplus_mod_idemp_l. f_equal. lia.
    + f_equal.
Qed.

(** X11. With at least one frame, a frame index inside the list, a cache
    that can be restored and no glow, [k] calls of [update_idle_animation]
    from a counter [c] all return and move the frame index forward, modulo
    the number of frames, by the number of multiples of 5 among
    [c, ..., c + k - 1], which is [(c + k + 4) / 5 - (c + 4) / 5]: one
    frame every five calls, whatever the starting count. *)
Theorem animation_pace (w : World) (times : list Z) :
  let p := player w in
  let n := Z.of_nat (length (idle_animation_frames p)) in
  let c := animation_counter p in
  let k := Z.of_nat (length times) in
  idle_animation_frames p ≠ [] ->
  cache_ok p = true ->
  glow_over p times = true ->
  0 <= current_frame p < n ->
  ∃ w',
    run_updates times w = Ok w'
    /\ animation_counter (player w') = c + k
    /\ current_frame (player w')
       = (current_frame p + ((c + k + 4) / 5 - (c + 4) / 5)) mod n.
Proof.
  intros p n c k Hne Hcache Hglow Hcf.
  apply (plain_run n (glow_effect_end_time p) times w); auto.
  apply plain_ok_intro; assumption.
Qed.

(** ** The three stages of an animation call *)

(** Lines 90 to 94: the change of frame. *)
Definition advance_frame (w : World) : result World :=
  let p := player w in
  if (animation_counter p mod 5 =? 0)%Z then
    cf ← py_mod (current_frame p + 1)
           (Z.of_nat (length (idle_animation_frames p)));
    im ← py_getitem (idle_animation_frames p) cf;
    Ok (set_player w
          (set_base (set_current_frame p cf) (set_img (base p) im)))
  else Ok w.

(** Lines 96 to 107: the glow, or the restore when the glow is over. *)
Definition glow_or_restore (now : Z) (w : World) : result World :=
  let p := player w in
  if (now <? glow_effect_end_time p)%Z then
    w ← (match dict_get (original_images p) (current_frame p) with
         | None =>
             '(c, w) ← copy_surface (img (base p)) w;
             Ok (set_player w
                   (set_original_images p
                      (dict_set (original_images p) (current_frame p) c)))
         | Some _ => Ok w
         end);
    fill_glow (img (base (player w))) w
  else
    frames ← restore_images (idle_animation_frames p) (original_images p);
    Ok (set_player w
          (set_original_images (set_idle_animation_frames p frames) [])).

(** Line 109: the call is counted. *)
Definition count_call (w : World) : World :=
  set_player w
    (set_animation_counter (player w) (animation_counter (player w) + 1)).

Lemma update_idle_animation_stages now w :
  update_idle_animation now w
  = w ← advance_frame w; w ← glow_or_restore now w; Ok (count_call w).
Proof. reflexivity. Qed.

(** The displayed image is the surface that the frame list holds at the
    current index. *)
Definition aliased (w : World) : Prop :=
  idle_animation_frames (player w) !! Z.to_nat (current_frame (player w))
  = Some (img (base (player w))).

(** When the frame list is not empty the change of frame succeeds; it
    touches the frame index and the displayed image only, and after it the
    displayed image is the current frame unless it was not before and the
    count was no multiple of 5. *)
Lemma advance_frame_spec w :
  let p := player w in
  let n := Z.of_nat (length (idle_animation_frames p)) in
  0 < n ->
  0 <= current_frame p < n ->
  ∃ cf im,
    advance_frame w
    = Ok (set_player w
            (set_base (set_current_frame p cf) (set_img (base p) im)))
    /\ 0 <= cf < n
    /\ cf = (if animation_counter p mod 5 =? 0 then (current_frame p + 1) mod n
             else current_frame p)
    /\ (animation_counter p mod 5 = 0 \/ aliased w ->
        idle_animation_frames p !! Z.to_nat cf = Some im)
    /\ (im = img (base p) \/ im ∈ idle_animation_frames p).
Proof.
  intros p n Hn Hcf. subst p n. unfold advance_frame.
  destruct (animation_counter (player w) mod 5 =? 0) eqn:Hc.
  - unfold py_mod.
    destruct (Z.of_nat (length (idle_animation_frames (player w))) =? 0)
      eqn:Hz; [zbool; lia|].
    cbn [mbind result_bind].
    destruct (py_getitem_nonneg (idle_animation_frames (player w))
                ((current_frame (player w) + 1)
                 mod Z.of_nat (length (idle_animation_frames (player w)))))
      as (im & Him & Hlook).
    { apply Z.mod_pos_bound. assumption. }
    rewrite Him. cbn [mbind result_bind]. eexists _, im.
    split; [reflexivity|]. split; [apply Z.mod_pos_bound; assumption|].
    split; [reflexivity|]. split; [auto|].
    right. apply list_elem_of_lookup. eauto.
  - exists (current_frame (player w)), (img (base (player w))).
    split; [destruct w as [[[] ? ? ? ? ? ? ? ? ? ? ? ? ? ? ? ? ? ? ? ? ? ? ?] ? ? ?];
            reflexivity|].
    split; [assumption|]. split; [reflexivity|]. split; [|auto].
    intros [H|H]; [zbool; lia | exact H].
Qed.

(** ** The restore, entry by entry *)

Lemma dict_get_absent {V} (d : list (Z * V)) (k : Z) :
  dict_get d k = None <-> k ∉ d.*1.
Proof.
  induction d as [|[k' v] d IH]; cbn.
  - split; [intros _ H; inversion H | reflexivity].
  - rewrite not_elem_of_cons. destruct (k' =? k) eqn:E; zbool.
    + split; [discriminate | intros [H _]; congruence].
    + rewrite IH. split; [intros H; split; [congruence | exact H] | tauto].
Qed.

Lemma dict_get_snoc {V} (d : list (Z * V)) (k k' : Z) (v : V) :
  dict_get (d ++ [(k, v)]) k'
  = match dict_get d k' with
    | Some x => Some x
    | None => if k =? k' then Some v else None
    end.
Proof.
  induction d as [|[k0 v0] d IH]; cbn; [reflexivity|].
  destruct (k0 =? k'); [reflexivity | exact IH].
Qed.

(** The keys of the cache are indices of a list of [n] frames, counted
    from the front, each at most once. *)
Definition cache_keys_ok (n : Z) (cache : list (Z * surf_ref)) : bool :=
  forallb (λ kv, (0 <=? fst kv) && (fst kv <? n)) cache
  && bool_decide (NoDup cache.*1).

Lemma cache_keys_ok_range n cache k :
  cache_keys_ok n cache = true -> k ∈ cache.*1 -> 0 <= k < n.
Proof.
  unfold cache_keys_ok. rewrite andb_true_iff, forallb_forall.
  intros [H _] Hk. apply list_elem_of_fmap in Hk as ([k' v] & -> & Hin).
  apply list_elem_of_In, H in Hin. cbn in *.
  apply andb_true_iff in Hin as [H1 H2]. zbool. lia.
Qed.

Lemma restore_images_lookup cache : ∀ frames,
  cache_keys_ok (Z.of_nat (length frames)) cache = true ->
  ∃ frames',
    restore_images frames cache = Ok frames'
    /\ length frames' = length frames
    /\ ∀ i : nat,
         frames' !! i
         = match dict_get cache (Z.of_nat i) with
           | Some v => Some v
           | None => frames !! i
           end.
Proof.
  induction cache as [|[k v] cache IH]; intros frames H.
  - exists frames. cbn. auto.
  - unfold cache_keys_ok in H. cbn in H.
    apply andb_true_iff in H as [H Hnd].
    apply andb_true_iff in H as [Hk H].
    apply andb_true_iff in Hk as [K1 K2]. zbool.
    apply bool_decide_eq_true in Hnd. apply NoDup_cons in Hnd as [Hnotin Hnd].
    cbn [restore_images]. unfold py_setitem, py_index.
    destruct ((0 <=? k) && (k <? Z.of_nat (length frames))) eqn:E.
    2:{ apply andb_false_iff in E as [E|E]; zbool; lia. }
    cbn [mbind result_bind].
    destruct (IH (<[Z.to_nat k:=v]> frames)) as (frames' & R & L & Hlook).
    { unfold cache_keys_ok. rewrite length_insert, H. cbn.
      apply bool_decide_eq_true. assumption. }
    exists frames'. split; [exact R|]. rewrite length_insert in L.
    split; [exact L|]. intros i. rewrite Hlook. cbn [dict_get].
    destruct (k =? Z.of_nat i) eqn:Ei; zbool.
    + subst k. apply dict_get_absent in Hnotin. rewrite Hnotin.
      rewrite Nat2Z.id. apply list_lookup_insert_eq. lia.
    + destruct (dict_get cache (Z.of_nat i)); [reflexivity|].
      apply list_lookup_insert_ne. lia.
Qed.

Lemma update_idle_animation_expiry (now : Z) (w : World) :
  let p := player w in
  let n := Z.of_nat (length (idle_animation_frames p)) in
  0 < n ->
  0 <= current_frame p < n ->
  cache_keys_ok n (original_images p) = true ->
  glow_effect_end_time p <= now ->
  ∃ w',
    update_idle_animation now w = Ok w'
    /\ original_images (player w') = []
    /\ surfaces w' = surfaces w
    /\ ∀ i : nat,
         idle_animation_frames (player w') !! i
         = match dict_get (original_images p) (Z.of_nat i) with
           | Some v => Some v
           | None => idle_animation_frames p !! i
           end.
Proof.
  intros p n Hn Hcf Hkeys Hover. subst p n.
  destruct (restore_images_lookup (original_images (player w))
              (idle_animation_frames (player w)) Hkeys)
    as (frames' & R & L & Hlook).
  destruct (advance_frame_spec w Hn Hcf) as (cf & im & A & _).
  rewrite update_idle_animation_stages, A. cbn [mbind result_bind].
  unfold glow_or_restore. cbn.
  destruct (now <? glow_effect_end_time (player w)) eqn:E; [zbool; lia|].
  rewrite R. cbn. eexists. split; [reflexivity|]. cbn. auto.
Qed.

(** X9. A call made when the glow is over, on a state with at least one
    frame, a frame index inside the list and cache keys that are distinct
    indices of the list, returns with the cache empty, each cached image
    written into the frame list at its key and every other position of
    the list as before; no surface is touched. *)
Theorem expiry_restores_cached_images (now : Z) (w : World) :
  let p := player w in
  let n := Z.of_nat (length (idle_animation_frames p)) in
  0 < n ->
  0 <= current_frame p < n ->
  cache_keys_ok n (original_images p) = true ->
  glow_effect_end_time p <= now ->
  ∃ w',
    update_idle_animation now w = Ok w'
    /\ original_images (player w') = []
    /\ surfaces w' = surfaces w
    /\ ∀ i : nat,
         idle_animation_frames (player w') !! i
         = match dict_get (original_images p) (Z.of_nat i) with
           | Some v => Some v
           | None => idle_animation_frames p !! i
           end.
Proof.
  intros p n Hn Hcf Hkeys Hover.
  apply update_idle_animation_expiry; assumption.
Qed.

(** ** The glow, surface by surface *)

(** While the glow is on and the displayed image is a surface with the
    pixels [s]: the stage succeeds; an index without cache entry gets one,
    a new surface with the pixels [s]; then the displayed surface is filled
    where it is. *)
Lemma glow_stage_spec now w s :
  let p := player w in
  now < glow_effect_end_time p ->
  surfaces w !! img (base p) = Some s ->
  ∃ w',
    glow_or_restore now w = Ok w'
    /\ sprites w' = sprites w
    /\ events w' = events w
    /\ player w'
       = match dict_get (original_images p) (current_frame p) with
         | Some _ => p
         | None =>
             set_original_images p
               (original_images p
                  ++ [(current_frame p, length (surfaces w))])
         end
    /\ surfaces w'
       = <[img (base p) := fill_yellow_add s]>
           (match dict_get (original_images p) (current_frame p) with
            | Some _ => surfaces w
            | None => surfaces w ++ [s]
            end).
Proof.
  intros p Hon Hs. subst p. unfold glow_or_restore.
  destruct (now <? _) eqn:E; [|zbool; lia].
  destruct (dict_get _ _) eqn:Hget; cbn [mbind result_bind].
  - unfold fill_glow, deref_surface. rewrite Hs. cbn. eauto 10.
  - unfold copy_surface, deref_surface. rewrite Hs. cbn.
    unfold fill_glow, deref_surface. cbn.
    rewrite lookup_app_l by (apply lookup_lt_is_Some; eauto).
    rewrite Hs. cbn. rewrite dict_set_absent by assumption. eauto 10.
Qed.

(** The displayed image, the frames and the cached images are surfaces of
    the store. *)
Definition surfaces_ok (w : World) : bool :=
  let p := player w in
  let m := length (surfaces w) in
  (img (base p) <? m)%nat
  && forallb (λ r, (r <? m)%nat) (idle_animation_frames p)
  && forallb (λ kv : Z * nat, (snd kv <? m)%nat) (original_images p).

Definition surfaces_valid (m : nat) (p : Player) : Prop :=
  (img (base p) < m)%nat
  /\ Forall (λ r, (r < m)%nat) (idle_animation_frames p)
  /\ Forall (λ kv : Z * nat, (snd kv < m)%nat) (original_images p).

Lemma surfaces_ok_valid w :
  surfaces_ok w = true <-> surfaces_valid (length (surfaces w)) (player w).
Proof.
  unfold surfaces_ok, surfaces_valid.
  rewrite !andb_true_iff, !forallb_forall, !Forall_forall, Nat.ltb_lt.
  split; intros [[H1 H2] H3] || intros (H1 & H2 & H3); split_and!; auto.
  - intros r Hr. apply list_elem_of_In, H2, Nat.ltb_lt in Hr. assumption.
  - intros kv Hkv. apply list_elem_of_In, H3, Nat.ltb_lt in Hkv. assumption.
  - intros r Hr. apply Nat.ltb_lt, H2, list_elem_of_In. assumption.
  - intros kv Hkv. apply Nat.ltb_lt, H3, list_elem_of_In. assumption.
Qed.

Lemma surfaces_valid_mono m m' p :
  (m <= m')%nat -> surfaces_valid m p -> surfaces_valid m' p.
Proof.
  intros Hm (H1 & H2 & H3). split_and!; [lia| |];
    eapply Forall_impl; eauto; cbn; intros; lia.
Qed.

Lemma restore_images_Forall (P : nat -> Prop) cache : ∀ frames frames',
  restore_images frames cache = Ok frames' ->
  Forall P frames -> Forall (λ kv, P (snd kv)) cache -> Forall P frames'.
Proof.
  induction cache as [|[k v] cache IH]; intros frames frames' H Hf Hc;
    cbn in H.
  - congruence.
  - inv_bind H as f1 H1. unfold py_setitem in H1. inv_bind H1 as i Hi.
    injection H1 as <-. apply Forall_cons in Hc as [Hv Hc].
    eapply IH; eauto. apply Forall_insert; assumption.
Qed.

(** An animation call on a state with at least one frame, a frame index
    inside the list, a cache that can be restored and valid surfaces
    returns, and the surfaces stay valid. *)
Lemma update_idle_animation_total now w :
  let p := player w in
  let n := Z.of_nat (length (idle_animation_frames p)) in
  0 < n ->
  0 <= current_frame p < n ->
  cache_ok p = true ->
  surfaces_ok w = true ->
  ∃ w', update_idle_animation now w = Ok w' /\ surfaces_ok w' = true.
Proof.
  intros p n Hn Hcf Hcache Hsurf. subst p n.
  apply surfaces_ok_valid in Hsurf. destruct Hsurf as (V1 & V2 & V3).
  destruct (advance_frame_spec w Hn Hcf) as (cf & im & A & _ & _ & _ & Him).
  rewrite update_idle_animation_stages, A. cbn [mbind result_bind].
  assert (Vim : (im < length (surfaces w))%nat).
  { destruct Him as [->|Hin]; [assumption|].
    rewrite Forall_forall in V2. auto. }
  set (w1 := set_player w _).
  destruct (Z.ltb_spec now (glow_effect_end_time (player w))) as [Hon|Hoff].
  - destruct (lookup_lt_is_Some_2 (surfaces w) im Vim) as [s Hs].
    destruct (glow_stage_spec now w1 s Hon Hs) as (w2 & G & _ & _ & Hp & Hsf).
    rewrite G. cbn [mbind result_bind]. eexists. split; [reflexivity|].
    apply surfaces_ok_valid. cbn [count_call surfaces player set_player].
    rewrite Hsf, Hp, length_insert. subst w1. cbn.
    destruct (dict_get (original_images (player w)) cf).
    + split_and!; assumption.
    + rewrite length_app. cbn [length]. split_and!; cbn; [lia| |].
      * eapply Forall_impl; eauto. cbn. intros. lia.
      * apply Forall_app. split.
        -- eapply Forall_impl; eauto. cbn. intros. lia.
        -- constructor; [cbn; lia | constructor].
  - destruct (restore_images_ok (original_images (player w))
                (idle_animation_frames (player w)) Hcache)
      as (frames' & R & L).
    unfold glow_or_restore. subst w1. cbn.
    destruct (now <? glow_effect_end_time (player w)) eqn:E; [zbool; lia|].
    rewrite R. cbn. eexists. split; [reflexivity|].
    apply surfaces_ok_valid. cbn. split_and!; [assumption| |constructor].
    eapply (restore_images_Forall (λ r, (r < length (surfaces w))%nat));
      eauto.
Qed.

Lemma update_idle_animation_glow (now : Z) (w : World) :
  let p := player w in
  let n := Z.of_nat (length (idle_animation_frames p)) in
  0 < n ->
  0 <= current_frame p < n ->
  surfaces_ok w = true ->
  now < glow_effect_end_time p ->
  ∃ w' s,
    update_idle_animation now w = Ok w'
    /\ idle_animation_frames (player w') = idle_animation_frames p
    /\ surfaces w !! img (base (player w')) = Some s
    /\ match dict_get (original_images p) (current_frame (player w')) with
       | Some _ =>
           original_images (player w') = original_images p
           /\ surfaces w'
              = <[img (base (player w')) := fill_yellow_add s]> (surfaces w)
       | None =>
           original_images (player w')
           = original_images p
             ++ [(current_frame (player w'), length (surfaces w))]
           /\ surfaces w'
              = <[img (base (player w')) := fill_yellow_add s]>
                  (surfaces w ++ [s])
       end.
Proof.
  intros p n Hn Hcf Hsurf Hon. subst p n.
  apply surfaces_ok_valid in Hsurf. destruct Hsurf as (V1 & V2 & V3).
  destruct (advance_frame_spec w Hn Hcf) as (cf & im & A & _ & _ & _ & Him).
  rewrite update_idle_animation_stages, A. cbn [mbind result_bind].
  assert (Vim : (im < length (surfaces w))%nat).
  { destruct Him as [->|Hin]; [assumption|].
    rewrite Forall_forall in V2. auto. }
  set (w1 := set_player w _).
  destruct (lookup_lt_is_Some_2 (surfaces w) im Vim) as [s Hs].
  destruct (glow_stage_spec now w1 s Hon Hs) as (w2 & G & _ & _ & Hp & Hsf).
  rewrite G. cbn [mbind result_bind]. eexists _, s. split; [reflexivity|].
  subst w1. cbn in Hp, Hsf.
  cbn [count_call surfaces player set_player].
  destruct (dict_get (original_images (player w)) cf) eqn:Hget;
    rewrite Hsf, Hp; cbn; rewrite Hget; auto.
Qed.

(** X8. While the glow is on, a call on a state with at least one frame, a
    frame index inside the list, and valid surfaces returns.  It leaves the
    frame list alone and keeps every cache entry.  Only when the current
    frame index (after the change of frame, if any) has no entry it adds
    one: a new surface holding the pixels of the displayed image as they
    were.  Then it fills the displayed surface where it is, so whoever
    holds that surface, the frame list included, sees it glow. *)
Theorem glow_call_caches_then_fills (now : Z) (w : World) :
  let p := player w in
  let n := Z.of_nat (length (idle_animation_frames p)) in
  0 < n ->
  0 <= current_frame p < n ->
  surfaces_ok w = true ->
  now < glow_effect_end_time p ->
  ∃ w' s,
    update_idle_animation now w = Ok w'
    /\ idle_animation_frames (player w') = idle_animation_frames p
    /\ surfaces w !! img (base (player w')) = Some s
    /\ match dict_get (original_images p) (current_frame (player w')) with
       | Some _ =>
           original_images (player w') = original_images p
           /\ surfaces w'
              = <[img (base (player w')) := fill_yellow_add s]> (surfaces w)
       | None =>
           original_images (player w')
           = original_images p
             ++ [(current_frame (player w'), length (surfaces w))]
           /\ surfaces w'
              = <[img (base (player w')) := fill_yellow_add s]>
                  (surfaces w ++ [s])
       end.
Proof.
  intros p n Hn Hcf Hsurf Hon.
  apply update_idle_animation_glow; assumption.
Qed.

(** ** A glow on a clean state is undone *)

(** The frames are distinct surfaces of the store. *)
Definition frames_distinct (w : World) : bool :=
  bool_decide (NoDup (idle_animation_frames (player w)))
  && forallb (λ r, (r <? length (surfaces w))%nat)
       (idle_animation_frames (player w)).

(** The state [w] of a glow that began in [w0] with an empty cache: the
    frame list and the end of the glow are those of [w0]; a frame with a
    cache entry has its first pixels in the cached copy, made after [w0];
    a frame without one still has them itself. *)
Definition glowing (w0 w : World) : Prop :=
  let p := player w in
  let frames0 := idle_animation_frames (player w0) in
  idle_animation_frames p = frames0
  /\ glow_effect_end_time p = glow_effect_end_time (player w0)
  /\ 0 <= current_frame p < Z.of_nat (length frames0)
  /\ (length (surfaces w0) <= length (surfaces w))%nat
  /\ cache_keys_ok (Z.of_nat (length frames0)) (original_images p) = true
  /\ ∀ (i r : nat), frames0 !! i = Some r ->
       match dict_get (original_images p) (Z.of_nat i) with
       | Some c =>
           (length (surfaces w0) <= c)%nat
           /\ surfaces w !! c = surfaces w0 !! r
       | None => surfaces w !! r = surfaces w0 !! r
       end.

Lemma cache_keys_ok_snoc n cache k (v : nat) :
  cache_keys_ok n cache = true -> 0 <= k < n -> dict_get cache k = None ->
  cache_keys_ok n (cache ++ [(k, v)]) = true.
Proof.
  unfold cache_keys_ok. rewrite !andb_true_iff, !bool_decide_eq_true.
  intros [H Hnd] Hk Hget. rewrite forallb_app, H. cbn. split.
  - rewrite andb_true_r. apply andb_true_iff. split; zbool; [apply Z.leb_le|apply Z.ltb_lt]; lia.
  - rewrite fmap_app. cbn. apply NoDup_app. split_and!; [assumption| |].
    + intros x Hx Hx'. apply list_elem_of_singleton in Hx' as ->.
      apply dict_get_absent in Hget. contradiction.
    + apply NoDup_singleton.
Qed.

Lemma frames_distinct_facts w :
  frames_distinct w = true ->
  NoDup (idle_animation_frames (player w))
  /\ ∀ i r, idle_animation_frames (player w) !! i = Some r ->
            (r < length (surfaces w))%nat.
Proof.
  unfold frames_distinct. rewrite andb_true_iff, bool_decide_eq_true.
  rewrite forallb_forall. intros [Hnd Hv]. split; [assumption|].
  intros i r Hr. apply list_elem_of_lookup_2, list_elem_of_In, Hv in Hr.
  apply Nat.ltb_lt. assumption.
Qed.

Lemma glowing_step w0 w now :
  frames_distinct w0 = true ->
  glowing w0 w ->
  animation_counter (player w) mod 5 = 0 \/ aliased w ->
  now < glow_effect_end_time (player w) ->
  ∃ w', update_idle_animation now w = Ok w' /\ glowing w0 w' /\ aliased w'.
Proof.
  intros Hdist (Hf & Hg & Hcf & Hlen & Hkeys & Hpix) Hal Hon.
  apply frames_distinct_facts in Hdist as [Hnd Hvalid].
  assert (Hn : 0 < Z.of_nat (length (idle_animation_frames (player w)))).
  { rewrite Hf. lia. }
  rewrite <- Hf in Hcf.
  destruct (advance_frame_spec w Hn Hcf) as (cf & im & A & Hcf' & _ & Him & _).
  specialize (Him Hal). rewrite Hf in Him, Hcf, Hcf'.
  assert (Vim : (im < length (surfaces w0))%nat) by eauto.
  destruct (lookup_lt_is_Some_2 (surfaces w) im ltac:(lia)) as [s Hs].
  rewrite update_idle_animation_stages, A. cbn [mbind result_bind].
  set (w1 := set_player w _).
  destruct (glow_stage_spec now w1 s Hon Hs) as (w2 & G & _ & _ & Hp & Hsf).
  rewrite G. cbn [mbind result_bind]. eexists. split; [reflexivity|].
  subst w1. cbn in Hp, Hsf.
  assert (Hcfi : Z.of_nat (Z.to_nat cf) = cf) by lia.
  destruct (dict_get (original_images (player w)) cf) eqn:Hget.
  - split.
    + unfold glowing. cbn [count_call surfaces player set_player].
      rewrite Hsf, Hp. cbn. rewrite length_insert.
      split_and!; auto; try lia.
      intros i r Hr. specialize (Hpix i r Hr).
      destruct (dict_get (original_images (player w)) (Z.of_nat i)) eqn:Hi.
      * destruct Hpix as [Hc Hpix]. split; [assumption|].
        rewrite list_lookup_insert_ne by lia. assumption.
      * rewrite list_lookup_insert_ne; [assumption|].
        intros ->. pose proof (NoDup_lookup _ _ _ _ Hnd Him Hr) as <-.
        rewrite Hcfi in Hi. congruence.
    + unfold aliased. cbn [count_call player set_player]. rewrite Hp. cbn.
      rewrite Hf. assumption.
  - split.
    + unfold glowing. cbn [count_call surfaces player set_player].
      rewrite Hsf, Hp. cbn. rewrite length_insert, length_app. cbn [length].
      split_and!; auto; try lia; [apply cache_keys_ok_snoc; auto|].
      intros i r Hr. specialize (Hpix i r Hr). rewrite dict_get_snoc.
      assert (Hsome : is_Some (surfaces w0 !! r)).
      { apply lookup_lt_is_Some. eauto. }
      destruct (dict_get (original_images (player w)) (Z.of_nat i)) eqn:Hi.
      * destruct Hpix as [Hc Hpix]. split; [assumption|].
        rewrite list_lookup_insert_ne by lia.
        rewrite lookup_app_l; [assumption|].
        apply lookup_lt_is_Some. rewrite Hpix. assumption.
      * destruct (cf =? Z.of_nat i) eqn:Ei; zbool.
        -- subst cf. rewrite Nat2Z.id in Him.
           assert (r = im) by congruence. subst r.
           split; [lia|]. rewrite list_lookup_insert_ne by lia.
           rewrite lookup_app_r by lia. rewrite Nat.sub_diag. cbn.
           congruence.
        -- rewrite list_lookup_insert_ne.
           ++ rewrite lookup_app_l; [assumption|].
              apply lookup_lt_is_Some. rewrite Hpix. assumption.
           ++ intros ->. pose proof (NoDup_lookup _ _ _ _ Hnd Him Hr) as <-.
              lia.
    + unfold aliased. cbn [count_call player set_player]. rewrite Hp. cbn.
      rewrite Hf. assumption.
Qed.

Lemma glowing_run w0 times : ∀ w,
  frames_distinct w0 = true ->
  glowing w0 w ->
  animation_counter (player w) mod 5 = 0 \/ aliased w ->
  forallb (λ t, t <? glow_effect_end_time (player w0)) times = true ->
  ∃ w', run_updates times w = Ok w' /\ glowing w0 w'.
Proof.
  induction times as [|t times IH]; intros w Hdist Hgl Hal Ht.
  - exists w. split; [reflexivity | assumption].
  - cbn in Ht. apply andb_true_iff in Ht as [Ht0 Ht]. zbool.
    pose proof Hgl as (_ & Hg & _).
    destruct (glowing_step w0 w t Hdist Hgl Hal) as (w1 & R1 & Hgl1 & Hal1);
      [lia|].
    destruct (IH w1 Hdist Hgl1 (or_intror Hal1) Ht) as (w' & R & Hgl').
    exists w'. unfold run_updates in *. cbn [map run step]. rewrite R1.
    cbn [mbind result_bind]. auto.
Qed.

Lemma glowing_finish w0 w now :
  frames_distinct w0 = true ->
  glowing w0 w ->
  glow_effect_end_time (player w0) <= now ->
  ∃ w', update_idle_animation now w = Ok w'
        /\ original_images (player w') = []
        /\ ∀ i, frame_image w' i = frame_image w0 i.
Proof.
  intros Hdist (Hf & Hg & Hcf & Hlen & Hkeys & Hpix) Hover.
  apply frames_distinct_facts in Hdist as [Hnd Hvalid].
  rewrite <- Hf in Hcf, Hkeys.
  destruct (update_idle_animation_expiry now w) as (w' & R & Ho & Hs & Hlook);
    [lia | assumption | assumption | lia |].
  exists w'. split; [assumption|]. split; [assumption|].
  intros i. unfold frame_image. rewrite Hlook, Hs, Hf.
  destruct (idle_animation_frames (player w0) !! i) as [r|] eqn:Hr.
  - specialize (Hpix i r Hr).
    destruct (dict_get (original_images (player w)) (Z.of_nat i)); cbn;
      [tauto | assumption].
  - destruct (dict_get (original_images (player w)) (Z.of_nat i)) eqn:Hi;
      [|reflexivity].
    exfalso. apply lookup_ge_None in Hr.
    assert (Hin : Z.of_nat i ∈ (original_images (player w)).*1).
    { destruct (decide (Z.of_nat i ∈ (original_images (player w)).*1))
        as [Hyes|Hno]; [assumption|].
      apply dict_get_absent in Hno. congruence. }
    apply (cache_keys_ok_range _ _ _ Hkeys) in Hin. rewrite Hf in Hin. lia.
Qed.

(** X10. From a state with an empty cache, distinct frame surfaces and the
    displayed image being the current frame (or a count at a multiple of 5,
    so that the first call makes it so): any number of calls while a glow
    is on, followed by one call after its end, all return, leave the cache
    empty, and give every frame of the list the pixels it had at the
    start.  A glow on a clean state is undone in full. *)
Theorem glow_on_clean_state_is_undone (w : World) (times_on : list Z)
    (t_off : Z) :
  let p := player w in
  let n := Z.of_nat (length (idle_animation_frames p)) in
  frames_distinct w = true ->
  original_images p = [] ->
  0 <= current_frame p < n ->
  animation_counter p mod 5 = 0 \/ aliased w ->
  forallb (λ t, t <? glow_effect_end_time p) times_on = true ->
  glow_effect_end_time p <= t_off ->
  ∃ w',
    run_updates (times_on ++ [t_off]) w = Ok w'
    /\ original_images (player w') = []
    /\ ∀ i, frame_image w' i = frame_image w i.
Proof.
  intros p n Hdist Hempty Hcf Hal Hon Hoff. subst p n.
  assert (Hgl : glowing w w).
  { unfold glowing. rewrite Hempty. split_and!; auto; try lia.
    intros i r _. reflexivity. }
  destruct (glowing_run w times_on w Hdist Hgl Hal Hon) as (w1 & R1 & Hgl1).
  destruct (glowing_finish w w1 t_off Hdist Hgl1 Hoff) as (w' & R & Ho & Hfr).
  exists w'. split; [|auto].
  unfold run_updates in *. rewrite map_app.
  assert (Happ : ∀ a b x, run (a ++ b) x = run a x ≫= run b).
  { induction a as [|o a IH]; intros b x; cbn; [reflexivity|].
    destruct (step o x); cbn; [apply IH | reflexivity]. }
  rewrite Happ, R1. cbn. rewrite R. reflexivity.
Qed.

(** ** What the calls keep: surfaces, missiles, settings *)

Lemma surfaces_ok_groups_only w w' :
  groups_only w w' -> surfaces_ok w' = surfaces_ok w.
Proof.
  intros (E & _ & _ & S). unfold surfaces_ok. rewrite E, S. reflexivity.
Qed.

Lemma surfaces_ok_step n o w w' :
  0 < n -> animation_inv n w ->
  step o w = Ok w' -> surfaces_ok w = true -> surfaces_ok w' = true.
Proof.
  intros Hn (Hlen & Hcf & Hcache) Hstep Hs. destruct o; cbn [step] in Hstep.
  - injection Hstep as <-. unfold shoot. destruct (_ =? 0); auto.
  - injection Hstep as <-. unfold cooldown_cannon.
    destruct (_ >=? _); [|destruct (_ >? 0)]; auto.
  - injection Hstep as <-. unfold fire_missle. destruct (_ && _); auto.
  - injection Hstep as <-. unfold cooldown_missiles.
    destruct (_ >=? _); [|destruct (_ >? 0)]; auto.
  - unfold resolve_hits in Hstep.
    destruct (resolve_hits_loop laser objs (w, [])) as [[w1 k1]|] eqn:R;
      [|discriminate].
    injection Hstep as <-. apply resolve_hits_loop_frame in R as [G _].
    rewrite (surfaces_ok_groups_only w w1 G). assumption.
  - unfold resolve_missiles in Hstep.
    destruct (resolve_missiles_loop missile objs (w, [])) as [[w1 k1]|] eqn:R;
      [|discriminate].
    injection Hstep as <-. apply resolve_missiles_loop_frame in R as [G _].
    rewrite (surfaces_ok_groups_only w w1 G). assumption.
  - destruct (update_idle_animation_total now w) as (w'' & R & Hs');
      try assumption; try (rewrite Hlen; assumption).
    congruence.
  - injection Hstep as <-. assumption.
Qed.

Lemma surfaces_ok_run n ops : ∀ w w',
  0 < n -> animation_inv n w -> run ops w = Ok w' ->
  surfaces_ok w = true -> surfaces_ok w' = true.
Proof.
  induction ops as [|o ops IH]; intros w w' Hn Hinv H Hs; cbn in H.
  - injection H as <-. assumption.
  - inv_bind H as w1 H1.
    eauto using surfaces_ok_step, animation_inv_step.
Qed.

Definition is_missile (s : Sprite) : bool :=
  match s with
  | MissileObj _ _ _ => true
  | ActorObj _ => false
  end.

(** How many sprites of the store are missiles. *)
Definition missiles_in (l : list Sprite) : nat :=
  length (filter (λ s, is_missile s = true) l).

Lemma missiles_in_snoc l x :
  missiles_in (l ++ [x])
  = (missiles_in l + (if is_missile x then 1 else 0))%nat.
Proof.
  unfold missiles_in. rewrite filter_app, length_app. f_equal.
  rewrite filter_cons, filter_nil. destruct (is_missile x); reflexivity.
Qed.

Lemma missiles_in_hit l o t v :
  l !! o = Some t -> missiles_in (<[o := sprite_set_hp t v]> l) = missiles_in l.
Proof.
  revert o. induction l as [|x l IH]; intros o Ht; [reflexivity|].
  destruct o as [|o]; cbn in Ht.
  - injection Ht as ->.
    change (<[0%nat := sprite_set_hp t v]> (t :: l))
      with (sprite_set_hp t v :: l).
    unfold missiles_in. rewrite !filter_cons. destruct t; reflexivity.
  - specialize (IH o Ht).
    change (<[S o := sprite_set_hp t v]> (x :: l))
      with (x :: <[o := sprite_set_hp t v]> l).
    unfold missiles_in in *. rewrite !filter_cons.
    destruct (decide (is_missile x = true)); cbn [length]; congruence.
Qed.

Lemma deref_sprite_Ok w r t : deref_sprite w r = Ok t -> sprites w !! r = Some t.
Proof. unfold deref_sprite. destruct (sprites w !! r); congruence. Qed.

Lemma resolve_hits_body_missiles laser o w k w' k' :
  resolve_hits_body laser o (w, k) = Ok (w', k') ->
  missiles_in (sprites w') = missiles_in (sprites w).
Proof.
  unfold resolve_hits_body. destruct o as [r|].
  2:{ intros [= <- <-]. reflexivity. }
  intros H. inv_bind H as l Hl. inv_bind H as t Ht.
  apply deref_sprite_Ok in Ht.
  destruct (resolve_collision _ _).
  2:{ injection H as <- <-. reflexivity. }
  destruct (_ <=? 0); injection H as <- <-; cbn;
    apply missiles_in_hit; assumption.
Qed.

Lemma resolve_missiles_body_missiles missile o w k w' k' :
  resolve_missiles_body missile o (w, k) = Ok (w', k') ->
  missiles_in (sprites w') = missiles_in (sprites w).
Proof.
  unfold resolve_missiles_body. destruct o as [r|].
  2:{ intros [= <- <-]. reflexivity. }
  intros H. inv_bind H as l Hl. inv_bind H as t Ht.
  apply deref_sprite_Ok in Ht.
  destruct (resolve_collision _ _).
  2:{ injection H as <- <-. reflexivity. }
  destruct (_ <=? 0); injection H as <- <-; cbn;
    apply missiles_in_hit; assumption.
Qed.

Lemma resolve_hits_loop_missiles laser objs : ∀ w k w' k',
  resolve_hits_loop laser objs (w, k) = Ok (w', k') ->
  missiles_in (sprites w') = missiles_in (sprites w).
Proof.
  induction objs as [|o objs IH]; intros w k w' k' H; cbn in H.
  - injection H as <- <-. reflexivity.
  - inv_bind H as [w1 k1] Ha.
    apply resolve_hits_body_missiles in Ha. apply IH in H. congruence.
Qed.

Lemma resolve_missiles_loop_missiles missile objs : ∀ w k w' k',
  resolve_missiles_loop missile objs (w, k) = Ok (w', k') ->
  missiles_in (sprites w') = missiles_in (sprites w).
Proof.
  induction objs as [|o objs IH]; intros w k w' k' H; cbn in H.
  - injection H as <- <-. reflexivity.
  - inv_bind H as [w1 k1] Ha.
    apply resolve_missiles_body_missiles in Ha. apply IH in H. congruence.
Qed.

(** Every call keeps the sum of the missiles in the store and the
    missiles left to fire. *)
Lemma missile_budget_step o w w' :
  step o w = Ok w' ->
  Z.of_nat (missiles_in (sprites w')) + missile_count (player w')
  = Z.of_nat (missiles_in (sprites w)) + missile_count (player w).
Proof.
  intros Hstep. destruct o; cbn [step] in Hstep.
  - injection Hstep as <-. unfold shoot. destruct (_ =? 0); [|reflexivity].
    cbn -[missiles_in]. rewrite missiles_in_snoc. cbn -[missiles_in]. lia.
  - injection Hstep as <-. unfold cooldown_cannon.
    destruct (_ >=? _); [|destruct (_ >? 0)]; reflexivity.
  - injection Hstep as <-. unfold fire_missle.
    destruct (_ && _); [|reflexivity].
    cbn -[missiles_in]. rewrite missiles_in_snoc. cbn -[missiles_in]. lia.
  - injection Hstep as <-. unfold cooldown_missiles.
    destruct (_ >=? _); [|destruct (_ >? 0)]; reflexivity.
  - unfold resolve_hits in Hstep.
    destruct (resolve_hits_loop laser objs (w, [])) as [[w1 k1]|] eqn:R;
      [|discriminate].
    injection Hstep as <-.
    pose proof (resolve_hits_loop_missiles _ _ _ _ _ _ R) as ->.
    apply resolve_hits_loop_frame in R as [(E & _) _]. rewrite E. reflexivity.
  - unfold resolve_missiles in Hstep.
    destruct (resolve_missiles_loop missile objs (w, [])) as [[w1 k1]|] eqn:R;
      [|discriminate].
    injection Hstep as <-.
    pose proof (resolve_missiles_loop_missiles _ _ _ _ _ _ R) as ->.
    apply resolve_missiles_loop_frame in R as [(E & _) _]. rewrite E.
    reflexivity.
  - apply update_idle_animation_frame in Hstep as (_ & Hw & -> & _).
    unfold weapons in Hw. injection Hw as _ _ -> _ _. reflexivity.
  - injection Hstep as <-. reflexivity.
Qed.

Lemma missile_budget_run ops : ∀ w w',
  run ops w = Ok w' ->
  Z.of_nat (missiles_in (sprites w')) + missile_count (player w')
  = Z.of_nat (missiles_in (sprites w)) + missile_count (player w).
Proof.
  induction ops as [|o ops IH]; intros w w' H; cbn in H.
  - injection H as <-. reflexivity.
  - inv_bind H as w1 H1. apply missile_budget_step in H1. apply IH in H. lia.
Qed.

(** The score and the handles of the projectile images and masks. *)
Definition handles (p : Player) : Z * nat * Mask * nat * Mask :=
  (score p, laser_img p, laser_mask p, missile_img p, missile_mask p).

Lemma update_idle_animation_handles now w w' :
  update_idle_animation now w = Ok w' ->
  handles (player w') = handles (player w).
Proof.
  rewrite update_idle_animation_stages. intros H. inv_bind H as w1 H1.
  inv_bind H as w2 H2. injection H as <-.
  assert (E1 : handles (player w1) = handles (player w)).
  { unfold advance_frame in H1. destruct (_ =? 0) in H1.
    - inv_bind H1 as cf Hcf. inv_bind H1 as im Him. injection H1 as <-. auto.
    - injection H1 as <-. auto. }
  assert (E2 : handles (player w2) = handles (player w1)).
  { unfold glow_or_restore in H2. destruct (now <? _) in H2.
    - inv_bind H2 as w3 H3. unfold fill_glow in H2. inv_bind H2 as s Hs.
      injection H2 as <-. cbn.
      destruct (dict_get _ _) in H3.
      + injection H3 as <-. auto.
      + inv_bind H3 as [c w4] H4. injection H3 as <-.
        unfold copy_surface in H4. inv_bind H4 as s' Hs'.
        injection H4 as <- <-. auto.
    - inv_bind H2 as frames Hf. injection H2 as <-. auto. }
  rewrite <- E1, <- E2. reflexivity.
Qed.

Lemma handles_step o w w' :
  step o w = Ok w' ->
  handles (player w') = handles (player w)
  /\ settings (player w') = settings (player w).
Proof.
  intros Hstep. destruct o; cbn [step] in Hstep.
  - injection Hstep as <-. unfold shoot. destruct (_ =? 0); auto.
  - injection Hstep as <-. unfold cooldown_cannon.
    destruct (_ >=? _); [|destruct (_ >? 0)]; auto.
  - injection Hstep as <-. unfold fire_missle. destruct (_ && _); auto.
  - injection Hstep as <-. unfold cooldown_missiles.
    destruct (_ >=? _); [|destruct (_ >? 0)]; auto.
  - unfold resolve_hits in Hstep.
    destruct (resolve_hits_loop laser objs (w, [])) as [[w1 k1]|] eqn:R;
      [|discriminate].
    injection Hstep as <-.
    apply resolve_hits_loop_frame in R as [(E & _) _]. rewrite E. auto.
  - unfold resolve_missiles in Hstep.
    destruct (resolve_missiles_loop missile objs (w, [])) as [[w1 k1]|] eqn:R;
      [|discriminate].
    injection Hstep as <-.
    apply resolve_missiles_loop_frame in R as [(E & _) _]. rewrite E. auto.
  - split; [eapply update_idle_animation_handles; eauto|].
    apply update_idle_animation_frame in Hstep. tauto.
  - injection Hstep as <-. auto.
Qed.

Lemma handles_run ops : ∀ w w',
  run ops w = Ok w' ->
  handles (player w') = handles (player w)
  /\ settings (player w') = settings (player w).
Proof.
  induction ops as [|o ops IH]; intros w w' H; cbn in H.
  - injection H as <-. auto.
  - inv_bind H as w1 H1. apply handles_step in H1 as [E1 E2].
    apply IH in H as [E3 E4]. split; congruence.
Qed.

(** ** The kill list and the hit points left *)

Lemma occurrences_app r (a b : list (option ref)) :
  occurrences r (a ++ b) = (occurrences r a + occurrences r b)%nat.
Proof. unfold occurrences. rewrite filter_app, length_app. reflexivity. Qed.

Lemma occurrences_take_le r (objs : list (option ref)) i :
  (occurrences r (take i objs) <= occurrences r objs)%nat.
Proof.
  rewrite <- (take_drop i objs) at 2. rewrite occurrences_app. lia.
Qed.

(** A candidate of the list has a last place in it. *)
Lemma last_occurrence r (objs : list (option ref)) :
  Some r ∈ objs ->
  ∃ i, objs !! i = Some (Some r)
       /\ occurrences r (take (S i) objs) = occurrences r objs.
Proof.
  induction objs as [|x l IH] using rev_ind; intros Hin; [inversion Hin|].
  destruct (decide (x = Some r)) as [->|Hne].
  - exists (length l). split; [apply list_lookup_middle; reflexivity|].
    rewrite take_app_ge by lia.
    replace (S (length l) - length l)%nat with 1%nat by lia.
    reflexivity.
  - apply elem_of_app in Hin as [Hin|Hin].
    2:{ apply list_elem_of_singleton in Hin. congruence. }
    destruct (IH Hin) as (i & Hi & Ho).
    assert (Hlt : (i < length l)%nat) by (apply lookup_lt_is_Some; eauto).
    exists i. split; [rewrite lookup_app_l; assumption|].
    rewrite take_app_le by lia. rewrite Ho, occurrences_snoc.
    rewrite decide_False by assumption. lia.
Qed.

Lemma kills_from_dead dmg w proj objs r s :
  0 < dmg ->
  Some r ∈ objs ->
  collides w proj r = true ->
  sprites w !! r = Some s ->
  r ∈ kills_from dmg w proj [] objs <-> hp_left dmg w proj objs r s <= 0.
Proof.
  intros Hdmg Hin Hc Hs. rewrite kills_from_elem. cbn [app].
  unfold hp_left, hits. rewrite Hc. split.
  - intros (i & s' & Hi & Hs' & _ & Hle).
    assert (s' = s) by congruence. subst s'.
    pose proof (occurrences_take_le r objs (S i)). nia.
  - intros Hle. destruct (last_occurrence r objs Hin) as (i & Hi & Ho).
    exists i, s. rewrite Ho. auto.
Qed.

(** X12. For a candidate of the list that overlaps the projectile: it is
    in the returned kill list exactly when the call leaves it with no hit
    points.  A candidate that was hit and is not returned is still alive;
    one that is returned is dead in the store as well.  The same holds for
    lasers and for missiles. *)
Theorem kill_list_is_the_dead (w : World) (proj : ref)
    (objs : list (option ref)) (r : ref) :
  candidates_ok w objs = true ->
  projectile_ok w proj objs = true ->
  bool_decide (Some r ∈ objs) = true ->
  collides w proj r = true ->
  (∃ w' kills s',
     resolve_hits proj objs w = Ok (w', kills)
     /\ sprites w' !! r = Some s'
     /\ (r ∈ kills <-> hp (sprite_actor s') <= 0))
  /\ (∃ w' kills s',
        resolve_missiles proj objs w = Ok (w', kills)
        /\ sprites w' !! r = Some s'
        /\ (r ∈ kills <-> hp (sprite_actor s') <= 0)).
Proof.
  intros Hobjs Hproj Hin Hc. apply bool_decide_eq_true in Hin.
  apply candidates_ok_alive in Hobjs. apply projectile_ok_alive in Hproj.
  destruct (Hobjs r Hin) as [s Hs]. split.
  - destruct (resolve_hits_loop_spec w proj objs [] w []
                (eq_sym (damaged_nil 1 w proj)) Hobjs Hproj)
      as (w' & R & S & _).
    cbn [app] in R, S. eexists w', _, _. split; [exact R|].
    split; [rewrite S, damaged_lookup, Hs; reflexivity|].
    rewrite sprite_actor_set_hp. cbn [hp set_hp].
    apply kills_from_dead; auto. lia.
  - destruct (resolve_missiles_loop_spec w proj objs [] w []
                (eq_sym (damaged_nil 3 w proj)) Hobjs Hproj)
      as (w' & R & S & _).
    cbn [app] in R, S. eexists w', _, _. split; [exact R|].
    split; [rewrite S, damaged_lookup, Hs; reflexivity|].
    rewrite sprite_actor_set_hp. cbn [hp set_hp].
    apply kills_from_dead; auto. lia.
Qed.

(** ** Runs from a player that was just constructed *)

Section FreshPlayer.

Variables (pos0 : Vector2) (hp0 speed0 : Z) (ship_img : surf_ref)
  (ship_mask : Mask) (offset0 : Offset) (laser_img0 : surf_ref)
  (laser_mask0 : Mask) (laser_sfx0 : Sound) (missle_img : surf_ref)
  (missle_mask : Mask) (laser_hit_sfx0 explosion_sfx0 missile_sfx0 : Sound)
  (idle_animation_frames0 : list surf_ref).
Variables (sprites0 : list Sprite) (surfaces0 : list Surface).
Variable p0 : Player.

Hypothesis constructed :
  Player_init pos0 hp0 speed0 ship_img ship_mask offset0 laser_img0
    laser_mask0 laser_sfx0 missle_img missle_mask laser_hit_sfx0
    explosion_sfx0 missile_sfx0 idle_animation_frames0
  = Ok p0.

Local Abbreviation fresh := (new_world p0 sprites0 surfaces0).

Lemma fresh_player_inv : player_inv fresh.
Proof.
  injection constructed as <-.
  constructor; cbn; auto; try lia; intros r Hr; inversion Hr.
Qed.

Lemma fresh_cooldown_inv : 1 <= BASE_CANNON_COOLDOWN -> cooldown_inv fresh.
Proof. intros H. injection constructed as <-. unfold cooldown_inv. cbn. lia. Qed.

(** In every state a player with at least one idle frame can reach, the
    frame list is as long as at construction and the cache can be restored. *)
Lemma reachable_animation_inv ops w :
  idle_animation_frames0 ≠ [] ->
  run ops fresh = Ok w ->
  animation_inv (Z.of_nat (length idle_animation_frames0)) w.
Proof.
  intros Hne H.
  assert (Hn : 0 < Z.of_nat (length idle_animation_frames0)).
  { destruct idle_animation_frames0; [done|]. cbn [length]. lia. }
  eapply animation_inv_run; eauto.
  injection constructed as <-. unfold animation_inv. cbn. split_and!; auto; lia.
Qed.

Lemma reachable_player_inv ops w : run ops fresh = Ok w -> player_inv w.
Proof. intros H. eapply player_inv_run; eauto using fresh_player_inv. Qed.

(** C2. With a cooldown constant of at least 1: along every sequence of
    calls on a new player both cooldown counters stay between 0 and their
    threshold, and the sequences made of weapon calls always run to their
    end; a tick resets a counter at or above the threshold to 0, adds 1 to a
    counter strictly between 0 and the threshold, and leaves 0 at 0; a shot
    that goes off sets the counter to 1, and the counter is back at 0 after
    exactly threshold ticks, not earlier.  The missile counter behaves the
    same under [fire_missle] and [cooldown_missiles]. *)
Theorem cooldown_state_machine :
  1 <= BASE_CANNON_COOLDOWN ->
  (∀ ops w, run ops fresh = Ok w ->
     0 <= cooldown_counter (player w) <= cooldown_threshold (player w)
     /\ 0 <= missile_cooldown_counter (player w)
        <= missile_cooldown_threshold (player w))
  /\ (∀ ops, forallb total_op ops = true -> ∃ w, run ops fresh = Ok w)
  /\ (∀ w,
        let c := cooldown_counter (player w) in
        let t := cooldown_threshold (player w) in
        let c' := cooldown_counter (player (cooldown_cannon w)) in
        (c >= t -> c' = 0) /\ (0 < c < t -> c' = c + 1) /\ (c = 0 -> c' = 0))
  /\ (∀ w,
        let c := missile_cooldown_counter (player w) in
        let t := missile_cooldown_threshold (player w) in
        let c' := missile_cooldown_counter (player (cooldown_missiles w)) in
        (c >= t -> c' = 0) /\ (0 < c < t -> c' = c + 1) /\ (c = 0 -> c' = 0))
  /\ (∀ ops w, run ops fresh = Ok w -> cooldown_counter (player w) = 0 ->
        cooldown_counter (player (shoot w)) = 1
        /\ ∀ k : nat, Z.of_nat k <= cooldown_threshold (player w) ->
            cooldown_counter (player (calls k cooldown_cannon (shoot w)))
            = if Z.of_nat k <? cooldown_threshold (player w)
              then 1 + Z.of_nat k else 0)
  /\ (∀ ops w targets, run ops fresh = Ok w ->
        missile_count (player w) > 0 ->
        missile_cooldown_counter (player w) = 0 ->
        missile_cooldown_counter (player (fire_missle targets w)) = 1
        /\ ∀ k : nat, Z.of_nat k <= missile_cooldown_threshold (player w) ->
            missile_cooldown_counter
              (player (calls k cooldown_missiles (fire_missle targets w)))
            = if Z.of_nat k <? missile_cooldown_threshold (player w)
              then 1 + Z.of_nat k else 0).
Proof.
  intros Hpos. split_and!.
  - intros ops w Hrun.
    apply (cooldown_inv_run ops fresh w Hpos Hrun fresh_player_inv
             (fresh_cooldown_inv Hpos)).
  - intros ops Hops. apply run_total. assumption.
  - intros w c t c'. subst c t c'. unfold cooldown_cannon.
    destruct (_ >=? _) eqn:E1; [|destruct (_ >? 0) eqn:E2]; cbn;
      zbool; split_and!; intros; lia.
  - intros w c t c'. subst c t c'. unfold cooldown_missiles.
    destruct (_ >=? _) eqn:E1; [|destruct (_ >? 0) eqn:E2]; cbn;
      zbool; split_and!; intros; lia.
  - intros ops w Hrun Hzero.
    apply reachable_player_inv in Hrun as [(T1 & _) _ _ _].
    assert (Hshot : cooldown_counter (player (shoot w)) = 1
                    /\ cooldown_threshold (player (shoot w))
                       = cooldown_threshold (player w)).
    { unfold shoot. rewrite Hzero. cbn. auto. }
    destruct Hshot as [Hone Hthr]. split; [assumption|]. intros k Hk.
    destruct (cooldown_cannon_ticks (shoot w) k Hone) as [_ Hc];
      rewrite ?Hthr in *; [lia | lia | exact Hc].
  - intros ops w targets Hrun Hcount Hzero.
    apply reachable_player_inv in Hrun as [(_ & T2 & _) _ _ _].
    assert (Hshot :
      missile_cooldown_counter (player (fire_missle targets w)) = 1
      /\ missile_cooldown_threshold (player (fire_missle targets w))
         = missile_cooldown_threshold (player w)).
    { unfold fire_missle. rewrite Hzero.
      destruct (missile_count (player w) >? 0) eqn:E; [|zbool; lia].
      cbn. auto. }
    destruct Hshot as [Hone Hthr]. split; [assumption|]. intros k Hk.
    destruct (cooldown_missiles_ticks (fire_missle targets w) k Hone)
      as [_ Hc]; rewrite ?Hthr in *; [lia | lia | exact Hc].
Qed.

(** C4. In every state a new player can reach: [shoot] with a cooldown
    counter other than 0 changes nothing at all, no laser, no sound, no
    player field; with the counter at 0 it creates one laser at
    (ship.x, ship.y - offset["y"]) with the base laser speed and damage,
    adds it to the live lasers, plays the fire sound and sets the counter
    to 1, and changes nothing else. *)
Theorem shoot_guarded (ops : list Op) (w : World) :
  run ops fresh = Ok w ->
  (cooldown_counter (player w) ≠ 0 -> shoot w = w)
  /\ (cooldown_counter (player w) = 0 ->
      let p := player w in
      let laser :=
        ActorObj
          {| pos := {| vx := vx (pos (base p));
                       vy := coord_sub (vy (pos (base p)))
                               (off_y (offset (base p))) |};
             hp := BASE_LASER_DMG;
             speed := BASE_LASER_SPEED;
             img := laser_img p;
             mask := laser_mask p;
             offset := IMG_OFFSETS_blueLaser |} in
      sprites (shoot w) = sprites w ++ [laser]
      /\ lasers_fired (player (shoot w))
         = lasers_fired p ++ [length (sprites w)]
      /\ events (shoot w) = events w ++ [Play (laser_sfx p)]
      /\ cooldown_counter (player (shoot w)) = 1
      /\ player (shoot w)
         = set_cooldown_counter
             (set_lasers_fired p (lasers_fired p ++ [length (sprites w)])) 1
      /\ surfaces (shoot w) = surfaces w).
Proof.
  intros Hrun. apply reachable_player_inv in Hrun as [(_ & _ & T3 & _) _ I5 _].
  split.
  - intros Hne. unfold shoot. apply Z.eqb_neq in Hne. rewrite Hne. reflexivity.
  - intros Hzero p laser. subst p laser. unfold shoot. rewrite Hzero. cbn.
    rewrite group_add_fresh, T3; [auto 10|].
    intros Hin. apply I5 in Hin. lia.
Qed.

(** C5. In every state a new player can reach, the missile count is not
    negative.  [fire_missle] with no missile left or with a missile cooldown
    counter other than 0 changes nothing at all; with a missile left and
    the counter at 0 it creates one missile whose damage field is 1, adds
    it to the live missiles, takes 1 from the missile count, sets the
    counter to 1 and plays the fire sound. *)
Theorem fire_missle_guarded (ops : list Op) (w : World)
    (targets : list (option ref)) :
  run ops fresh = Ok w ->
  missile_count p0 = 2
  /\ 0 <= missile_count (player w)
  /\ (missile_count (player w) = 0
      \/ missile_cooldown_counter (player w) ≠ 0 ->
      fire_missle targets w = w)
  /\ (missile_count (player w) > 0 ->
      missile_cooldown_counter (player w) = 0 ->
      let p := player w in
      let missile :=
        MissileObj
          {| pos := {| vx := vx (pos (base p));
                       vy := coord_sub (vy (pos (base p)))
                               (off_y (offset (base p))) |};
             hp := 1;
             speed := speed (base p);
             img := missile_img p;
             mask := missile_mask p;
             offset := IMG_OFFSETS_blueMissile |}
          (Missile_lock (pos (base p)) targets (sprites w)) 90 in
      sprites (fire_missle targets w) = sprites w ++ [missile]
      /\ missiles_fired (player (fire_missle targets w))
         = missiles_fired p ++ [length (sprites w)]
      /\ missile_count (player (fire_missle targets w)) = missile_count p - 1
      /\ missile_cooldown_counter (player (fire_missle targets w)) = 1
      /\ events (fire_missle targets w) = events w ++ [Play (missile_sfx p)]
      /\ 0 <= missile_count (player (fire_missle targets w))).
Proof.
  intros Hrun. apply reachable_player_inv in Hrun as [_ I4 _ I6].
  split_and!.
  - injection constructed as <-. reflexivity.
  - lia.
  - intros Hno. unfold fire_missle.
    destruct (_ && _) eqn:E; [|reflexivity].
    apply andb_true_iff in E as [E1 E2]. zbool. lia.
  - intros Hcount Hzero p missile. subst p missile. unfold fire_missle.
    rewrite Hzero. destruct (missile_count (player w) >? 0) eqn:E; [|zbool; lia].
    cbn. rewrite group_add_fresh; [split_and!; auto; lia|].
    intros Hin. apply I6 in Hin. lia.
Qed.

(** C8. In every state a new player can reach, [start_glow_effect] sets the
    end of the glow to the current time plus 200, whatever end was set
    before; a second call 50 ms after a first leaves the end at the time of
    the second call plus 200. *)
Theorem start_glow_effect_window (ops : list Op) (w : World) (now : Z) :
  run ops fresh = Ok w ->
  glow_effect_end_time (player (start_glow_effect now w)) = now + 200
  /\ glow_effect_end_time
       (player (start_glow_effect (now + 50) (start_glow_effect now w)))
     = (now + 50) + 200.
Proof.
  intros Hrun. apply reachable_player_inv in Hrun as [(_ & _ & _ & T4) _ _ _].
  cbn. rewrite T4. auto.
Qed.


Lemma fresh_cycling : cycling idle_animation_frames0 0 fresh.
Proof.
  injection constructed as <-. unfold cycling. cbn.
  split_and!; auto. lia.
Qed.

(** C10. A new player has counter 0 and frame index 0.  With at least one
    idle frame and no glow, after [k] calls of [update_idle_animation] the
    counter is [k] and the frame index is the number of fives begun,
    [(k + 4) / 5], modulo the number of frames; from the first call on the
    frame at that index is the displayed image.  So the first call already
    goes to frame 1 (mod the frame count), calls 2 to 5 stay there, call 6
    goes to frame 2: the call after [k] calls moves the frame exactly when
    [k] is a multiple of 5.  Frame 0 is not current during the first
    [5 * (n - 1)] calls and is current again at call [5 * (n - 1) + 1]. *)
Theorem first_call_advances (times : list Z) :
  idle_animation_frames0 ≠ [] ->
  forallb (λ t, 0 <=? t) times = true ->
  let n := Z.of_nat (length idle_animation_frames0) in
  let k := Z.of_nat (length times) in
  animation_counter p0 = 0
  /\ current_frame p0 = 0
  /\ ∃ w',
      run_updates times fresh = Ok w'
      /\ animation_counter (player w') = k
      /\ current_frame (player w') = ((k + 4) / 5) mod n
      /\ (1 <= k ->
          idle_animation_frames0 !! Z.to_nat (current_frame (player w'))
          = Some (img (base (player w'))))
      /\ (1 <= k <= 5 -> current_frame (player w') = 1 mod n)
      /\ (6 <= k <= 10 -> current_frame (player w') = 2 mod n)
      /\ (1 <= k <= 5 * (n - 1) -> current_frame (player w') ≠ 0)
      /\ (k = 5 * (n - 1) + 1 -> current_frame (player w') = 0)
      /\ (∀ t, 0 <= t ->
            ∃ w'', update_idle_animation t w' = Ok w''
                   /\ current_frame (player w'')
                      = if k mod 5 =? 0
                        then (current_frame (player w') + 1) mod n
                        else current_frame (player w')).
Proof.
  intros Hne Htimes n k.
  split; [injection constructed as <-; reflexivity|].
  split; [injection constructed as <-; reflexivity|].
  destruct (cycling_run idle_animation_frames0 times 0 fresh Hne
              ltac:(lia) Htimes fresh_cycling) as (w' & R & Hcy).
  rewrite Z.add_0_l in Hcy. fold k in Hcy.
  assert (Hk : 0 <= k) by (subst k; lia).
  assert (Hn : 0 < n).
  { subst n. destruct idle_animation_frames0; [done|]. cbn [length]. lia. }
  pose proof Hcy as (Hf & Ho & Hg & Hcnt & Hcf & Himg). fold n in Hcf.
  exists w'. split_and!; auto.
  - intros H. rewrite Hcf. f_equal. Z.to_euclidean_division_equations. lia.
  - intros H. rewrite Hcf. f_equal. Z.to_euclidean_division_equations. lia.
  - intros H. rewrite Hcf. rewrite Z.mod_small.
    + Z.to_euclidean_division_equations. lia.
    + Z.to_euclidean_division_equations. nia.
  - intros H. rewrite Hcf.
    replace ((k + 4) / 5) with n by (Z.to_euclidean_division_equations; nia).
    apply Z_mod_same_full.
  - intros t Ht.
    destruct (cycling_step idle_animation_frames0 k w' t Hne Hk Ht Hcy)
      as (w'' & R' & _ & F').
    exists w''. auto.
Qed.

(** X7. A player constructed with at least one idle frame, and with a ship
    image and frames that are surfaces of the store, can always be
    animated: in every state it can reach, [update_idle_animation] returns
    at every clock reading, glow or not. *)
Theorem animation_never_raises (ops : list Op) (w : World) (now : Z) :
  idle_animation_frames0 ≠ [] ->
  (ship_img <? length surfaces0)%nat
  && forallb (λ r, (r <? length surfaces0)%nat) idle_animation_frames0
  = true ->
  run ops fresh = Ok w ->
  ∃ w', update_idle_animation now w = Ok w'.
Proof.
  intros Hne Hvalid Hrun.
  assert (Hn : 0 < Z.of_nat (length idle_animation_frames0)).
  { destruct idle_animation_frames0; [done|]. cbn [length]. lia. }
  pose proof (reachable_animation_inv ops w Hne Hrun) as (Hlen & Hcf & Hcache).
  assert (Hfresh : animation_inv (Z.of_nat (length idle_animation_frames0))
                     fresh).
  { apply (reachable_animation_inv [] fresh Hne). reflexivity. }
  assert (Hs0 : surfaces_ok fresh = true).
  { injection constructed as <-. unfold surfaces_ok.
    cbn [new_world player surfaces base img idle_animation_frames
         original_images forallb].
    rewrite andb_true_r. exact Hvalid. }
  pose proof (surfaces_ok_run _ ops fresh w Hn Hfresh Hrun Hs0) as Hs.
  destruct (update_idle_animation_total now w) as (w' & R & _);
    try assumption; try (rewrite Hlen; assumption).
  eauto.
Qed.

(** X3. Along every run of a new player, the missiles in the sprite store
    and the missiles left to fire add up to what they were at the start:
    each launch adds one missile to the store and takes one from the
    count, and nothing else changes either.  So the player launches two
    missiles at most; no method gives a missile back. *)
Theorem two_missiles_at_most (ops : list Op) (w : World) :
  run ops fresh = Ok w ->
  Z.of_nat (missiles_in (sprites w))
  = Z.of_nat (missiles_in sprites0) + (2 - missile_count (player w))
  /\ (missiles_in (sprites w) <= missiles_in sprites0 + 2)%nat.
Proof.
  intros Hrun. pose proof (missile_budget_run ops fresh w Hrun) as Hb.
  apply reachable_player_inv in Hrun as [_ I4 _ _].
  assert (E : missile_count (player fresh) = 2).
  { injection constructed as <-. reflexivity. }
  rewrite E in Hb. cbn [new_world sprites] in Hb. lia.
Qed.

(** X4. No call ever assigns the score, the laser damage, the two cooldown
    thresholds, the glow duration or the handles of the sounds and of the
    projectile images and masks: in every state a new player can reach
    they are what the constructor set; the score is still 0. *)
Theorem settings_never_change (ops : list Op) (w : World) :
  run ops fresh = Ok w ->
  let p := player w in
  score p = 0
  /\ laser_dmg p = BASE_LASER_DMG
  /\ cooldown_threshold p = BASE_CANNON_COOLDOWN
  /\ missile_cooldown_threshold p = BASE_CANNON_COOLDOWN
  /\ glow_effect_duration p = 200
  /\ (laser_sfx p, laser_hit_sfx p, explosion_sfx p, missile_sfx p)
     = (laser_sfx0, laser_hit_sfx0, explosion_sfx0, missile_sfx0)
  /\ (laser_img p, laser_mask p, missile_img p, missile_mask p)
     = (laser_img0, laser_mask0, missle_img, missle_mask).
Proof.
  intros Hrun p. subst p.
  apply handles_run in Hrun as [Hh Hs].
  unfold handles in Hh. unfold settings in Hs.
  injection Hh as -> -> -> -> ->. injection Hs as -> -> -> -> -> -> -> ->.
  injection constructed as <-. cbn. auto 10.
Qed.

(** X13. In every state a well constructed player can reach, a glow
    started at time [t] is seen by the animation calls at the clock
    readings from [t] up to [t + 199]: such a call returns with a cache
    entry for the current frame.  A call at [t + 200] or later finds the
    glow over and returns with the cache empty. *)
Theorem glow_lasts_200 (ops : list Op) (w : World) (t now : Z) :
  idle_animation_frames0 ≠ [] ->
  (ship_img <? length surfaces0)%nat
  && forallb (λ r, (r <? length surfaces0)%nat) idle_animation_frames0
  = true ->
  run ops fresh = Ok w ->
  ∃ w',
    update_idle_animation now (start_glow_effect t w) = Ok w'
    /\ if now <? t + 200
       then is_Some (dict_get (original_images (player w'))
                       (current_frame (player w')))
       else original_images (player w') = [].
Proof.
  intros Hne Hvalid Hrun.
  assert (Hn : 0 < Z.of_nat (length idle_animation_frames0)).
  { destruct idle_animation_frames0; [done|]. cbn [length]. lia. }
  pose proof (reachable_animation_inv ops w Hne Hrun) as (Hlen & Hcf & Hcache).
  assert (Hfresh : animation_inv (Z.of_nat (length idle_animation_frames0))
                     fresh).
  { apply (reachable_animation_inv [] fresh Hne). reflexivity. }
  assert (Hs0 : surfaces_ok fresh = true).
  { injection constructed as <-. unfold surfaces_ok.
    cbn [new_world player surfaces base img idle_animation_frames
         original_images forallb].
    rewrite andb_true_r. exact Hvalid. }
  pose proof (surfaces_ok_run _ ops fresh w Hn Hfresh Hrun Hs0) as Hs.
  pose proof (reachable_player_inv ops w Hrun) as [(_ & _ & _ & T4) _ _ _].
  set (w2 := start_glow_effect t w).
  assert (Hend : glow_effect_end_time (player w2) = t + 200).
  { subst w2. cbn. rewrite T4. reflexivity. }
  destruct (Z.ltb_spec now (t + 200)) as [Hon|Hoff].
  - destruct (update_idle_animation_glow now w2) as (w' & s & R & _ & _ & Hc);
      try assumption; try (subst w2; cbn; rewrite ?Hlen; assumption);
      [lia|].
    exists w'. split; [assumption|].
    subst w2. cbn in Hc.
    destruct (dict_get (original_images (player w)) (current_frame (player w')))
      eqn:Hget; destruct Hc as [-> _].
    + rewrite Hget. eauto.
    + rewrite dict_get_snoc, Hget, Z.eqb_refl. eauto.
  - destruct (update_idle_animation_total now w2) as (w' & R & _);
      try assumption; try (subst w2; cbn; rewrite ?Hlen; assumption).
    exists w'. split; [assumption|].
    eapply update_idle_animation_clears_cache; eauto. lia.
Qed.

End FreshPlayer.

(** C9, as the code has it.  The constructor checks nothing: it returns a
    player for every frame list, the empty one included, and keeps the list
    as it is.  With the empty list the error comes later, from the first
    call of [update_idle_animation], which divides by the frame count 0. *)
Theorem constructor_accepts_empty_frames (pos0 : Vector2) (hp0 speed0 : Z)
    (ship_img : surf_ref) (ship_mask : Mask) (offset0 : Offset)
    (laser_img0 : surf_ref) (laser_mask0 : Mask) (laser_sfx0 : Sound)
    (missle_img : surf_ref) (missle_mask : Mask)
    (laser_hit_sfx0 explosion_sfx0 missile_sfx0 : Sound)
    (sprites0 : list Sprite) (surfaces0 : list Surface) (now : Z) :
  (∀ frames, ∃ p,
     Player_init pos0 hp0 speed0 ship_img ship_mask offset0 laser_img0
       laser_mask0 laser_sfx0 missle_img missle_mask laser_hit_sfx0
       explosion_sfx0 missile_sfx0 frames = Ok p
     /\ idle_animation_frames p = frames)
  /\ ∃ p,
      Player_init pos0 hp0 speed0 ship_img ship_mask offset0 laser_img0
        laser_mask0 laser_sfx0 missle_img missle_mask laser_hit_sfx0
        explosion_sfx0 missile_sfx0 [] = Ok p
      /\ update_idle_animation now (new_world p sprites0 surfaces0)
         = Raise ZeroDivisionError.
Proof.
  split.
  - intros frames. eexists. split; reflexivity.
  - eexists. split; reflexivity.
Qed.

End PlayerModel.

(** * A small game to run the model on *)

Module Demo.

Local Open Scope Z_scope.

(** Surfaces are rows of RGB pixels; adding yellow (255, 255, 0) saturates
    red and green at 255 and leaves blue. *)
Definition Pixel : Type := Z * Z * Z.

Definition fill_yellow_add (s : list Pixel) : list Pixel :=
  map (λ px : Pixel,
         let '(r, g, b) := px in
         (Z.min 255 (r + 255), Z.min 255 (g + 255), Z.min 255 (b + 0))%Z) s.

(** Two shapes overlap when they are drawn at the same place. *)
Definition same_place (a b : @Shape Z) : bool :=
  let '(pa, _, _, _) := a in
  let '(pb, _, _, _) := b in
  ((vx pa =? vx pb) && (vy pa =? vy pb))%Z.

(** The lock is the first candidate that is not [None]. *)
Definition first_target (from : @Vector2 Z) (targets : list (option nat))
    (store : list (@Sprite Z (option nat))) : option nat :=
  head (omap id targets).

Definition laser_offset : @Offset Z := {| off_x := 2; off_y := 8 |}.
Definition missile_offset : @Offset Z := {| off_x := 4; off_y := 12 |}.

(** Surfaces 0 to 4: the ship, two idle frames, the laser, the missile. *)
Definition surfaces0 : list (list Pixel) :=
  [[(10, 20, 30)]; [(40, 50, 60)]; [(70, 80, 90)]; [(0, 0, 255)];
   [(200, 200, 200)]]%Z.

(** Sprites 0 to 2: three enemies, the first two where a shot from the
    ship's start position appears, with 1, 2 and 3 hit points. *)
Definition enemy (x y hp0 : Z) : @Sprite Z (option nat) :=
  ActorObj {| pos := {| vx := x; vy := y |}; hp := hp0; speed := 1;
              img := 0%nat; mask := 0%nat;
              offset := {| off_x := 16; off_y := 16 |} |}.

Definition sprites0 : list (@Sprite Z (option nat)) :=
  [enemy 100 184 1; enemy 100 184 2; enemy 100 184 3]%Z.

Definition ship_pos : @Vector2 Z := {| vx := 100; vy := 200 |}.
Definition ship_offset : @Offset Z := {| off_x := 16; off_y := 16 |}.

(** [Player(ship_pos, 3, 5, ...)] with the idle frames [frames], the cannon
    cooldown 30 and the laser damage 1. *)
Definition make_player (frames : list nat) : result (@Player Z) :=
  Player_init 30 1 ship_pos 3 5 0%nat 0%nat ship_offset 3%nat 1%nat 10%nat
    4%nat 2%nat 11%nat 12%nat 13%nat frames.

Definition player0 : @Player Z.
Proof.
  let r := eval cbv in (make_player [1; 2]%nat) in
  match r with Ok ?p => exact p end.
Defined.

Definition fresh : @World Z (list Pixel) (option nat) :=
  new_world player0 sprites0 surfaces0.

Definition run_demo (ops : list Op) w :=
  run Z.sub fill_yellow_add same_place first_target 10 laser_offset
    missile_offset ops w.

(** The world after one shot: the laser is sprite 3, where the enemies 0
    and 1 are. *)
Definition after_shot : @World Z (list Pixel) (option nat).
Proof.
  let r := eval vm_compute in (run_demo [OpShoot] fresh) in
  match r with Ok ?w => exact w end.
Defined.

(** The world after one missile launch: the missile is sprite 3. *)
Definition after_launch : @World Z (list Pixel) (option nat).
Proof.
  let r := eval vm_compute in (run_demo [OpFireMissle [Some 2%nat]] fresh) in
  match r with Ok ?w => exact w end.
Defined.

(** A glow that ends, seen by a call that does not change frame, and a
    second glow started before the next change of frame. *)
Definition glow_twice : list Op :=
  [OpUpdateIdleAnimation 0; OpStartGlowEffect 10; OpUpdateIdleAnimation 20;
   OpUpdateIdleAnimation 220; OpStartGlowEffect 230;
   OpUpdateIdleAnimation 240; OpUpdateIdleAnimation 440].

End Demo.

(** ** The theorems at work *)

Lemma resolve_hits_correct_witness :
  candidates_ok Demo.after_shot [Some 0%nat] = true
  /\ projectile_ok Demo.after_shot 3 [Some 0%nat] = true
  /\ ∃ w' kills,
      resolve_hits Demo.same_place 3 [Some 0%nat] Demo.after_shot
      = Ok (w', kills)
      /\ kills = [0%nat]
      /\ 3%nat ∉ lasers_fired (player w').
Proof.
  split; [reflexivity|]. split; [reflexivity|].
  destruct (resolve_hits_correct Demo.same_place Demo.after_shot 3
              [Some 0%nat] eq_refl eq_refl)
    as (w' & kills & R & _ & Hrem & K & _).
  exists w', kills. split; [exact R|]. split; [exact K|].
  apply Hrem. exists 0%nat. split; [left | reflexivity].
Defined.

Lemma resolve_missiles_correct_witness :
  candidates_ok Demo.after_launch [Some 2%nat] = true
  /\ projectile_ok Demo.after_launch 3 [Some 2%nat] = true
  /\ ∃ w' kills,
      resolve_missiles Demo.same_place 3 [Some 2%nat] Demo.after_launch
      = Ok (w', kills)
      /\ kills = [2%nat]
      /\ 3%nat ∉ missiles_fired (player w').
Proof.
  split; [reflexivity|]. split; [reflexivity|].
  destruct (resolve_missiles_correct Demo.same_place Demo.after_launch 3
              [Some 2%nat] eq_refl eq_refl)
    as (w' & kills & R & _ & Hrem & K & _).
  exists w', kills. split; [exact R|]. split; [exact K|].
  apply Hrem. exists 2%nat. split; [left | reflexivity].
Defined.

Lemma cooldown_state_machine_witness :
  Demo.make_player [1; 2]%nat = Ok Demo.player0
  /\ (1 <= 30)%Z
  /\ ∀ ops w, Demo.run_demo ops Demo.fresh = Ok w ->
      (0 <= cooldown_counter (player w) <= cooldown_threshold (player w))%Z
      /\ (0 <= missile_cooldown_counter (player w)
          <= missile_cooldown_threshold (player w))%Z.
Proof.
  split; [reflexivity|]. split; [lia|].
  exact (proj1 (cooldown_state_machine Z.sub Demo.fill_yellow_add
                  Demo.same_place Demo.first_target 10 30 1
                  Demo.laser_offset Demo.missile_offset Demo.ship_pos 3 5
                  0%nat 0%nat Demo.ship_offset 3%nat 1%nat 10%nat 4%nat
                  2%nat 11%nat 12%nat 13%nat [1; 2]%nat Demo.sprites0
                  Demo.surfaces0 Demo.player0 eq_refl ltac:(lia))).
Defined.

Lemma shoot_guarded_witness :
  Demo.make_player [1; 2]%nat = Ok Demo.player0
  /\ Demo.run_demo [OpShoot] Demo.fresh = Ok Demo.after_shot
  /\ shoot Z.sub 10 Demo.laser_offset Demo.after_shot = Demo.after_shot.
Proof.
  split; [reflexivity|]. split; [reflexivity|].
  apply (shoot_guarded Z.sub Demo.fill_yellow_add Demo.same_place
           Demo.first_target 10 30 1 Demo.laser_offset Demo.missile_offset
           Demo.ship_pos 3 5 0%nat 0%nat Demo.ship_offset 3%nat 1%nat 10%nat
           4%nat 2%nat 11%nat 12%nat 13%nat [1; 2]%nat Demo.sprites0
           Demo.surfaces0 Demo.player0 eq_refl [OpShoot] Demo.after_shot
           eq_refl).
  discriminate.
Defined.

Lemma fire_missle_guarded_witness :
  Demo.make_player [1; 2]%nat = Ok Demo.player0
  /\ Demo.run_demo [OpFireMissle [Some 2%nat]] Demo.fresh
     = Ok Demo.after_launch
  /\ (0 <= missile_count (player Demo.after_launch))%Z
  /\ fire_missle Z.sub Demo.first_target Demo.missile_offset [Some 2%nat]
       Demo.after_launch
     = Demo.after_launch.
Proof.
  split; [reflexivity|]. split; [reflexivity|].
  destruct (fire_missle_guarded Z.sub Demo.fill_yellow_add Demo.same_place
              Demo.first_target 10 30 1 Demo.laser_offset
              Demo.missile_offset Demo.ship_pos 3 5 0%nat 0%nat
              Demo.ship_offset 3%nat 1%nat 10%nat 4%nat 2%nat 11%nat 12%nat
              13%nat [1; 2]%nat Demo.sprites0 Demo.surfaces0 Demo.player0
              eq_refl [OpFireMissle [Some 2%nat]] Demo.after_launch
              [Some 2%nat] eq_refl)
    as (_ & Hcount & Hnoop & _).
  split; [exact Hcount|]. apply Hnoop. right. discriminate.
Defined.

Lemma start_glow_effect_window_witness :
  Demo.make_player [1; 2]%nat = Ok Demo.player0
  /\ Demo.run_demo [OpShoot] Demo.fresh = Ok Demo.after_shot
  /\ glow_effect_end_time
       (player (start_glow_effect 1050 (start_glow_effect 1000 Demo.after_shot)))
     = 1250%Z.
Proof.
  split; [reflexivity|]. split; [reflexivity|].
  exact (proj2 (start_glow_effect_window Z.sub Demo.fill_yellow_add
                  Demo.same_place Demo.first_target 10 30 1
                  Demo.laser_offset Demo.missile_offset Demo.ship_pos 3 5
                  0%nat 0%nat Demo.ship_offset 3%nat 1%nat 10%nat 4%nat
                  2%nat 11%nat 12%nat 13%nat [1; 2]%nat Demo.sprites0
                  Demo.surfaces0 Demo.player0 eq_refl [OpShoot]
                  Demo.after_shot 1000 eq_refl)).
Defined.

Lemma idle_animation_five_calls_witness :
  idle_animation_frames (player Demo.after_shot) ≠ []
  /\ cache_ok (player Demo.after_shot) = true
  /\ length [0; 16; 33; 50; 66]%Z = 5%nat
  /\ glow_over (player Demo.after_shot) [0; 16; 33; 50; 66]%Z = true
  /\ ∃ w5,
      run_updates Z.sub Demo.fill_yellow_add Demo.same_place
        Demo.first_target 10 Demo.laser_offset Demo.missile_offset
        [0; 16; 33; 50; 66]%Z Demo.after_shot
      = Ok w5
      /\ current_frame (player w5) = 1%Z
      /\ animation_counter (player w5) = 5%Z.
Proof.
  split; [discriminate|]. split; [reflexivity|]. split; [reflexivity|].
  split; [reflexivity|].
  exact (proj1 (idle_animation_five_calls Z.sub Demo.fill_yellow_add
                  Demo.same_place Demo.first_target 10 Demo.laser_offset
                  Demo.missile_offset Demo.after_shot [0; 16; 33; 50; 66]%Z
                  ltac:(discriminate) eq_refl eq_refl eq_refl)).
Defined.

Lemma first_call_advances_witness :
  Demo.make_player [1; 2]%nat = Ok Demo.player0
  /\ [1; 2]%nat ≠ []
  /\ forallb (λ t, 0 <=? t)%Z [7%Z] = true
  /\ ∃ w',
      run_updates Z.sub Demo.fill_yellow_add Demo.same_place
        Demo.first_target 10 Demo.laser_offset Demo.missile_offset [7%Z]
        Demo.fresh
      = Ok w'
      /\ animation_counter (player w') = 1%Z
      /\ current_frame (player w') = 1%Z.
Proof.
  split; [reflexivity|]. split; [discriminate|]. split; [reflexivity|].
  destruct (first_call_advances Z.sub Demo.fill_yellow_add Demo.same_place
              Demo.first_target 10 30 1 Demo.laser_offset
              Demo.missile_offset Demo.ship_pos 3 5 0%nat 0%nat
              Demo.ship_offset 3%nat 1%nat 10%nat 4%nat 2%nat 11%nat 12%nat
              13%nat [1; 2]%nat Demo.sprites0 Demo.surfaces0 Demo.player0
              eq_refl [7%Z] ltac:(discriminate) eq_refl)
    as (_ & _ & w' & R & C & F & _).
  exists w'. split; [exact R|]. split; [exact C | exact F].
Defined.

(** C9, as the claim has it, fails: the constructor returns a player for
    the empty frame list, and the error is a division by zero in the first
    animation call. *)
Lemma empty_frames_are_accepted :
  (∀ e, Demo.make_player [] ≠ Raise e)
  /\ ∃ p, Demo.make_player [] = Ok p
          /\ update_idle_animation Demo.fill_yellow_add 0
               (new_world p Demo.sprites0 Demo.surfaces0)
             = Raise ZeroDivisionError.
Proof.
  split; [discriminate|]. eexists. split; reflexivity.
Qed.

(** C7 fails on the code.  After a glow has ended and the frame was put
    back, the displayed image is still the glowing surface until the next
    change of frame.  A second glow started in between caches a copy of
    that glowing surface as the original.  When the second glow has ended
    the cache is empty and no glow is on, yet frame 1 holds the glowing
    pixels, not the ones it was constructed with. *)
Theorem glow_restore_keeps_glowing_frame :
  ∃ w,
    Demo.run_demo Demo.glow_twice Demo.fresh = Ok w
    /\ original_images (player w) = []
    /\ (glow_effect_end_time (player w) <= 440)%Z
    /\ frame_image Demo.fresh 1 = Some [(70, 80, 90)%Z]
    /\ frame_image w 1 = Some [(255, 255, 90)%Z]
    /\ frame_image w 1 = Demo.fill_yellow_add <$> frame_image Demo.fresh 1.
Proof.
  eexists. split; [vm_compute; reflexivity|].
  split_and!; try reflexivity. vm_compute. discriminate.
Qed.

(** * More scenes of the small game *)

Module Scenes.

Local Open Scope Z_scope.

(** One animation call, then a glow started at time 10: the counter is 1,
    frame 1 is current and displayed, and the cache is empty. *)
Definition glow_started : @World Z (list Demo.Pixel) (option nat).
Proof.
  let r := eval vm_compute in
    (Demo.run_demo [OpUpdateIdleAnimation 0; OpStartGlowEffect 10] Demo.fresh)
  in match r with Ok ?w => exact w end.
Defined.

(** The same after a call at time 20: frame 1 glows and its first pixels
    are cached in surface 5. *)
Definition glow_seen : @World Z (list Demo.Pixel) (option nat).
Proof.
  let r := eval vm_compute in
    (Demo.run_demo
       [OpUpdateIdleAnimation 0; OpStartGlowEffect 10; OpUpdateIdleAnimation 20]
       Demo.fresh)
  in match r with Ok ?w => exact w end.
Defined.

(** The world after one shot with a fourth enemy, sprite 4, far from the
    laser. *)
Definition far_enemy : @World Z (list Demo.Pixel) (option nat) :=
  set_sprites Demo.after_shot
    (sprites Demo.after_shot ++ [Demo.enemy 300 50 2]).

Definition update (now : Z) (w : @World Z (list Demo.Pixel) (option nat)) :=
  update_idle_animation Demo.fill_yellow_add now w.

Definition updates (times : list Z)
    (w : @World Z (list Demo.Pixel) (option nat)) :=
  run_updates Z.sub Demo.fill_yellow_add Demo.same_place Demo.first_target 10
    Demo.laser_offset Demo.missile_offset times w.

End Scenes.

Lemma shots_wait_for_cooldown_witness :
  cooldown_counter (player Demo.after_shot) = 1%Z
  /\ forallb cannon_op [OpShoot; OpCooldownCannon; OpShoot] = true
  /\ (Z.of_nat (cannon_ticks [OpShoot; OpCooldownCannon; OpShoot])
      < cooldown_threshold (player Demo.after_shot))%Z
  /\ Demo.run_demo [OpShoot; OpCooldownCannon; OpShoot] Demo.after_shot
     = Ok (calls 1 cooldown_cannon Demo.after_shot).
Proof.
  split; [reflexivity|]. split; [reflexivity|]. split; [reflexivity|].
  exact (proj1 (shots_wait_for_cooldown Z.sub Demo.fill_yellow_add Demo.same_place
              Demo.first_target 10 Demo.laser_offset Demo.missile_offset Demo.after_shot
                  [OpShoot; OpCooldownCannon; OpShoot]
                  eq_refl eq_refl eq_refl)).
Defined.

Lemma weapons_get_ready_witness :
  (0 <= cooldown_counter (player Demo.after_shot)
   <= cooldown_threshold (player Demo.after_shot))%Z
  /\ (0 <= missile_cooldown_counter (player Demo.after_shot)
      <= missile_cooldown_threshold (player Demo.after_shot))%Z
  /\ cooldown_counter (player (calls 30 cooldown_cannon Demo.after_shot))
     = 0%Z.
Proof.
  assert (H1 : (0 <= cooldown_counter (player Demo.after_shot)
                <= cooldown_threshold (player Demo.after_shot))%Z)
    by (cbn; lia).
  assert (H2 : (0 <= missile_cooldown_counter (player Demo.after_shot)
                <= missile_cooldown_threshold (player Demo.after_shot))%Z)
    by (cbn; lia).
  split; [exact H1|]. split; [exact H2|].
  apply (weapons_get_ready Demo.after_shot 30 H1 H2). cbn. lia.
Defined.

Lemma two_missiles_at_most_witness :
  Demo.make_player [1; 2]%nat = Ok Demo.player0
  /\ Demo.run_demo [OpFireMissle [Some 2%nat]] Demo.fresh
     = Ok Demo.after_launch
  /\ (missiles_in (sprites Demo.after_launch)
      <= missiles_in Demo.sprites0 + 2)%nat.
Proof.
  split; [reflexivity|]. split; [reflexivity|].
  exact (proj2 (two_missiles_at_most Z.sub Demo.fill_yellow_add Demo.same_place
              Demo.first_target 10 30 1 Demo.laser_offset Demo.missile_offset
              Demo.ship_pos 3 5 0%nat 0%nat Demo.ship_offset 3%nat 1%nat 10%nat
              4%nat 2%nat 11%nat 12%nat 13%nat [1; 2]%nat Demo.sprites0
              Demo.surfaces0 Demo.player0 eq_refl
                  [OpFireMissle [Some 2%nat]] Demo.after_launch eq_refl)).
Defined.

Lemma settings_never_change_witness :
  Demo.make_player [1; 2]%nat = Ok Demo.player0
  /\ Demo.run_demo [OpFireMissle [Some 2%nat]] Demo.fresh
     = Ok Demo.after_launch
  /\ score (player Demo.after_launch) = 0%Z.
Proof.
  split; [reflexivity|]. split; [reflexivity|].
  exact (proj1 (settings_never_change Z.sub Demo.fill_yellow_add Demo.same_place
              Demo.first_target 10 30 1 Demo.laser_offset Demo.missile_offset
              Demo.ship_pos 3 5 0%nat 0%nat Demo.ship_offset 3%nat 1%nat 10%nat
              4%nat 2%nat 11%nat 12%nat 13%nat [1; 2]%nat Demo.sprites0
              Demo.surfaces0 Demo.player0 eq_refl
                  [OpFireMissle [Some 2%nat]] Demo.after_launch eq_refl)).
Defined.

Lemma misses_change_nothing_witness :
  candidates_ok Scenes.far_enemy [None; Some 4%nat] = true
  /\ projectile_ok Scenes.far_enemy 3 [None; Some 4%nat] = true
  /\ forallb (λ o, negb (struck Demo.same_place Scenes.far_enemy 3 o))
       [None; Some 4%nat] = true
  /\ resolve_hits Demo.same_place 3 [None; Some 4%nat] Scenes.far_enemy
     = Ok (Scenes.far_enemy, []).
Proof.
  split; [reflexivity|]. split; [reflexivity|]. split; [reflexivity|].
  exact (proj1 (misses_change_nothing Demo.same_place Scenes.far_enemy 3
                  [None; Some 4%nat] eq_refl eq_refl eq_refl)).
Defined.

Lemma animation_never_raises_witness :
  Demo.make_player [1; 2]%nat = Ok Demo.player0
  /\ [1; 2]%nat ≠ []
  /\ (0 <? length Demo.surfaces0)%nat
     && forallb (λ r, (r <? length Demo.surfaces0)%nat) [1; 2]%nat = true
  /\ Demo.run_demo [OpShoot] Demo.fresh = Ok Demo.after_shot
  /\ ∃ w', Scenes.update 5 Demo.after_shot = Ok w'.
Proof.
  split; [reflexivity|]. split; [discriminate|]. split; [reflexivity|].
  split; [reflexivity|].
  exact (animation_never_raises Z.sub Demo.fill_yellow_add Demo.same_place
              Demo.first_target 10 30 1 Demo.laser_offset Demo.missile_offset
              Demo.ship_pos 3 5 0%nat 0%nat Demo.ship_offset 3%nat 1%nat 10%nat
              4%nat 2%nat 11%nat 12%nat 13%nat [1; 2]%nat Demo.sprites0
              Demo.surfaces0 Demo.player0 eq_refl [OpShoot] Demo.after_shot 5%Z
           ltac:(discriminate) eq_refl eq_refl).
Defined.

Lemma glow_call_caches_then_fills_witness :
  (0 < Z.of_nat (length (idle_animation_frames (player Scenes.glow_started))))%Z
  /\ (0 <= current_frame (player Scenes.glow_started)
      < Z.of_nat (length (idle_animation_frames (player Scenes.glow_started))))%Z
  /\ surfaces_ok Scenes.glow_started = true
  /\ (20 < glow_effect_end_time (player Scenes.glow_started))%Z
  /\ ∃ w', Scenes.update 20 Scenes.glow_started = Ok w'
           /\ idle_animation_frames (player w')
              = idle_animation_frames (player Scenes.glow_started).
Proof.
  assert (Hcf : (0 <= current_frame (player Scenes.glow_started)
                 < Z.of_nat (length (idle_animation_frames
                                       (player Scenes.glow_started))))%Z)
    by (cbn; lia).
  split; [reflexivity|]. split; [exact Hcf|]. split; [reflexivity|].
  split; [reflexivity|].
  destruct (glow_call_caches_then_fills Demo.fill_yellow_add 20
              Scenes.glow_started eq_refl Hcf eq_refl eq_refl)
    as (w' & s & R & F & _).
  exists w'. split; [exact R | exact F].
Defined.

Lemma expiry_restores_cached_images_witness :
  (0 < Z.of_nat (length (idle_animation_frames (player Scenes.glow_seen))))%Z
  /\ (0 <= current_frame (player Scenes.glow_seen)
      < Z.of_nat (length (idle_animation_frames (player Scenes.glow_seen))))%Z
  /\ cache_keys_ok
       (Z.of_nat (length (idle_animation_frames (player Scenes.glow_seen))))
       (original_images (player Scenes.glow_seen)) = true
  /\ (glow_effect_end_time (player Scenes.glow_seen) <= 220)%Z
  /\ ∃ w', Scenes.update 220 Scenes.glow_seen = Ok w'
           /\ original_images (player w') = []
           /\ idle_animation_frames (player w') !! 1%nat = Some 5%nat.
Proof.
  assert (Hcf : (0 <= current_frame (player Scenes.glow_seen)
                 < Z.of_nat (length (idle_animation_frames
                                       (player Scenes.glow_seen))))%Z)
    by (cbn; lia).
  assert (Hover : (glow_effect_end_time (player Scenes.glow_seen) <= 220)%Z)
    by (cbn; lia).
  split; [reflexivity|]. split; [exact Hcf|]. split; [reflexivity|].
  split; [exact Hover|].
  destruct (expiry_restores_cached_images Demo.fill_yellow_add 220
              Scenes.glow_seen eq_refl Hcf eq_refl Hover)
    as (w' & R & O & _ & L).
  exists w'. split; [exact R|]. split; [exact O | exact (L 1%nat)].
Defined.

Lemma glow_on_clean_state_is_undone_witness :
  frames_distinct Scenes.glow_started = true
  /\ original_images (player Scenes.glow_started) = []
  /\ (0 <= current_frame (player Scenes.glow_started)
      < Z.of_nat (length (idle_animation_frames (player Scenes.glow_started))))%Z
  /\ aliased Scenes.glow_started
  /\ forallb (λ t, t <? glow_effect_end_time (player Scenes.glow_started))%Z
       [20; 40]%Z = true
  /\ (glow_effect_end_time (player Scenes.glow_started) <= 220)%Z
  /\ ∃ w', Scenes.updates [20; 40; 220]%Z Scenes.glow_started = Ok w'
           /\ frame_image w' 1 = frame_image Scenes.glow_started 1.
Proof.
  assert (Hcf : (0 <= current_frame (player Scenes.glow_started)
                 < Z.of_nat (length (idle_animation_frames
                                       (player Scenes.glow_started))))%Z)
    by (cbn; lia).
  assert (Hover : (glow_effect_end_time (player Scenes.glow_started) <= 220)%Z)
    by (cbn; lia).
  split; [reflexivity|]. split; [reflexivity|]. split; [exact Hcf|].
  split; [reflexivity|]. split; [reflexivity|]. split; [exact Hover|].
  destruct (glow_on_clean_state_is_undone Z.sub Demo.fill_yellow_add Demo.same_place
              Demo.first_target 10 Demo.laser_offset Demo.missile_offset Scenes.glow_started
              [20; 40]%Z 220%Z eq_refl eq_refl Hcf (or_intror eq_refl)
              eq_refl Hover)
    as (w' & R & _ & F).
  exists w'. split; [exact R | exact (F 1%nat)].
Defined.

Lemma animation_pace_witness :
  idle_animation_frames (player Demo.after_shot) ≠ []
  /\ cache_ok (player Demo.after_shot) = true
  /\ glow_over (player Demo.after_shot) [0; 1; 2; 3; 4; 5; 6]%Z = true
  /\ (0 <= current_frame (player Demo.after_shot)
      < Z.of_nat (length (idle_animation_frames (player Demo.after_shot))))%Z
  /\ ∃ w', Scenes.updates [0; 1; 2; 3; 4; 5; 6]%Z Demo.after_shot = Ok w'
           /\ animation_counter (player w') = 7%Z
           /\ current_frame (player w') = 0%Z.
Proof.
  assert (Hcf : (0 <= current_frame (player Demo.after_shot)
                 < Z.of_nat (length (idle_animation_frames
                                       (player Demo.after_shot))))%Z)
    by (cbn; lia).
  split; [discriminate|]. split; [reflexivity|]. split; [reflexivity|].
  split; [exact Hcf|].
  exact (animation_pace Z.sub Demo.fill_yellow_add Demo.same_place
              Demo.first_target 10 Demo.laser_offset Demo.missile_offset Demo.after_shot [0; 1; 2; 3; 4; 5; 6]%Z
           ltac:(discriminate) eq_refl eq_refl Hcf).
Defined.

Lemma kill_list_is_the_dead_witness :
  candidates_ok Demo.after_shot [Some 0%nat; Some 1%nat] = true
  /\ projectile_ok Demo.after_shot 3 [Some 0%nat; Some 1%nat] = true
  /\ bool_decide (Some 1%nat ∈ [Some 0%nat; Some 1%nat]) = true
  /\ collides Demo.same_place Demo.after_shot 3 1 = true
  /\ ∃ w' kills s',
      resolve_hits Demo.same_place 3 [Some 0%nat; Some 1%nat] Demo.after_shot
      = Ok (w', kills)
      /\ sprites w' !! 1%nat = Some s'
      /\ (1%nat ∈ kills <-> (hp (sprite_actor s') <= 0)%Z).
Proof.
  split; [reflexivity|]. split; [reflexivity|]. split; [reflexivity|].
  split; [reflexivity|].
  exact (proj1 (kill_list_is_the_dead Demo.same_place Demo.after_shot 3
                  [Some 0%nat; Some 1%nat] 1 eq_refl eq_refl eq_refl
                  eq_refl)).
Defined.

Lemma glow_lasts_200_witness :
  Demo.make_player [1; 2]%nat = Ok Demo.player0
  /\ [1; 2]%nat ≠ []
  /\ (0 <? length Demo.surfaces0)%nat
     && forallb (λ r, (r <? length Demo.surfaces0)%nat) [1; 2]%nat = true
  /\ Demo.run_demo [OpShoot] Demo.fresh = Ok Demo.after_shot
  /\ ∃ w', Scenes.update 1200
             (start_glow_effect 1000 Demo.after_shot) = Ok w'
           /\ original_images (player w') = [].
Proof.
  split; [reflexivity|]. split; [discriminate|]. split; [reflexivity|].
  split; [reflexivity|].
  exact (glow_lasts_200 Z.sub Demo.fill_yellow_add Demo.same_place
              Demo.first_target 10 30 1 Demo.laser_offset Demo.missile_offset
              Demo.ship_pos 3 5 0%nat 0%nat Demo.ship_offset 3%nat 1%nat 10%nat
              4%nat 2%nat 11%nat 12%nat 13%nat [1; 2]%nat Demo.sprites0
              Demo.surfaces0 Demo.player0 eq_refl [OpShoot] Demo.after_shot 1000%Z 1200%Z
           ltac:(discriminate) eq_refl eq_refl).
Defined.
